(** * SimpleLang: scanner, parser and tree-walking evaluator

    A shallow embedding of the Go packages [lexer], [parser], [types],
    [ast] and [interpreter] of the SimpleLang compiler, followed by the
    properties of the language pipeline that are established on it.

    Conventions.
    - A Go [string] is a sequence of bytes: it is a [string] here, one
      [ascii] per byte.  [rune(s[i])] ranges over U+0000..U+00FF and is
      represented by the byte itself.
    - Go's [int] cursors ([line], [column]) are [Z]; indices into strings
      and slices are [nat].
    - [float64] is IEEE 754 binary64 as specified by [SpecFloat]
      ([prec = 53], [emax = 1024]).
    - A method with an [error] result is a computation [M] over its
      receiver; recursion and loops whose depth or trip count is not bounded
      by the data they walk take a [fuel] argument and can answer
      [OutOfFuel].
    - A run-time panic of Go is the result [Panic]: it is raised by
      [parser.index], the read [p.tokens[i]] of the parser's token slice,
      when the index is out of range. *)

From Stdlib Require Import ZArith Ascii String List Bool Lia SpecFloat.
From stdpp Require Import base option gmap strings list.

Local Open Scope string_scope.
Local Open Scope Z_scope.

(** ** Results *)

Inductive Res (A : Type) : Type :=
| Ok (a : A)
| Err (msg : string)
| Panic (msg : string)
| OutOfFuel.
Arguments Ok {A} a.
Arguments Err {A} msg.
Arguments Panic {A} msg.
Arguments OutOfFuel {A}.

Definition completed {A} (r : Res A) : Prop :=
  match r with OutOfFuel => False | _ => True end.

(** The call has returned, with a result or with an error. *)
Definition returned {A} (r : Res A) : Prop :=
  match r with Ok _ | Err _ => True | Panic _ | OutOfFuel => False end.

(** A computation over a mutable receiver of type [S]: the receiver after
    the call is returned with the result, also when the call fails. *)
Definition M (S A : Type) : Type := S -> Res A * S.

Definition ret {S A} (a : A) : M S A := fun s => (Ok a, s).
Definition fail {S A} (msg : string) : M S A := fun s => (Err msg, s).
Definition timeout {S A} : M S A := fun s => (OutOfFuel, s).

Definition bind {S A B} (m : M S A) (k : A -> M S B) : M S B :=
  fun s =>
    match m s with
    | (Ok a, s') => k a s'
    | (Err e, s') => (Err e, s')
    | (Panic e, s') => (Panic e, s')
    | (OutOfFuel, s') => (OutOfFuel, s')
    end.

Definition get {S} : M S S := fun s => (Ok s, s).
Definition modify {S} (f : S -> S) : M S unit := fun s => (Ok tt, f s).

Notation "'let*' x ':=' m 'in' k" := (bind m (fun x => k))
  (at level 10, x name, m at level 100, k at level 200).
Notation "m ';;' k" := (bind m (fun _ => k))
  (at level 100, k at level 200, right associativity).

(** ** Go library functions used by the program *)

Module unicode.

Definition code (c : ascii) : N := N_of_ascii c.

Definition between (lo hi : N) (c : ascii) : bool :=
  ((lo <=? code c) && (code c <=? hi))%N.

(** [unicode.IsDigit] on U+0000..U+00FF: the only decimal digits (category
    Nd) are '0'..'9'. *)
Definition IsDigit (c : ascii) : bool := between 48 57 c.

(** [unicode.IsLetter] on U+0000..U+00FF (category L): A-Z, a-z, U+00AA,
    U+00B5, U+00BA, U+00C0..U+00D6, U+00D8..U+00F6, U+00F8..U+00FF. *)
Definition IsLetter (c : ascii) : bool :=
  between 65 90 c || between 97 122 c
  || (code c =? 170)%N || (code c =? 181)%N || (code c =? 186)%N
  || between 192 214 c || between 216 246 c || between 248 255 c.

(** [unicode.IsSpace] on U+0000..U+00FF: '\t', '\n', '\v', '\f', '\r',
    ' ', U+0085 (NEL), U+00A0 (NBSP). *)
Definition IsSpace (c : ascii) : bool :=
  between 9 13 c || (code c =? 32)%N || (code c =? 133)%N || (code c =? 160)%N.

(** The UTF-8 encoding of a rune below U+0100, as written by the ["%c"]
    verb. *)
Definition encode_rune (c : ascii) : string :=
  if (code c <? 128)%N then String c EmptyString
  else String (ascii_of_N (192 + code c / 64))
         (String (ascii_of_N (128 + code c mod 64)) EmptyString).

End unicode.

Module float64.

Definition prec : Z := 53.
Definition emax : Z := 1024.

Definition add := SFadd prec emax.
Definition sub := SFsub prec emax.
Definition mul := SFmul prec emax.
Definition div := SFdiv prec emax.
Definition opp := SFopp.
Definition abs := SFabs.
Definition eqb := SFeqb.
Definition ltb := SFltb.
Definition leb := SFleb.

(** The conversion [float64(z)] of an integer. *)
Definition of_Z (z : Z) : spec_float := binary_normalize prec emax z 0 false.

(** The float64 nearest to [n / d], ties to even: one division, one
    rounding. *)
Definition of_ratio (n : Z) (d : positive) : spec_float :=
  match n with
  | Z0 => S754_zero false
  | _ =>
      let '(q, e, l) :=
        SFdiv_core_binary prec emax (Z.abs n) 0 (Zpos d) 0 in
      binary_round_aux prec emax (n <? 0) q e l
  end.

Definition same (x y : spec_float) : bool :=
  match x, y with
  | S754_zero s, S754_zero s' => Bool.eqb s s'
  | S754_infinity s, S754_infinity s' => Bool.eqb s s'
  | S754_nan, S754_nan => true
  | S754_finite s m e, S754_finite s' m' e' =>
      Bool.eqb s s' && (m =? m')%positive && (e =? e')
  | _, _ => false
  end.

End float64.

Module strconv.

Definition digit_char (d : Z) : ascii := ascii_of_N (48 + Z.to_N d).

Fixpoint digits_of (fuel : nat) (n : Z) (acc : string) : string :=
  match fuel with
  | O => acc
  | S fuel' =>
      let acc' := String (digit_char (n mod 10)) acc in
      if n / 10 =? 0 then acc' else digits_of fuel' (n / 10) acc'
  end.

(** The decimal digits of [n >= 0]. *)
Definition utoa (n : Z) : string :=
  digits_of (Z.to_nat (Z.log2 n) + 1) n EmptyString.

(** [strconv.Itoa], which is also what the ["%d"] verb writes. *)
Definition Itoa (n : Z) : string :=
  if n <? 0 then "-" ++ utoa (- n) else utoa n.

(** *** Decimal to float64: [ParseFloat] on digits and periods

    The scanner hands the evaluator lexemes made of decimal digits and
    periods only; on those, [ParseFloat] is the correctly rounded value of
    "digits [. digits]", with a range error when it rounds to infinity.
    Signs, exponents, hexadecimal mantissas, underscores, "Inf" and "NaN"
    are outside this model. *)

Fixpoint span_digits (s : string) : string * string :=
  match s with
  | String c s' =>
      if unicode.IsDigit c
      then let '(d, r) := span_digits s' in (String c d, r)
      else (EmptyString, s)
  | EmptyString => (EmptyString, EmptyString)
  end.

Fixpoint atoi_acc (s : string) (acc : Z) : Z :=
  match s with
  | String c s' => atoi_acc s' (10 * acc + (Z.of_N (unicode.code c) - 48))
  | EmptyString => acc
  end.

Definition ParseFloat_decimal (int_part frac_part : string)
  : option spec_float :=
  if (String.length int_part + String.length frac_part =? 0)%nat then None
  else
    let m := atoi_acc (int_part ++ frac_part) 0 in
    let d := Z.to_pos (10 ^ Z.of_nat (String.length frac_part)) in
    match float64.of_ratio m d with
    | S754_infinity _ => None
    | f => Some f
    end.

(** *** Float64 to decimal: [FormatFloat(f, 'g', -1, 64)]

    The digits are the shortest decimal that converts back to [f]; among
    the decimals of that length, the one nearest to [f]. *)

(** [v = n / d] as a fraction, for finite positive [m * 2^e]. *)
Definition fraction (m : positive) (e : Z) : Z * Z :=
  if 0 <=? e then (Zpos m * 2 ^ e, 1) else (Zpos m, 2 ^ (- e)).

(** The decimal point position [dp]: [10^(dp-1) <= n/d < 10^dp]. *)
Fixpoint point_up (fuel : nat) (n d : Z) (dp : Z) : Z :=
  match fuel with
  | O => dp
  | S fuel' => if n <? d * 10 ^ dp then dp else point_up fuel' n d (dp + 1)
  end.

Fixpoint point_down (fuel : nat) (n d : Z) (j : Z) : Z :=
  match fuel with
  | O => 1 - j
  | S fuel' =>
      if d <=? n * 10 ^ j then 1 - j else point_down fuel' n d (j + 1)
  end.

Definition decimal_point (n d : Z) : Z :=
  if d <=? n then point_up 400 n d 1 else point_down 400 n d 1.

(** The value [c * 10^x] read back as a float64. *)
Definition read_back (neg : bool) (c : Z) (x : Z) : spec_float :=
  let c := if neg then - c else c in
  if 0 <=? x then float64.of_ratio (c * 10 ^ x) 1
  else float64.of_ratio c (Z.to_pos (10 ^ (- x))).

(** The candidate with [nd] digits, if one converts back to [f]. *)
Definition candidate (f : spec_float) (neg : bool) (n d dp : Z) (nd : Z)
  : option Z :=
  let x := dp - nd in
  let '(sn, sd) := if 0 <=? x then (n, d * 10 ^ x) else (n * 10 ^ (- x), d) in
  let lo := sn / sd in
  let r := sn mod sd in
  let hi := lo + 1 in
  let ok_lo := float64.same (read_back neg lo x) f in
  let ok_hi := float64.same (read_back neg hi x) f in
  if r =? 0 then (if ok_lo then Some lo else None)
  else if ok_lo && ok_hi then
    (if 2 * r <? sd then Some lo
     else if sd <? 2 * r then Some hi
     else if Z.even lo then Some lo else Some hi)
  else if ok_lo then Some lo
  else if ok_hi then Some hi
  else None.

Fixpoint shortest_from (fuel : nat) (f : spec_float) (neg : bool)
    (n d dp : Z) (nd : Z) : Z * Z :=
  match candidate f neg n d dp nd with
  | Some c => (c, nd)
  | None =>
      match fuel with
      | O => (0, 0)
      | S fuel' => shortest_from fuel' f neg n d dp (nd + 1)
      end
  end.

Fixpoint strip_zeros (fuel : nat) (c : Z) : Z :=
  match fuel with
  | O => c
  | S fuel' =>
      if (c mod 10 =? 0) && negb (c =? 0) then strip_zeros fuel' (c / 10)
      else c
  end.

(** The digits (without trailing zeros) and the decimal point position:
    the value is [0.d1 d2 ... dn * 10^dp]. *)
Definition shortest (f : spec_float) : string * Z :=
  match f with
  | S754_finite s m e =>
      let '(n, d) := fraction m e in
      let dp := decimal_point n d in
      let '(c, nd) := shortest_from 17 f s n d dp 1 in
      let digs := utoa (strip_zeros 20 c) in
      (digs, if c =? 10 ^ nd then dp + 1 else dp)
  | _ => (EmptyString, 0)
  end.

Fixpoint zeros (n : nat) : string :=
  match n with
  | O => EmptyString
  | S n' => String "0" (zeros n')
  end.

Definition digit_at (digs : string) (i : Z) : ascii :=
  if i <? 0 then "0"%char
  else match String.get (Z.to_nat i) digs with
       | Some c => c
       | None => "0"%char
       end.

Fixpoint digits_range (digs : string) (start : Z) (count : nat) : string :=
  match count with
  | O => EmptyString
  | S count' =>
      String (digit_at digs start) (digits_range digs (start + 1) count')
  end.

(** [%f] with [prec] digits after the point. *)
Definition fmtF (digs : string) (dp : Z) (prec : Z) : string :=
  (if 0 <? dp then digits_range digs 0 (Z.to_nat dp) else "0")
  ++ (if 0 <? prec then "." ++ digits_range digs dp (Z.to_nat prec)
      else EmptyString).

(** [%e] with [prec] digits after the point. *)
Definition fmtE (digs : string) (dp : Z) (prec : Z) : string :=
  let exp := if (String.length digs =? 0)%nat then 0 else dp - 1 in
  String (digit_at digs 0)
    ((if 0 <? prec then "." ++ digits_range digs 1 (Z.to_nat prec)
      else EmptyString)
     ++ "e" ++ (if exp <? 0 then "-" else "+")
     ++ (if Z.abs exp <? 10 then "0" else EmptyString)
     ++ utoa (Z.abs exp)).

Definition FormatFloat_g (f : spec_float) : string :=
  match f with
  | S754_nan => "NaN"
  | S754_infinity s => if s then "-Inf" else "+Inf"
  | S754_zero s => if s then "-0" else "0"
  | S754_finite s _ _ =>
      let '(digs, dp) := shortest f in
      let nd := Z.of_nat (String.length digs) in
      let eprec := 6 in
      let exp := dp - 1 in
      (if s then "-" else EmptyString)
      ++ (if (exp <? -4) || (eprec <=? exp) then fmtE digs dp (nd - 1)
          else fmtF digs dp (Z.max (nd - dp) 0))
  end.

End strconv.

Module fmt.

(** [fmt.Sprintf("%g", f)]. *)
Definition Sprintf_g (f : spec_float) : string := strconv.FormatFloat_g f.

(** [fmt.Sscanf(str, "%f", &num)] on a string that starts with a decimal
    digit and holds decimal digits and periods only, as every number lexeme
    of the scanner does: the longest prefix of [str] of the shape
    "digits [. digits]" is the token that is converted; whatever follows
    the token is left unread and is not an error.  [None] stands for a
    non-nil [err].  The signs, exponents, underscores, "Inf" and "NaN" that
    [%f] reads as well, and the leading space it skips, are outside this
    model. *)
Definition Sscanf_f (str : string) : option spec_float :=
  let '(int_part, rest) := strconv.span_digits str in
  let frac_part :=
    match rest with
    | String c rest' =>
        if Ascii.eqb c "."%char then fst (strconv.span_digits rest')
        else EmptyString
    | EmptyString => EmptyString
    end in
  strconv.ParseFloat_decimal int_part frac_part.

End fmt.

(** ** Package lexer *)

Module lexer.

Inductive TokenType : Set :=
| TokenEOF | TokenError
| TokenNumber | TokenText | TokenBoolean
| TokenIdentifier
| TokenNumberKeyword | TokenTextKeyword | TokenBooleanKeyword
| TokenFunction | TokenIf | TokenThen | TokenElse | TokenEnd
| TokenLoop | TokenFrom | TokenTo | TokenPrint
| TokenPlus | TokenMinus | TokenMultiply | TokenDivide | TokenAssign
| TokenEqual | TokenNotEqual | TokenLessThan | TokenLessEqual
| TokenGreaterThan | TokenGreaterEqual | TokenAnd | TokenOr | TokenNot
| TokenLeftParen | TokenRightParen | TokenLeftBrace | TokenRightBrace
| TokenComma | TokenSemicolon | TokenColon.

#[global] Instance TokenType_eq_dec : EqDecision TokenType.
Proof. solve_decision. Defined.

(** The dynamic contents of a Go [interface{}] as the scanner fills it:
    nothing, a string or a bool. *)
Inductive Payload : Set :=
| PNil
| PString (s : string)
| PBool (b : bool).

Record Token : Set := mkToken {
  Type_ : TokenType;
  Value : string;
  Line : Z;
  Column : Z;
  Literal : Payload
}.

Record Lexer : Set := mkLexer {
  input : string;
  position : nat;
  line : Z;
  column : Z;
  tokens : list Token
}.

Definition NewLexer (input : string) : Lexer :=
  mkLexer input 0 1 1 [].

Definition len (l : Lexer) : nat := String.length (input l).

Definition remaining (l : Lexer) : nat := (len l - position l)%nat.

Definition at_end (l : Lexer) : bool := (len l <=? position l)%nat.

Definition currentChar (l : Lexer) : ascii :=
  if at_end l then zero
  else match String.get (position l) (input l) with
       | Some c => c
       | None => zero
       end.

Definition advance (l : Lexer) : Lexer :=
  mkLexer (input l) (S (position l)) (line l) (column l + 1) (tokens l).

Definition set_column (c : Z) (l : Lexer) : Lexer :=
  mkLexer (input l) (position l) (line l) c (tokens l).

Definition newline (l : Lexer) : Lexer :=
  mkLexer (input l) (position l) (line l + 1) 1 (tokens l).

Definition push (t : Token) (l : Lexer) : Lexer :=
  mkLexer (input l) (position l) (line l) (column l) (tokens l ++ [t]).

Definition slice (l : Lexer) (start stop : nat) : string :=
  String.substring start (stop - start) (input l).

Definition quote : ascii := "034"%char.
Definition linefeed : ascii := "010"%char.

Definition char_is (c d : ascii) : bool := Ascii.eqb c d.

(** Every loop of the scanner advances [position] at each turn and stops
    at [len]: [remaining] bounds its trip count exactly, so the count
    taken from it never cuts a loop short. *)

Fixpoint skipWhitespace_loop (n : nat) (l : Lexer) : Lexer :=
  match n with
  | O => l
  | S n' =>
      if negb (at_end l) && unicode.IsSpace (currentChar l) then
        let l1 := if char_is (currentChar l) linefeed
                  then newline l
                  else set_column (column l + 1) l in
        skipWhitespace_loop n' (advance l1)
      else l
  end.

Definition skipWhitespace (l : Lexer) : Lexer :=
  skipWhitespace_loop (remaining l) l.

Fixpoint readNumber_loop (n : nat) (l : Lexer) : Lexer :=
  match n with
  | O => l
  | S n' =>
      if negb (at_end l)
         && (unicode.IsDigit (currentChar l) || char_is (currentChar l) "."%char)
      then readNumber_loop n' (advance l)
      else l
  end.

Definition readNumber (l : Lexer) : Token * Lexer :=
  let start := position l in
  let startColumn := column l in
  let l := readNumber_loop (remaining l) l in
  let value := slice l start (position l) in
  (mkToken TokenNumber value (line l) startColumn (PString value), l).

Fixpoint readText_loop (n : nat) (l : Lexer) : Lexer :=
  match n with
  | O => l
  | S n' =>
      if negb (at_end l) && negb (char_is (currentChar l) quote) then
        let l1 := if char_is (currentChar l) linefeed
                  then newline l
                  else l in
        readText_loop n' (advance l1)
      else l
  end.

Definition readText (l : Lexer) : Token * Lexer :=
  let startColumn := column l in
  let l := advance l in
  let start := position l in
  let l := readText_loop (remaining l) l in
  if at_end l then
    (mkToken TokenError "unterminated string" (line l) startColumn PNil, l)
  else
    let value := slice l start (position l) in
    let l := advance l in
    (mkToken TokenText value (line l) startColumn (PString value), l).

Definition getKeywordType (value : string) : TokenType :=
  if string_dec value "number" then TokenNumberKeyword
  else if string_dec value "text" then TokenTextKeyword
  else if string_dec value "boolean" then TokenBooleanKeyword
  else if string_dec value "function" then TokenFunction
  else if string_dec value "if" then TokenIf
  else if string_dec value "then" then TokenThen
  else if string_dec value "else" then TokenElse
  else if string_dec value "end" then TokenEnd
  else if string_dec value "loop" then TokenLoop
  else if string_dec value "from" then TokenFrom
  else if string_dec value "to" then TokenTo
  else if string_dec value "print" then TokenPrint
  else TokenIdentifier.

Fixpoint readIdentifierOrKeyword_loop (n : nat) (l : Lexer) : Lexer :=
  match n with
  | O => l
  | S n' =>
      if negb (at_end l)
         && (unicode.IsLetter (currentChar l)
             || unicode.IsDigit (currentChar l)
             || char_is (currentChar l) "_"%char)
      then readIdentifierOrKeyword_loop n' (advance l)
      else l
  end.

Definition readIdentifierOrKeyword (l : Lexer) : Token * Lexer :=
  let start := position l in
  let startColumn := column l in
  let l := readIdentifierOrKeyword_loop (remaining l) l in
  let value := slice l start (position l) in
  let tokenType := getKeywordType value in
  if bool_decide (tokenType = TokenBoolean)
     && (bool_decide (value = "true") || bool_decide (value = "false"))
  then
    (mkToken TokenBoolean value (line l) startColumn
       (PBool (bool_decide (value = "true"))), l)
  else
    (mkToken tokenType value (line l) startColumn (PString value), l).

(** A one-character token: [advance], then the token at [column - 1]. *)
Definition single (ty : TokenType) (value : string) (l : Lexer)
  : Token * Lexer :=
  let l := advance l in
  (mkToken ty value (line l) (column l - 1) PNil, l).

(** A character that may be followed by '=' to form a two-character
    comparison. *)
Definition with_equal (ty2 : TokenType) (value2 : string)
    (ty1 : TokenType) (value1 : string) (l : Lexer) : Token * Lexer :=
  let l := advance l in
  if char_is (currentChar l) "="%char then
    let l := advance l in
    (mkToken ty2 value2 (line l) (column l - 2) PNil, l)
  else
    (mkToken ty1 value1 (line l) (column l - 1) PNil, l).

Definition nextToken (l : Lexer) : Token * Lexer :=
  let char := currentChar l in
  if unicode.IsDigit char then readNumber l
  else if char_is char quote then readText l
  else if unicode.IsLetter char then readIdentifierOrKeyword l
  else if char_is char "+"%char then single TokenPlus "+" l
  else if char_is char "-"%char then single TokenMinus "-" l
  else if char_is char "*"%char then single TokenMultiply "*" l
  else if char_is char "/"%char then single TokenDivide "/" l
  else if char_is char "="%char then with_equal TokenEqual "==" TokenAssign "=" l
  else if char_is char "<"%char then with_equal TokenLessEqual "<=" TokenLessThan "<" l
  else if char_is char ">"%char then
    with_equal TokenGreaterEqual ">=" TokenGreaterThan ">" l
  else if char_is char "!"%char then with_equal TokenNotEqual "!=" TokenNot "!" l
  else if char_is char "("%char then single TokenLeftParen "(" l
  else if char_is char ")"%char then single TokenRightParen ")" l
  else if char_is char "{"%char then single TokenLeftBrace "{" l
  else if char_is char "}"%char then single TokenRightBrace "}" l
  else if char_is char ","%char then single TokenComma "," l
  else if char_is char ";"%char then single TokenSemicolon ";" l
  else if char_is char ":"%char then single TokenColon ":" l
  else
    (mkToken TokenError
       ("unexpected character: " ++ unicode.encode_rune char)
       (line l) (column l) PNil, l).

Definition lexical_error (t : Token) : string :=
  "lexical error at line " ++ strconv.Itoa (Line t)
    ++ ", column " ++ strconv.Itoa (Column t) ++ ": " ++ Value t.

(** The main loop of [Tokenize]; [inl] is the state on leaving the loop. *)
Fixpoint Tokenize_loop (fuel : nat) (l : Lexer) : Res Lexer :=
  if at_end l then Ok l
  else
    match fuel with
    | O => OutOfFuel
    | S fuel' =>
        let l := skipWhitespace l in
        if at_end l then Ok l
        else
          let '(token, l) := nextToken l in
          if bool_decide (Type_ token = TokenError)
          then Err (lexical_error token)
          else Tokenize_loop fuel' (push token l)
    end.

Definition Tokenize_from (fuel : nat) (l : Lexer) : Res (list Token) :=
  match Tokenize_loop fuel l with
  | Ok l =>
      Ok (tokens (push (mkToken TokenEOF EmptyString (line l) (column l) PNil) l))
  | Err e => Err e
  | Panic e => Panic e
  | OutOfFuel => OutOfFuel
  end.

(** Each turn of the main loop consumes at least one byte, so
    [len + 1] turns are enough for every input. *)
Definition Tokenize (source : string) : Res (list Token) :=
  Tokenize_from (S (String.length source)) (NewLexer source).

End lexer.


(** ** Package types *)

Module types.

Inductive Type_ : Set := NumberType | TextType | BooleanType | VoidType.

#[global] Instance Type_eq_dec : EqDecision Type_.
Proof. solve_decision. Defined.

Definition Type_String (t : Type_) : string :=
  match t with
  | NumberType => "number"
  | TextType => "text"
  | BooleanType => "boolean"
  | VoidType => "void"
  end.

Definition IsCompatibleWith (t other : Type_) : bool :=
  match t with
  | NumberType => match other with NumberType => true | _ => false end
  | TextType => match other with TextType => true | _ => false end
  | BooleanType => match other with BooleanType => true | _ => false end
  | VoidType => true
  end.

Definition TypeFromString (typeStr : string) : Type_ + string :=
  if string_dec typeStr "number" then inl NumberType
  else if string_dec typeStr "text" then inl TextType
  else if string_dec typeStr "boolean" then inl BooleanType
  else if string_dec typeStr "void" then inl VoidType
  else inr ("unknown type: " ++ typeStr).

Inductive Value : Set :=
| NumberValue (Value : spec_float)
| TextValue (Value : string)
| BooleanValue (Value : bool)
| VoidValue.

Definition Value_Type (v : Value) : Type_ :=
  match v with
  | NumberValue _ => NumberType
  | TextValue _ => TextType
  | BooleanValue _ => BooleanType
  | VoidValue => VoidType
  end.

Definition Value_String (v : Value) : string :=
  match v with
  | NumberValue n => fmt.Sprintf_g n
  | TextValue t => t
  | BooleanValue b => if b then "true" else "false"
  | VoidValue => "void"
  end.

End types.

(** ** Package ast *)

Module ast.

Import types.

#[warnings="-register-all"] Inductive Expression : Set :=
| Literal (Value : lexer.Payload) (Type_ : types.Type_)
| Identifier (Name : string)
| BinaryExpression (Left : Expression) (Operator : string)
    (Right : Expression)
| UnaryExpression (Operator : string) (Operand : Expression)
| FunctionCall (Name : string) (Arguments : list Expression).

Record Parameter_ : Set := mkParameter {
  param_Name : string;
  param_Type : types.Type_
}.

#[warnings="-register-all"] Inductive Statement : Set :=
| VariableDeclaration (Type_ : types.Type_) (Name : string)
    (Value : Expression)
| Assignment (Name : string) (Value : Expression)
| IfStatement (Condition : Expression) (ThenBody ElseBody : list Statement)
| LoopStatement (Variable_ : string) (From To : Expression)
    (Body : list Statement)
| FunctionDeclaration (Name : string) (Parameters : list Parameter_)
    (ReturnType : types.Type_) (Body : list Statement)
| PrintStatement (Value : Expression).

(** What a [*ast.FunctionDeclaration] gives access to. *)
Record Function : Set := mkFunction {
  fn_Name : string;
  fn_Parameters : list Parameter_;
  fn_ReturnType : types.Type_;
  fn_Body : list Statement
}.

Record Program : Set := mkProgram { Statements : list Statement }.

End ast.

(** ** Package parser *)

Module parser.

Import types ast lexer.

Record Parser : Set := mkParser {
  tokens : list Token;
  pos : nat
}.

Definition NewParser (tokens : list Token) : Parser := mkParser tokens 0.

(** [lexer.Token{Type: lexer.TokenEOF}]: the other fields are zero. *)
Definition eof_token : Token := mkToken TokenEOF EmptyString 0 0 PNil.

(** [tokens[i]]: Go panics when the index is out of range. *)
Definition index (tokens : list Token) (i : nat) : Res Token :=
  match nth_error tokens i with
  | Some token => Ok token
  | None =>
      Panic ("runtime error: index out of range ["
             ++ strconv.Itoa (Z.of_nat i) ++ "] with length "
             ++ strconv.Itoa (Z.of_nat (length tokens)))
  end.

Definition current : M Parser Token :=
  fun p =>
    if (length (tokens p) <=? pos p)%nat then (Ok eof_token, p)
    else (index (tokens p) (pos p), p).

Definition peek : M Parser Token :=
  fun p =>
    if (length (tokens p) <=? pos p + 1)%nat then (Ok eof_token, p)
    else (index (tokens p) (pos p + 1), p).

Definition advance : M Parser unit :=
  modify (fun p => mkParser (tokens p) (S (pos p))).

(** [if p.current().Type != ty { return nil, fmt.Errorf(msg, p.current().Value) }] *)
Definition expect (ty : TokenType) (msg : string) : M Parser unit :=
  let* token := current in
  if bool_decide (Type_ token = ty) then ret tt
  else fail (msg ++ Value token).

(** *** Expressions

    The expression parsers call each other in a cycle that is closed by
    [parsePrimary] calling [parseExpression] under a parenthesis or an
    argument list.  That call is the parameter [parseExpression] of this
    section; [n] bounds the trip count of the loops.  Where the source
    calls [p.current()] several times without a [p.advance()] in between,
    the token is read once. *)

Section Expressions.

Variable parseExpression : M Parser Expression.

Fixpoint parseFunctionCall_loop (n : nat) (arguments : list Expression)
  : M Parser (list Expression) :=
  let* token := current in
  if bool_decide (Type_ token = TokenRightParen) then ret arguments
  else
    match n with
    | O => timeout
    | S n' =>
        (if (0 <? length arguments)%nat then
           expect TokenComma "expected ',' between arguments, got ";;
           advance
         else ret tt);;
        let* arg := parseExpression in
        parseFunctionCall_loop n' (arguments ++ [arg])
    end.

Definition parseFunctionCall (n : nat) (name : string) : M Parser Expression :=
  advance;;
  let* arguments := parseFunctionCall_loop n [] in
  expect TokenRightParen "expected ')', got ";;
  advance;;
  ret (FunctionCall name arguments).

Definition parsePrimary (n : nat) : M Parser Expression :=
  let* token := current in
  match Type_ token with
  | TokenNumber => advance;; ret (ast.Literal (lexer.Literal token) NumberType)
  | TokenText => advance;; ret (ast.Literal (lexer.Literal token) TextType)
  | TokenBoolean => advance;; ret (ast.Literal (lexer.Literal token) BooleanType)
  | TokenIdentifier =>
      let name := Value token in
      advance;;
      let* next := current in
      if bool_decide (Type_ next = TokenLeftParen) then parseFunctionCall n name
      else ret (Identifier name)
  | TokenLeftParen =>
      advance;;
      let* expr := parseExpression in
      expect TokenRightParen "expected ')', got ";;
      advance;;
      ret expr
  | _ => fail ("unexpected token: " ++ Value token)
  end.

Fixpoint parseUnary (n : nat) : M Parser Expression :=
  let* token := current in
  if bool_decide (Type_ token = TokenMinus)
     || bool_decide (Type_ token = TokenNot) then
    match n with
    | O => timeout
    | S n' =>
        let operator := Value token in
        advance;;
        let* operand := parseUnary n' in
        ret (UnaryExpression operator operand)
    end
  else parsePrimary n.

(** The loop shared by the six levels of binary operators:
    [for p.current().Type == op1 || ... { operator; advance; right; left = ... }] *)
Fixpoint binary_loop (ops : list TokenType) (operand : M Parser Expression)
    (n : nat) (left : Expression) : M Parser Expression :=
  let* token := current in
  if bool_decide (Type_ token ∈ ops) then
    match n with
    | O => timeout
    | S n' =>
        let operator := Value token in
        advance;;
        let* right := operand in
        binary_loop ops operand n' (BinaryExpression left operator right)
    end
  else ret left.

Definition parseFactor (n : nat) : M Parser Expression :=
  let* left := parseUnary n in
  binary_loop [TokenMultiply; TokenDivide] (parseUnary n) n left.

Definition parseTerm (n : nat) : M Parser Expression :=
  let* left := parseFactor n in
  binary_loop [TokenPlus; TokenMinus] (parseFactor n) n left.

Definition parseComparison (n : nat) : M Parser Expression :=
  let* left := parseTerm n in
  binary_loop
    [TokenLessThan; TokenLessEqual; TokenGreaterThan; TokenGreaterEqual]
    (parseTerm n) n left.

Definition parseEquality (n : nat) : M Parser Expression :=
  let* left := parseComparison n in
  binary_loop [TokenEqual; TokenNotEqual] (parseComparison n) n left.

Definition parseLogicalAnd (n : nat) : M Parser Expression :=
  let* left := parseEquality n in
  binary_loop [TokenAnd] (parseEquality n) n left.

Definition parseLogicalOr (n : nat) : M Parser Expression :=
  let* left := parseLogicalAnd n in
  binary_loop [TokenOr] (parseLogicalAnd n) n left.

End Expressions.

Fixpoint parseExpression (fuel : nat) : M Parser Expression :=
  match fuel with
  | O => timeout
  | S fuel' => parseLogicalOr (parseExpression fuel') fuel'
  end.

(** *** Statements *)

Definition lift_type (r : types.Type_ + string) : M Parser types.Type_ :=
  match r with
  | inl ty => ret ty
  | inr e => fail e
  end.

Definition parseVariableDeclaration (fuel : nat) : M Parser Statement :=
  let* typeToken := current in
  advance;;
  expect TokenIdentifier "expected identifier after type, got ";;
  let* nameToken := current in
  let name := Value nameToken in
  advance;;
  expect TokenAssign "expected '=' after variable name, got ";;
  advance;;
  let* value := parseExpression fuel in
  let* varType := lift_type (TypeFromString (Value typeToken)) in
  ret (VariableDeclaration varType name value).

Definition parseAssignment (fuel : nat) : M Parser Statement :=
  let* nameToken := current in
  let name := Value nameToken in
  advance;;
  expect TokenAssign "expected '=' after variable name, got ";;
  advance;;
  let* value := parseExpression fuel in
  ret (Assignment name value).

Definition parsePrintStatement (fuel : nat) : M Parser Statement :=
  advance;;
  let* value := parseExpression fuel in
  ret (PrintStatement value).

Definition parseExpressionStatement (fuel : nat) : M Parser Statement :=
  let* expr := parseExpression fuel in
  ret (PrintStatement expr).

Definition is_type_keyword (ty : TokenType) : bool :=
  bool_decide (ty ∈ [TokenNumberKeyword; TokenTextKeyword; TokenBooleanKeyword]).

Fixpoint parseParameters_loop (n : nat) (parameters : list Parameter_)
  : M Parser (list Parameter_) :=
  let* token := current in
  if bool_decide (Type_ token = TokenRightParen) then ret parameters
  else
    match n with
    | O => timeout
    | S n' =>
        (if (0 <? length parameters)%nat then
           expect TokenComma "expected ',' between parameters, got ";;
           advance
         else ret tt);;
        let* typeToken := current in
        (if is_type_keyword (Type_ typeToken) then ret tt
         else fail ("expected parameter type, got " ++ Value typeToken));;
        let* paramType := lift_type (TypeFromString (Value typeToken)) in
        advance;;
        expect TokenIdentifier "expected parameter name, got ";;
        let* nameToken := current in
        advance;;
        parseParameters_loop n'
          (parameters ++ [mkParameter (Value nameToken) paramType])
    end.

Section Statements.

(** The recursive call of [parseStatement] from inside a block. *)
Variable parseStatement : M Parser Statement.

(** [for p.current().Type != stop1 && ... { stmt; body = append(body, stmt) }] *)
Fixpoint block_loop (stops : list TokenType) (n : nat) (body : list Statement)
  : M Parser (list Statement) :=
  let* token := current in
  if bool_decide (Type_ token ∈ stops) then ret body
  else
    match n with
    | O => timeout
    | S n' =>
        let* stmt := parseStatement in
        block_loop stops n' (body ++ [stmt])
    end.

Definition parseIfStatement (fuel : nat) : M Parser Statement :=
  advance;;
  let* condition := parseExpression fuel in
  expect TokenThen "expected 'then' after condition, got ";;
  advance;;
  let* thenBody := block_loop [TokenElse; TokenEnd; TokenEOF] fuel [] in
  let* elseBody :=
    (let* token := current in
     if bool_decide (Type_ token = TokenElse)
     then advance;; block_loop [TokenEnd; TokenEOF] fuel []
     else ret []) in
  expect TokenEnd "expected 'end' after if statement, got ";;
  advance;;
  ret (IfStatement condition thenBody elseBody).

Definition parseLoopStatement (fuel : nat) : M Parser Statement :=
  advance;;
  expect TokenIdentifier "expected identifier after 'loop', got ";;
  let* variableToken := current in
  let variable := Value variableToken in
  advance;;
  expect TokenFrom "expected 'from' after loop variable, got ";;
  advance;;
  let* fromExpr := parseExpression fuel in
  expect TokenTo "expected 'to' after 'from' expression, got ";;
  advance;;
  let* toExpr := parseExpression fuel in
  let* body := block_loop [TokenEnd; TokenEOF] fuel [] in
  expect TokenEnd "expected 'end' after loop body, got ";;
  advance;;
  ret (LoopStatement variable fromExpr toExpr body).

Definition parseFunctionDeclaration (fuel : nat) : M Parser Statement :=
  advance;;
  expect TokenIdentifier "expected function name after 'function', got ";;
  let* nameToken := current in
  let name := Value nameToken in
  advance;;
  expect TokenLeftParen "expected '(' after function name, got ";;
  advance;;
  let* parameters := parseParameters_loop fuel [] in
  advance;;
  let* body := block_loop [TokenEnd; TokenEOF] fuel [] in
  expect TokenEnd "expected 'end' after function body, got ";;
  advance;;
  ret (FunctionDeclaration name parameters VoidType body).

Definition parseStatement_body (fuel : nat) : M Parser Statement :=
  let* token := current in
  match Type_ token with
  | TokenNumberKeyword | TokenTextKeyword | TokenBooleanKeyword =>
      parseVariableDeclaration fuel
  | TokenIdentifier =>
      let* next := peek in
      if bool_decide (Type_ next = TokenAssign)
      then parseAssignment fuel
      else parseExpressionStatement fuel
  | TokenIf => parseIfStatement fuel
  | TokenLoop => parseLoopStatement fuel
  | TokenFunction => parseFunctionDeclaration fuel
  | TokenPrint => parsePrintStatement fuel
  | _ =>
      fail ("unexpected token at line " ++ strconv.Itoa (Line token)
            ++ ", column " ++ strconv.Itoa (Column token)
            ++ ": " ++ Value token)
  end.

End Statements.

Fixpoint parseStatement (fuel : nat) : M Parser Statement :=
  match fuel with
  | O => timeout
  | S fuel' => parseStatement_body (parseStatement fuel') (S fuel')
  end.

Fixpoint Parse_loop (fuel : nat) (n : nat) (statements : list Statement)
  : M Parser (list Statement) :=
  let* token := current in
  if bool_decide (Type_ token = TokenEOF) then ret statements
  else
    match n with
    | O => timeout
    | S n' =>
        let* stmt := parseStatement fuel in
        Parse_loop fuel n' (statements ++ [stmt])
    end.

Definition Parse_with (fuel : nat) (p : Parser) : Res Program :=
  match Parse_loop fuel fuel [] p with
  | (Ok statements, _) => Ok (mkProgram statements)
  | (Err e, _) => Err e
  | (Panic e, _) => Panic e
  | (OutOfFuel, _) => OutOfFuel
  end.

(** No call nests deeper, and no loop turns more often, than there are
    tokens: [length tokens + 1] is fuel enough for every token list. *)
Definition Parse (tokens : list Token) : Res Program :=
  Parse_with (S (length tokens)) (NewParser tokens).

End parser.

(** ** Package interpreter *)

Module interpreter.

Import lexer types ast.

(** A frame and, through [parent], the chain of frames below it.  A frame is
    written through [i.environment] only, while it is the innermost one; the
    frames reached through [parent] are only read.  A chain is therefore a
    value here, and the pointer saved as [oldEnv] is the value of the chain
    at the time of saving. *)
#[warnings="-register-all"] Inductive Environment : Type :=
| mkEnvironment (variables : gmap string Value)
    (functions : gmap string Function) (parent : option Environment).

Definition variables (e : Environment) : gmap string Value :=
  match e with mkEnvironment v _ _ => v end.
Definition functions (e : Environment) : gmap string Function :=
  match e with mkEnvironment _ f _ => f end.
Definition parent (e : Environment) : option Environment :=
  match e with mkEnvironment _ _ p => p end.

Definition NewEnvironment (parent : option Environment) : Environment :=
  mkEnvironment ∅ ∅ parent.

Definition SetVariable (e : Environment) (name : string) (value : Value)
  : Environment :=
  mkEnvironment (<[name := value]> (variables e)) (functions e) (parent e).

Fixpoint GetVariable (e : Environment) (name : string) : option Value :=
  match e with
  | mkEnvironment variables _ parent =>
      match variables !! name with
      | Some value => Some value
      | None =>
          match parent with
          | Some e' => GetVariable e' name
          | None => None
          end
      end
  end.

Definition SetFunction (e : Environment) (name : string) (function : Function)
  : Environment :=
  mkEnvironment (variables e) (<[name := function]> (functions e)) (parent e).

Fixpoint GetFunction (e : Environment) (name : string) : option Function :=
  match e with
  | mkEnvironment _ functions parent =>
      match functions !! name with
      | Some function => Some function
      | None =>
          match parent with
          | Some e' => GetFunction e' name
          | None => None
          end
      end
  end.

(** The interpreter and the standard output it writes to: [stdout] holds
    the arguments of the calls of [fmt.Println], oldest first. *)
Record Interpreter : Type := mkInterpreter {
  environment : Environment;
  stdout : list string
}.

Definition NewInterpreter : Interpreter :=
  mkInterpreter (NewEnvironment None) [].

Definition set_environment (e : Environment) (i : Interpreter) : Interpreter :=
  mkInterpreter e (stdout i).

Definition Println (s : string) : M Interpreter unit :=
  modify (fun i => mkInterpreter (environment i) (stdout i ++ [s])).

(** [i.environment.SetVariable(name, value)] *)
Definition setVariable (name : string) (value : Value) : M Interpreter unit :=
  modify (fun i => set_environment (SetVariable (environment i) name value) i).

Definition setFunction (name : string) (function : Function)
  : M Interpreter unit :=
  modify (fun i => set_environment (SetFunction (environment i) name function) i).

(** [oldEnv := i.environment; i.environment = env;
     defer func() { i.environment = oldEnv }(); body] *)
Definition in_environment {A} (env : Environment) (body : M Interpreter A)
  : M Interpreter A :=
  fun i =>
    let oldEnv := environment i in
    let '(r, i') := body (set_environment env i) in
    (r, set_environment oldEnv i').

(** *** Operators *)

Definition one : spec_float := float64.of_Z 1.
Definition zero : spec_float := S754_zero false.

(** The constant [1e-9] as a float64. *)
Definition tolerance : spec_float := float64.of_ratio 1 1000000000.

Definition type_name (v : Value) : string := Type_String (Value_Type v).

Definition add (left right : Value) : M Interpreter Value :=
  match left, right with
  | NumberValue l, NumberValue r => ret (NumberValue (float64.add l r))
  | TextValue l, TextValue r => ret (TextValue (l ++ r))
  | TextValue l, NumberValue r => ret (TextValue (l ++ fmt.Sprintf_g r))
  | NumberValue l, TextValue r => ret (TextValue (fmt.Sprintf_g l ++ r))
  | _, _ =>
      fail ("cannot add " ++ type_name left ++ " and " ++ type_name right)
  end.

Definition subtract (left right : Value) : M Interpreter Value :=
  match left, right with
  | NumberValue l, NumberValue r => ret (NumberValue (float64.sub l r))
  | _, _ =>
      fail ("cannot subtract " ++ type_name right ++ " from " ++ type_name left)
  end.

Definition multiply (left right : Value) : M Interpreter Value :=
  match left, right with
  | NumberValue l, NumberValue r => ret (NumberValue (float64.mul l r))
  | _, _ =>
      fail ("cannot multiply " ++ type_name left ++ " and " ++ type_name right)
  end.

Definition divide (left right : Value) : M Interpreter Value :=
  match left, right with
  | NumberValue l, NumberValue r =>
      if float64.eqb r zero then fail "division by zero"
      else ret (NumberValue (float64.div l r))
  | _, _ =>
      fail ("cannot divide " ++ type_name left ++ " by " ++ type_name right)
  end.

Definition equal_bool (left right : Value) : bool :=
  if negb (bool_decide (Value_Type left = Value_Type right)) then false
  else
    match left, right with
    | NumberValue l, NumberValue r =>
        float64.ltb (float64.abs (float64.sub l r)) tolerance
    | TextValue l, TextValue r => bool_decide (l = r)
    | BooleanValue l, BooleanValue r => Bool.eqb l r
    | _, _ => false
    end.

Definition equal (left right : Value) : M Interpreter Value :=
  ret (BooleanValue (equal_bool left right)).

Definition notEqual (left right : Value) : M Interpreter Value :=
  let* result := equal left right in
  match result with
  | BooleanValue b => ret (BooleanValue (negb b))
  | _ => ret (BooleanValue false)
  end.

Definition compare (op : spec_float -> spec_float -> bool)
    (left right : Value) : M Interpreter Value :=
  match left, right with
  | NumberValue l, NumberValue r => ret (BooleanValue (op l r))
  | _, _ =>
      fail ("cannot compare " ++ type_name left ++ " and " ++ type_name right)
  end.

Definition lessThan := compare (fun l r => float64.ltb l r).
Definition lessEqual := compare (fun l r => float64.leb l r).
Definition greaterThan := compare (fun l r => float64.ltb r l).
Definition greaterEqual := compare (fun l r => float64.leb r l).

Definition logicalAnd (left right : Value) : M Interpreter Value :=
  match left, right with
  | BooleanValue l, BooleanValue r => ret (BooleanValue (l && r))
  | _, _ =>
      fail ("cannot perform logical AND on " ++ type_name left ++ " and "
            ++ type_name right)
  end.

Definition logicalOr (left right : Value) : M Interpreter Value :=
  match left, right with
  | BooleanValue l, BooleanValue r => ret (BooleanValue (l || r))
  | _, _ =>
      fail ("cannot perform logical OR on " ++ type_name left ++ " and "
            ++ type_name right)
  end.

(** *** Expressions and statements *)

Definition evaluateLiteral (Value : Payload) (Type_ : types.Type_)
  : M Interpreter types.Value :=
  match Type_ with
  | NumberType =>
      match Value with
      | PString str =>
          match fmt.Sscanf_f str with
          | None => fail ("invalid number: " ++ str)
          | Some num => ret (NumberValue num)
          end
      | _ => fail "invalid number literal"
      end
  | TextType =>
      match Value with
      | PString str => ret (TextValue str)
      | _ => fail "invalid text literal"
      end
  | BooleanType =>
      match Value with
      | PBool b => ret (BooleanValue b)
      | _ => fail "invalid boolean literal"
      end
  | VoidType => fail ("unknown literal type: " ++ Type_String Type_)
  end.

Definition evaluateIdentifier (Name : string) : M Interpreter Value :=
  fun i =>
    match GetVariable (environment i) Name with
    | None => fail ("undefined variable: " ++ Name) i
    | Some value => ret value i
    end.

(** [funcEnv.SetVariable(param.Name, args[j])] for each parameter in turn,
    after its type check.  [args] is as long as [parameters]. *)
Fixpoint bind_parameters (Name : string) (parameters : list Parameter_)
    (args : list Value) (funcEnv : Environment) : M Interpreter Environment :=
  match parameters, args with
  | param :: parameters', arg :: args' =>
      if negb (IsCompatibleWith (param_Type param) (Value_Type arg)) then
        fail ("type mismatch in function " ++ Name ++ ": parameter "
              ++ param_Name param ++ " expects "
              ++ Type_String (param_Type param) ++ ", got " ++ type_name arg)
      else
        bind_parameters Name parameters' args'
          (SetVariable funcEnv (param_Name param) arg)
  | _, _ => ret funcEnv
  end.

Section Evaluator.

(** The recursive calls. *)
Variable evaluateExpression : Expression -> M Interpreter Value.
Variable executeStatement : Statement -> M Interpreter Value.

(** [for _, statement := range body { _, err := i.executeStatement(statement);
     if err != nil { return nil, err } }] *)
Fixpoint executeStatements (body : list Statement) : M Interpreter unit :=
  match body with
  | [] => ret tt
  | statement :: body' =>
      executeStatement statement;;
      executeStatements body'
  end.

Fixpoint evaluateArguments (Arguments : list Expression) (args : list Value)
  : M Interpreter (list Value) :=
  match Arguments with
  | [] => ret args
  | arg :: Arguments' =>
      let* value := evaluateExpression arg in
      evaluateArguments Arguments' (args ++ [value])
  end.

Definition evaluateBinaryExpression (Left : Expression) (Operator : string)
    (Right : Expression) : M Interpreter Value :=
  let* left := evaluateExpression Left in
  let* right := evaluateExpression Right in
  if string_dec Operator "+" then add left right
  else if string_dec Operator "-" then subtract left right
  else if string_dec Operator "*" then multiply left right
  else if string_dec Operator "/" then divide left right
  else if string_dec Operator "==" then equal left right
  else if string_dec Operator "!=" then notEqual left right
  else if string_dec Operator "<" then lessThan left right
  else if string_dec Operator "<=" then lessEqual left right
  else if string_dec Operator ">" then greaterThan left right
  else if string_dec Operator ">=" then greaterEqual left right
  else if string_dec Operator "and" then logicalAnd left right
  else if string_dec Operator "or" then logicalOr left right
  else fail ("unknown binary operator: " ++ Operator).

Definition evaluateUnaryExpression (Operator : string) (Operand : Expression)
  : M Interpreter Value :=
  let* operand := evaluateExpression Operand in
  if string_dec Operator "-" then
    match operand with
    | NumberValue num => ret (NumberValue (float64.opp num))
    | _ => fail "cannot negate non-number value"
    end
  else if string_dec Operator "!" then
    match operand with
    | BooleanValue b => ret (BooleanValue (negb b))
    | _ => fail "cannot negate non-boolean value"
    end
  else fail ("unknown unary operator: " ++ Operator).

Definition evaluateFunctionCall (Name : string) (Arguments : list Expression)
  : M Interpreter Value :=
  let* i := get in
  match GetFunction (environment i) Name with
  | None => fail ("undefined function: " ++ Name)
  | Some function =>
      let* args := evaluateArguments Arguments [] in
      if negb (length args =? length (fn_Parameters function))%nat then
        fail ("function " ++ Name ++ " expects "
              ++ strconv.Itoa (Z.of_nat (length (fn_Parameters function)))
              ++ " arguments, got " ++ strconv.Itoa (Z.of_nat (length args)))
      else
        let* i := get in
        let* funcEnv :=
          bind_parameters Name (fn_Parameters function) args
            (NewEnvironment (Some (environment i))) in
        in_environment funcEnv
          (executeStatements (fn_Body function);;
           ret VoidValue)
  end.

Definition executeVariableDeclaration (Type_ : types.Type_) (Name : string)
    (Value : Expression) : M Interpreter types.Value :=
  let* value := evaluateExpression Value in
  if negb (IsCompatibleWith Type_ (Value_Type value)) then
    fail ("type mismatch: cannot assign " ++ type_name value
          ++ " to variable of type " ++ Type_String Type_)
  else
    setVariable Name value;;
    ret value.

Definition executeAssignment (Name : string) (Value : Expression)
  : M Interpreter types.Value :=
  let* value := evaluateExpression Value in
  let* i := get in
  match GetVariable (environment i) Name with
  | None => fail ("undefined variable: " ++ Name)
  | Some _ =>
      setVariable Name value;;
      ret value
  end.

Definition executeIfStatement (Condition : Expression)
    (ThenBody ElseBody : list Statement) : M Interpreter Value :=
  let* condition := evaluateExpression Condition in
  match condition with
  | BooleanValue booleanValue =>
      (if booleanValue then executeStatements ThenBody
       else executeStatements ElseBody);;
      ret VoidValue
  | _ => fail ("condition must be boolean, got " ++ type_name condition)
  end.

(** [for j := from; j <= to; j++ { loopEnv.SetVariable(...); body }].
    When a turn begins, [i.environment] is [loopEnv]: every statement leaves
    [i.environment] pointing where it did, and changes at most the frame it
    points to. *)
Fixpoint executeLoopStatement_loop (n : nat) (Variable_ : string)
    (Body : list Statement) (j to : spec_float) : M Interpreter unit :=
  if float64.leb j to then
    match n with
    | O => timeout
    | S n' =>
        setVariable Variable_ (NumberValue j);;
        executeStatements Body;;
        executeLoopStatement_loop n' Variable_ Body (float64.add j one) to
    end
  else ret tt.

Definition executeLoopStatement (n : nat) (Variable_ : string)
    (From To : Expression) (Body : list Statement) : M Interpreter Value :=
  let* fromValue := evaluateExpression From in
  let* toValue := evaluateExpression To in
  match fromValue, toValue with
  | NumberValue from, NumberValue to =>
      let* i := get in
      let loopEnv := NewEnvironment (Some (environment i)) in
      in_environment loopEnv
        (executeLoopStatement_loop n Variable_ Body from to;;
         ret VoidValue)
  | _, _ => fail "loop bounds must be numbers"
  end.

Definition executeFunctionDeclaration (Name : string)
    (Parameters : list Parameter_) (ReturnType : types.Type_)
    (Body : list Statement) : M Interpreter Value :=
  setFunction Name (mkFunction Name Parameters ReturnType Body);;
  ret VoidValue.

Definition executePrintStatement (Value : Expression)
  : M Interpreter types.Value :=
  let* value := evaluateExpression Value in
  Println (Value_String value);;
  ret VoidValue.

End Evaluator.

Fixpoint evaluateExpression (fuel : nat) (expr : Expression)
  : M Interpreter Value :=
  match fuel with
  | O => timeout
  | S fuel' =>
      match expr with
      | Literal v t => evaluateLiteral v t
      | Identifier name => evaluateIdentifier name
      | BinaryExpression l op r =>
          evaluateBinaryExpression (evaluateExpression fuel') l op r
      | UnaryExpression op e =>
          evaluateUnaryExpression (evaluateExpression fuel') op e
      | FunctionCall name args =>
          evaluateFunctionCall (evaluateExpression fuel')
            (executeStatement fuel') name args
      end
  end
with executeStatement (fuel : nat) (statement : Statement)
  : M Interpreter Value :=
  match fuel with
  | O => timeout
  | S fuel' =>
      match statement with
      | VariableDeclaration t name v =>
          executeVariableDeclaration (evaluateExpression fuel') t name v
      | Assignment name v =>
          executeAssignment (evaluateExpression fuel') name v
      | IfStatement c t e =>
          executeIfStatement (evaluateExpression fuel')
            (executeStatement fuel') c t e
      | LoopStatement v f t b =>
          executeLoopStatement (evaluateExpression fuel')
            (executeStatement fuel') fuel' v f t b
      | FunctionDeclaration n ps r b =>
          executeFunctionDeclaration n ps r b
      | PrintStatement v =>
          executePrintStatement (evaluateExpression fuel') v
      end
  end.

Definition Interpret (fuel : nat) (program : Program) : M Interpreter unit :=
  executeStatements (executeStatement fuel) (Statements program).

(** What a run of a program on a fresh interpreter leaves: the error, if
    any, and the lines printed. *)
Definition run (fuel : nat) (program : Program) : Res unit * list string :=
  let '(r, i) := Interpret fuel program NewInterpreter in (r, stdout i).

End interpreter.

(** ** The pipeline of [main]: scan, parse, execute *)

Module main.

Inductive Outcome : Type :=
| LexicalError (msg : string)
| ParseError (msg : string)
| Executed (result : Res unit) (printed : list string)
| Crashed (msg : string)
| Unfinished.

Definition pipeline (fuel : nat) (source : string) : Outcome :=
  match lexer.Tokenize source with
  | Err e => LexicalError e
  | Panic e => Crashed e
  | OutOfFuel => Unfinished
  | Ok tokens =>
      match parser.Parse tokens with
      | Err e => ParseError e
      | Panic e => Crashed e
      | OutOfFuel => Unfinished
      | Ok ast =>
          let '(r, printed) := interpreter.run fuel ast in
          Executed r printed
      end
  end.

End main.

(** ** Vocabulary of the properties *)

Module scenarios.

Import lexer.

Definition nl : string := String linefeed EmptyString.
Definition dq : string := String quote EmptyString.

(** End-to-end scenario 5: a procedure and a bare call of it. *)
Definition greet : string :=
  "function greet(text n)" ++ nl
  ++ " print " ++ dq ++ "Hi " ++ dq ++ " + n" ++ nl
  ++ "end" ++ nl
  ++ "greet(" ++ dq ++ "Ada" ++ dq ++ ")".

(** End-to-end scenario 6: a factorial accumulated in a global variable. *)
Definition factorial : string :=
  "number n = 5" ++ nl
  ++ "number r = 1" ++ nl
  ++ "loop i from 1 to n" ++ nl
  ++ " r = r * i" ++ nl
  ++ "end" ++ nl
  ++ "print r".

(** A literal with two periods. *)
Definition two_periods : string := "print 1.2.3".

(** An identifier after two spaces; an identifier after a line feed. *)
Definition indented : string := "  x".
Definition second_line : string := "a" ++ nl ++ "b".

(** Program trees. *)

Import types ast.

Definition number (s : string) : Expression := Literal (PString s) NumberType.

Definition print_i : Statement := PrintStatement (Identifier "i").

(** [loop i from 9007199254740992 to 9007199254740994 print i end]: the
    bounds are 2^53 and 2^53 + 2. *)
Definition stuck_loop : Statement :=
  LoopStatement "i" (number "9007199254740992") (number "9007199254740994")
    [print_i].

(** [loop i from 1 to 3 print i  i = 10  print i end] *)
Definition count_to_three : Statement :=
  LoopStatement "i" (number "1") (number "3")
    [print_i; Assignment "i" (number "10"); print_i].

Definition counting : Program := mkProgram [count_to_three].

(** [loop i from 1 to 3 print i  print 1 / 0 end] *)
Definition failing_loop : Statement :=
  LoopStatement "i" (number "1") (number "3")
    [print_i;
     PrintStatement (BinaryExpression (number "1") "/" (number "0"))].

(** The trees of scenario 5: the declaration of [greet] and the bare call. *)
Definition greet_declaration : Statement :=
  FunctionDeclaration "greet" [mkParameter "n" TextType] VoidType
    [PrintStatement
       (BinaryExpression (Literal (PString "Hi ") TextType) "+"
          (Identifier "n"))].

Definition greet_call : Expression :=
  FunctionCall "greet" [Literal (PString "Ada") TextType].

(** The interpreter after the declaration has been executed. *)
Definition greet_declared : interpreter.Interpreter :=
  snd (interpreter.executeStatement 2 greet_declaration
         interpreter.NewInterpreter).

(** [loop i from 1152921504606846976 to 5 print i end]: the lower bound
    is 2^60. *)
Definition empty_loop : Statement :=
  LoopStatement "i" (number "1152921504606846976") (number "5") [print_i].

(** [false and 1 / 0] *)
Definition false_and_division : Expression :=
  BinaryExpression (Literal (PBool false) BooleanType) "and"
    (BinaryExpression (number "1") "/" (number "0")).

End scenarios.

Module properties.

Import lexer types ast interpreter.

(** The characters at which [nextToken] starts a token. *)
Definition starts_token (c : ascii) : bool :=
  unicode.IsDigit c || char_is c quote || unicode.IsLetter c
  || bool_decide (c ∈ list_ascii_of_string "+-*/=<>!(){},;:").

(** The values taken by the counter [j] of the loop of [executeLoopStatement]
    in its first [n] turns: they depend on the bounds alone. *)
Fixpoint counter_values (n : nat) (j to : spec_float) : list spec_float :=
  if float64.leb j to then
    match n with
    | O => []
    | S n' => j :: counter_values n' (float64.add j one) to
    end
  else [].

(** Whether the counter passes [to] within [n] turns. *)
Fixpoint counter_stops (n : nat) (j to : spec_float) : bool :=
  if float64.leb j to then
    match n with
    | O => false
    | S n' => counter_stops n' (float64.add j one) to
    end
  else true.

(** One execution of the body per value, the loop variable bound to the
    value in the innermost frame when the execution starts; the first
    execution that fails ends the sequence. *)
Fixpoint run_turns (executeStatement : Statement -> M Interpreter Value)
    (Variable_ : string) (Body : list Statement) (js : list spec_float)
  : M Interpreter unit :=
  match js with
  | [] => ret tt
  | j :: js' =>
      setVariable Variable_ (NumberValue j);;
      executeStatements executeStatement Body;;
      run_turns executeStatement Variable_ Body js'
  end.

(** The integers [a, a+1, ..., a+n-1]. *)
Fixpoint integers (a : Z) (n : nat) : list Z :=
  match n with
  | O => []
  | S n' => a :: integers (a + 1) n'
  end.

(** The number [f] is the integer [A]: the conversion of [A], which is
    exact for [|A| <= 2^53], or the negative zero when [A] is zero. *)
Definition integer_value (f : spec_float) (A : Z) : Prop :=
  f = float64.of_Z A \/ (A = 0 /\ f = S754_zero true).

(** [m2] goes at least as far as [m1]: it takes back no line that is
    printed when it starts; where [m1] ends, [m2] ends with the same result
    in the same state; where [m1] is cut short, what [m1] has printed is
    the beginning of what [m2] has printed. *)
Definition extends {A} (m1 m2 : M Interpreter A) : Prop :=
  forall s,
    stdout s `prefix_of` stdout (snd (m2 s))
    /\ match fst (m1 s) with
       | OutOfFuel => stdout (snd (m1 s)) `prefix_of` stdout (snd (m2 s))
       | _ => m2 s = m1 s
       end.

(** What can be observed of the executions of a program on a fresh
    interpreter: the lines [out] are the first lines it prints; it ends
    with the result [r] having printed the lines [out]. *)
Definition prints (program : Program) (out : list string) : Prop :=
  exists fuel, out `prefix_of` snd (run fuel program).

Definition ends (program : Program) (r : Res unit) (out : list string)
  : Prop :=
  exists fuel, run fuel program = (r, out) /\ completed r.

(** Tokens left to read. *)
Definition rest (p : parser.Parser) : nat :=
  (length (parser.tokens p) - parser.pos p)%nat.

(** The token at the position of the parser and the token after it, when
    there is one; the synthesized end-of-input token otherwise. *)
Definition current_token (p : parser.Parser) : Token :=
  nth (parser.pos p) (parser.tokens p) parser.eof_token.

Definition next_token (p : parser.Parser) : Token :=
  nth (parser.pos p + 1) (parser.tokens p) parser.eof_token.

Definition cur_is (ty : TokenType) (p : parser.Parser) : bool :=
  bool_decide (lexer.Type_ (current_token p) = ty).

(** [p'] is [p] with at least [k] more tokens read. *)
Definition after (k : nat) (p p' : parser.Parser) : Prop :=
  parser.tokens p' = parser.tokens p /\ (rest p' + k <= rest p)%nat.

(** The routine [m], started on [p], answers, with a result or with a
    diagnostic, and does not panic; when it succeeds, its result and the
    parser it leaves satisfy [Q]. *)
Definition post {A} (m : M parser.Parser A) (p : parser.Parser)
    (Q : A -> parser.Parser -> Prop) : Prop :=
  match m p with
  | (Ok a, p') => Q a p'
  | (Err _, _) => True
  | (Panic _, _) => False
  | (OutOfFuel, _) => False
  end.

(** [w = q * 2^e] with [q] a mantissa of 53 bits. *)
Definition repr (w q : positive) (e : Z) : Prop :=
  digits2_pos q = 53%positive /\ -52 <= e <= 971
  /\ Zpos w * 2 ^ 52 = Zpos q * 2 ^ (e + 52).

(** [l'] reads the same input as [l] and is at least [k] bytes further. *)
Definition further (k : nat) (l l' : Lexer) : Prop :=
  input l' = input l /\ (position l + k <= position l')%nat.

(** A computation that leaves [i.environment] as it found it. *)
Definition keeps_environment {A} (m : M Interpreter A) : Prop :=
  forall i, environment (snd (m i)) = environment i.

(** A computation that changes at most the innermost frame. *)
Definition keeps_frames_below {A} (m : M Interpreter A) : Prop :=
  forall i, parent (environment (snd (m i))) = parent (environment i).

End properties.

(** ** Vocabulary of the scanner's invariants *)

Module scanning.

Import lexer.

(** The common shape of the scanner's inner loops:
    [for l.position < len(l.input) && P(l.currentChar()) { count; l.advance() }]. *)
Fixpoint scan_while (P : ascii -> bool) (count : Lexer -> Lexer) (n : nat)
    (l : Lexer) : Lexer :=
  match n with
  | O => l
  | S n' =>
      if negb (at_end l) && P (currentChar l)
      then scan_while P count n' (advance (count l))
      else l
  end.

(** What the loops do to the counters before they advance. *)
Definition count_space (l : Lexer) : Lexer :=
  if char_is (currentChar l) linefeed then newline l
  else set_column (column l + 1) l.

Definition count_line (l : Lexer) : Lexer :=
  if char_is (currentChar l) linefeed then newline l else l.

Definition in_number (c : ascii) : bool :=
  unicode.IsDigit c || char_is c "."%char.

Definition in_word (c : ascii) : bool :=
  unicode.IsLetter c || unicode.IsDigit c || char_is c "_"%char.

Definition in_text (c : ascii) : bool := negb (char_is c quote).

(** [count] touches the line and column counters only, and never sets one
    back before 1. *)
Definition counts_only (count : Lexer -> Lexer) : Prop :=
  forall l, input (count l) = input l
    /\ position (count l) = position l
    /\ tokens (count l) = tokens l
    /\ line l <= line (count l)
    /\ (1 <= column l -> 0 <= column (count l)).

(** [l'] is [l] after some more reading: the same input and tokens, a
    position, a line and a column that are not before those of [l]. *)
Definition reads_on (l l' : Lexer) : Prop :=
  input l' = input l
  /\ tokens l' = tokens l
  /\ (position l <= position l')%nat
  /\ line l <= line l'
  /\ (1 <= column l -> 1 <= column l').

(** The bytes of [s] at the indices [start .. stop - 1] all satisfy [P]. *)
Definition chars_between (P : ascii -> bool) (s : string) (start stop : nat)
  : Prop :=
  forall k, (start <= k < stop)%nat ->
    exists c, String.get k s = Some c /\ P c = true.

Definition all_chars (P : ascii -> bool) (s : string) : bool :=
  forallb P (list_ascii_of_string s).

(** The scanner's counters are 1-based. *)
Definition one_based (l : Lexer) : Prop := 1 <= line l /\ 1 <= column l.

(** [t] is a token that [nextToken] returns, with no error, somewhere in
    [source]: at a position before the end, the counters being 1-based. *)
Definition produced (source : string) (t : Token) : Prop :=
  exists l, input l = source /\ at_end l = false /\ one_based l
    /\ t = fst (nextToken l) /\ Type_ t <> TokenError.

(** The end-of-input token that [Tokenize] appends. *)
Definition eof_at (l : Lexer) : Token :=
  mkToken TokenEOF EmptyString (line l) (column l) PNil.

(** The token types of words: the keywords and the identifier. *)
Definition word_types : list TokenType :=
  [TokenNumberKeyword; TokenTextKeyword; TokenBooleanKeyword; TokenFunction;
   TokenIf; TokenThen; TokenElse; TokenEnd; TokenLoop; TokenFrom; TokenTo;
   TokenPrint; TokenIdentifier].

(** The one- and two-character tokens with their spelling. *)
Definition punctuation : list (TokenType * string) :=
  [(TokenPlus, "+"); (TokenMinus, "-"); (TokenMultiply, "*");
   (TokenDivide, "/"); (TokenAssign, "="); (TokenEqual, "==");
   (TokenNotEqual, "!="); (TokenLessThan, "<"); (TokenLessEqual, "<=");
   (TokenGreaterThan, ">"); (TokenGreaterEqual, ">="); (TokenNot, "!");
   (TokenLeftParen, "("); (TokenRightParen, ")"); (TokenLeftBrace, "{");
   (TokenRightBrace, "}"); (TokenComma, ","); (TokenSemicolon, ";");
   (TokenColon, ":")].

(** The tokens of the language: a number, a text, a word or a punctuation
    mark, each with the lexeme and the payload it carries. *)
Definition well_formed (t : Token) : Prop :=
  (Type_ t = TokenNumber /\ Literal t = PString (Value t)
   /\ exists c rest, Value t = String c rest
        /\ unicode.IsDigit c = true /\ all_chars in_number rest = true)
  \/ (Type_ t = TokenText /\ Literal t = PString (Value t)
      /\ all_chars in_text (Value t) = true)
  \/ (Type_ t = getKeywordType (Value t) /\ Literal t = PString (Value t)
      /\ exists c rest, Value t = String c rest
           /\ unicode.IsLetter c = true /\ all_chars in_word rest = true)
  \/ ((Type_ t, Value t) ∈ punctuation /\ Literal t = PNil).

(** The lines of the tokens never go back. *)
Definition lines_in_order (ts : list Token) : Prop :=
  forall i j a b, (i <= j)%nat -> ts !! i = Some a -> ts !! j = Some b ->
    Line a <= Line b.

(** The number of line feeds in a string. *)
Fixpoint count_linefeeds (s : string) : Z :=
  match s with
  | EmptyString => 0
  | String c s' => (if char_is c linefeed then 1 else 0) + count_linefeeds s'
  end.

End scanning.

(** ** Vocabulary of calls and expressions *)

Module evaluation.

Import lexer types ast interpreter.

(** The frame of a call: the parameters bound to the arguments, from left to
    right, above the environment the call is made from. *)
Fixpoint bound_frame (parameters : list Parameter_) (args : list Value)
    (funcEnv : Environment) : Environment :=
  match parameters, args with
  | param :: parameters', arg :: args' =>
      bound_frame parameters' args' (SetVariable funcEnv (param_Name param) arg)
  | _, _ => funcEnv
  end.

(** Every argument is of the type of its parameter. *)
Fixpoint arguments_fit (parameters : list Parameter_) (args : list Value)
  : bool :=
  match parameters, args with
  | param :: parameters', arg :: args' =>
      IsCompatibleWith (param_Type param) (Value_Type arg)
      && arguments_fit parameters' args'
  | _, _ => true
  end.

(** An expression in which no function is called. *)
Fixpoint call_free (e : Expression) : bool :=
  match e with
  | Literal _ _ | Identifier _ => true
  | BinaryExpression l _ r => call_free l && call_free r
  | UnaryExpression _ e => call_free e
  | FunctionCall _ _ => false
  end.

Definition is_nan (x : spec_float) : bool :=
  match x with S754_nan => true | _ => false end.

End evaluation.

(** ** Vocabulary of the trees that come from a source text *)

Module syntax.

Import lexer types ast parser.
Import scanning.

(** A token as [Tokenize] returns it: the end of the input or a token of the
    language. *)
Definition scanned_token (t : Token) : Prop :=
  lexer.Type_ t = TokenEOF \/ well_formed t.

(** A parser that reads the token list [ts], a list of scanned tokens. *)
Definition scanned (ts : list Token) (p : Parser) : Prop :=
  parser.tokens p = ts /\ Forall scanned_token ts.

(** A token that [current] returns on such a parser: the synthesized
    end-of-input token or a token of [ts]. *)
Definition token_of (ts : list Token) (t : Token) : Prop :=
  scanned_token t /\ (lexer.Type_ t <> TokenEOF -> t ∈ ts).

(** [s] is the lexeme of a token of the type [ty] in [ts]. *)
Definition lexeme_of (ts : list Token) (ty : TokenType) (s : string) : bool :=
  existsb
    (fun t => bool_decide (lexer.Type_ t = ty /\ lexer.Value t = s)) ts.

(** The spellings of the operators that the scanner knows. *)
Definition binary_operators : list string :=
  ["+"; "-"; "*"; "/"; "=="; "!="; "<"; "<="; ">"; ">="].

Definition unary_operators : list string := ["-"; "!"].

(** The token types at which the loops of the six levels of binary
    operators go on. *)
Definition binary_types : list TokenType :=
  [TokenMultiply; TokenDivide; TokenPlus; TokenMinus; TokenLessThan;
   TokenLessEqual; TokenGreaterThan; TokenGreaterEqual; TokenEqual;
   TokenNotEqual; TokenAnd; TokenOr].

(** The expressions that come from a source text. *)
Fixpoint expression_from_source (e : Expression) : bool :=
  match e with
  | Literal (PString _) NumberType => true
  | Literal (PString _) TextType => true
  | Literal _ _ => false
  | Identifier _ => true
  | BinaryExpression l op r =>
      bool_decide (op ∈ binary_operators)
      && expression_from_source l && expression_from_source r
  | UnaryExpression op e =>
      bool_decide (op ∈ unary_operators) && expression_from_source e
  | FunctionCall _ args => forallb expression_from_source args
  end.

(** The expressions that come from the token list [ts]: moreover, a
    literal holds the lexeme of a number or text token of [ts], and an
    identifier or the name of a called function is the lexeme of an
    identifier token of [ts]. *)
Fixpoint expression_of_tokens (ts : list Token) (e : Expression) : bool :=
  match e with
  | Literal (PString s) NumberType => lexeme_of ts TokenNumber s
  | Literal (PString s) TextType => lexeme_of ts TokenText s
  | Literal _ _ => false
  | Identifier name => lexeme_of ts TokenIdentifier name
  | BinaryExpression l op r =>
      bool_decide (op ∈ binary_operators)
      && expression_of_tokens ts l && expression_of_tokens ts r
  | UnaryExpression op e =>
      bool_decide (op ∈ unary_operators) && expression_of_tokens ts e
  | FunctionCall name args =>
      lexeme_of ts TokenIdentifier name
      && forallb (expression_of_tokens ts) args
  end.

Definition declarable (t : types.Type_) : bool :=
  negb (bool_decide (t = VoidType)).

(** The statements that come from a source text. *)
Fixpoint statement_from_source (s : Statement) : bool :=
  match s with
  | VariableDeclaration t _ v => declarable t && expression_from_source v
  | Assignment _ v => expression_from_source v
  | IfStatement c a b =>
      expression_from_source c && forallb statement_from_source a
      && forallb statement_from_source b
  | LoopStatement _ f t b =>
      expression_from_source f && expression_from_source t
      && forallb statement_from_source b
  | FunctionDeclaration _ ps r b =>
      bool_decide (r = VoidType)
      && forallb (fun p => declarable (param_Type p)) ps
      && forallb statement_from_source b
  | PrintStatement v => expression_from_source v
  end.

(** The statements that come from the token list [ts]. *)
Fixpoint statement_of_tokens (ts : list Token) (s : Statement) : bool :=
  match s with
  | VariableDeclaration t _ v => declarable t && expression_of_tokens ts v
  | Assignment _ v => expression_of_tokens ts v
  | IfStatement c a b =>
      expression_of_tokens ts c && forallb (statement_of_tokens ts) a
      && forallb (statement_of_tokens ts) b
  | LoopStatement _ f t b =>
      expression_of_tokens ts f && expression_of_tokens ts t
      && forallb (statement_of_tokens ts) b
  | FunctionDeclaration _ ps r b =>
      bool_decide (r = VoidType)
      && forallb (fun p => declarable (param_Type p)) ps
      && forallb (statement_of_tokens ts) b
  | PrintStatement v => expression_of_tokens ts v
  end.

(** On the scanned tokens [ts], a result of [m] satisfies [Q]. *)
Definition yields_at {A} (ts : list Token) (m : M Parser A) (p : Parser)
    (Q : A -> Prop) : Prop :=
  forall a p', scanned ts p -> m p = (Ok a, p') -> scanned ts p' /\ Q a.

Definition yields {A} (ts : list Token) (m : M Parser A) (Q : A -> Prop)
  : Prop :=
  forall p, yields_at ts m p Q.

End syntax.

(** ** Vocabulary of the evaluator's diagnostics *)

Module soundness.

Import lexer types ast interpreter.
Import syntax.

(** The diagnostics of the evaluator that stand for a tree the parser does
    not build. *)
Definition unreachable_message (msg : string) : bool :=
  String.prefix "unknown binary operator: " msg
  || String.prefix "unknown unary operator: " msg
  || String.prefix "unknown literal type: " msg
  || String.prefix "invalid number literal" msg
  || String.prefix "invalid text literal" msg
  || String.prefix "invalid boolean literal" msg
  || String.prefix "cannot perform logical " msg.

(** Every function bound in a frame of the chain has a body that comes from
    a source text. *)
Fixpoint environment_from_source (e : Environment) : Prop :=
  match e with
  | mkEnvironment _ functions parent =>
      map_Forall
        (fun _ f => forallb statement_from_source (fn_Body f) = true)
        functions
      /\ match parent with
         | Some e' => environment_from_source e'
         | None => True
         end
  end.

(** Started on functions from a source text, [m] leaves such functions and
    ends with none of the diagnostics above. *)
Definition sound_at {A} (m : M Interpreter A) (i : Interpreter) : Prop :=
  environment_from_source (environment i) ->
  environment_from_source (environment (snd (m i)))
  /\ forall msg, fst (m i) = Err msg -> unreachable_message msg = false.

Definition sound {A} (m : M Interpreter A) : Prop := forall i, sound_at m i.

End soundness.

(** ** Vocabulary of the lexemes *)

Module lexemes.

Import lexer.

(** The lexemes of a token list, one after the other. *)
Fixpoint lexemes_of (ts : list Token) : string :=
  match ts with
  | [] => EmptyString
  | t :: ts' => Value t ++ lexemes_of ts'
  end.

(** A byte that is neither whitespace nor a double quote. *)
Definition solid (c : ascii) : bool :=
  negb (unicode.IsSpace c) && negb (char_is c quote).

End lexemes.

(** * Properties *)

Import lexer types ast interpreter properties scenarios.

(** ** Sequencing *)

Lemma bind_assoc {S A B C} (m : M S A) (k : A -> M S B) (h : B -> M S C) s :
  bind (bind m k) h s = bind m (fun a => bind (k a) h) s.
Proof.
  unfold bind. destruct (m s) as [[a|e|e|] s']; reflexivity.
Qed.

Lemma bind_ext {S A B} (m : M S A) (k k' : A -> M S B) s :
  (forall a s', k a s' = k' a s') -> bind m k s = bind m k' s.
Proof.
  intros H. unfold bind. destruct (m s) as [[a|e|e|] s']; auto.
Qed.

Lemma bind_ext_l {S A B} (m m' : M S A) (k : A -> M S B) s :
  m s = m' s -> bind m k s = bind m' k s.
Proof. intros H. unfold bind. rewrite H. reflexivity. Qed.

Lemma bind_ret_l {S A B} (a : A) (k : A -> M S B) s : bind (ret a) k s = k a s.
Proof. reflexivity. Qed.

(** ** Integers as float64

    An integer of magnitude at most 2^53 is a float64; adding one to it is
    exact as long as the sum stays in that range, and the order of the
    floats is the order of the integers. *)

Lemma digits2_size p : digits2_pos p = Pos.size p.
Proof. induction p; simpl; congruence. Qed.

Lemma iter_pos_iter {A} (f : A -> A) n x :
  SpecFloat.iter_pos f n x = Pos.iter f x n.
Proof.
  revert x. induction n as [n IH|n IH|]; intros x; simpl.
  - rewrite !IH. rewrite <- !Pos.iter_swap. reflexivity.
  - rewrite !IH. reflexivity.
  - reflexivity.
Qed.

Lemma Zpos_iter_xO m d : Zpos (Pos.iter xO m d) = Zpos m * 2 ^ Zpos d.
Proof.
  induction d as [|d IH] using Pos.peano_ind.
  - simpl. lia.
  - rewrite Pos.iter_succ, Pos2Z.inj_succ, Z.pow_succ_r by lia.
    rewrite Pos2Z.inj_xO, IH. ring.
Qed.

Lemma Zpos_shiftl p n : Zpos (Pos.shiftl p n) = Zpos p * 2 ^ Z.of_N n.
Proof.
  destruct n as [|n]; unfold Pos.shiftl; cbn [Z.of_N].
  - lia.
  - apply Zpos_iter_xO.
Qed.

Lemma shr_exact n q :
  SpecFloat.iter_pos shr_1 n
    (Build_shr_record (Zpos (Pos.iter xO q n)) false false)
  = Build_shr_record (Zpos q) false false.
Proof.
  rewrite iter_pos_iter.
  induction n as [|n IH] using Pos.peano_ind.
  - reflexivity.
  - rewrite Pos.iter_succ. rewrite <- Pos.iter_swap.
    rewrite Pos.iter_succ. simpl. exact IH.
Qed.

Lemma digits2_shiftl q k :
  Zpos (digits2_pos (Pos.shiftl q k)) = Zpos (digits2_pos q) + Z.of_N k.
Proof.
  destruct k as [|n]; unfold Pos.shiftl; cbn [Z.of_N]; [lia|].
  induction n as [|n IH] using Pos.peano_ind.
  - cbn [Pos.iter digits2_pos]. lia.
  - rewrite Pos.iter_succ. cbn [digits2_pos]. lia.
Qed.

Lemma digits2_bounds p :
  2 ^ (Zpos (digits2_pos p) - 1) <= Zpos p < 2 ^ Zpos (digits2_pos p).
Proof.
  rewrite digits2_size. split.
  - pose proof (Pos.size_le p) as H.
    apply Pos2Z.pos_le_pos in H. rewrite Pos2Z.inj_pow in H.
    replace (Zpos (Pos.size p)) with (Z.succ (Zpos (Pos.size p) - 1)) in H
      by lia.
    rewrite Z.pow_succ_r in H by lia. lia.
  - pose proof (Pos.size_gt p) as H.
    apply Pos2Z.pos_lt_pos in H. rewrite Pos2Z.inj_pow in H. exact H.
Qed.

Lemma fexp_normal x : -1021 <= x -> fexp 53 1024 x = x - 53.
Proof. intros H. unfold fexp, emin. lia. Qed.

(** A mantissa of 53 bits followed by [k] zero bits rounds to itself. *)
Lemma binary_round_aux_exact s q k e :
  digits2_pos q = 53%positive ->
  -1074 <= e + Z.of_N k <= 971 ->
  binary_round_aux 53 1024 s (Zpos (Pos.shiftl q k)) e loc_Exact
  = S754_finite s q (e + Z.of_N k).
Proof.
  intros Hq He. unfold binary_round_aux, shr_fexp.
  cbn [Zdigits2]. rewrite digits2_shiftl, Hq.
  rewrite fexp_normal by lia.
  replace (53 + Z.of_N k + e - 53 - e) with (Z.of_N k) by lia.
  assert (Hshr : shr (shr_record_of_loc (Zpos (Pos.shiftl q k)) loc_Exact) e
                   (Z.of_N k)
                 = (Build_shr_record (Zpos q) false false, e + Z.of_N k)).
  { destruct k as [|n]; unfold Pos.shiftl; cbn [Z.of_N shr shr_record_of_loc].
    - f_equal. lia.
    - rewrite shr_exact. reflexivity. }
  rewrite Hshr. cbn [shr_m loc_of_shr_record round_nearest_even Zdigits2].
  rewrite Hq, fexp_normal by lia.
  replace (53 + (e + Z.of_N k) - 53 - (e + Z.of_N k)) with 0 by lia.
  cbn [shr shr_record_of_loc shr_m].
  replace (e + Z.of_N k <=? 1024 - 53) with true
    by (symmetry; apply Z.leb_le; lia).
  reflexivity.
Qed.

Lemma of_pos_repr w :
  Zpos w <= 2 ^ 53 ->
  exists q e, repr w q e
    /\ forall s, binary_round 53 1024 s w 0 = S754_finite s q e.
Proof.
  intros Hw.
  destruct (Z.eq_dec (Zpos w) (2 ^ 53)) as [E|NE].
  - exists (2 ^ 52)%positive, 1.
    assert (w = (2 ^ 53)%positive) as ->
      by (apply Pos2Z.inj; rewrite E; reflexivity).
    split; [|intros s; vm_compute; reflexivity].
    repeat split; try lia; reflexivity.
  - pose proof (digits2_bounds w) as [Hlo Hhi].
    set (d := Zpos (digits2_pos w)) in *.
    assert (Hd : 1 <= d <= 53).
    { split; [unfold d; lia|].
      destruct (Z_le_gt_dec d 53) as [|Hgt]; [assumption|exfalso].
      assert (2 ^ 53 <= 2 ^ (d - 1)) by (apply Z.pow_le_mono_r; lia). lia. }
    exists (Pos.shiftl w (Z.to_N (53 - d))), (d - 53).
    assert (Hdig : digits2_pos (Pos.shiftl w (Z.to_N (53 - d))) = 53%positive).
    { apply Pos2Z.inj. rewrite digits2_shiftl. fold d. lia. }
    split.
    + repeat split; try lia.
      rewrite Zpos_shiftl, Z2N.id by lia.
      rewrite <- Z.mul_assoc, <- Z.pow_add_r by lia.
      f_equal. f_equal. lia.
    + intros s. unfold binary_round. fold d.
      rewrite fexp_normal by lia.
      assert (Hal : shl_align w 0 (d + 0 - 53)
                    = (Pos.shiftl w (Z.to_N (53 - d)), d - 53)).
      { unfold shl_align.
        destruct (d + 0 - 53 - 0) as [|p|p] eqn:Ed; try lia.
        - replace (53 - d) with 0 by lia. cbn. f_equal; lia.
        - replace (53 - d) with (Zpos p) by lia. cbn. f_equal; lia. }
      rewrite Hal.
      pose proof (binary_round_aux_exact s _ 0%N (d - 53) Hdig) as Hx.
      cbn [Z.of_N Pos.shiftl] in Hx. rewrite Z.add_0_r in Hx.
      apply Hx. lia.
Qed.

Lemma repr_mantissa w q e : repr w q e -> 2 ^ 52 <= Zpos q < 2 ^ 53.
Proof.
  intros (Hq & _ & _). pose proof (digits2_bounds q) as H.
  rewrite Hq in H. exact H.
Qed.

Lemma round_scaled s w q e :
  repr w q e ->
  binary_round 53 1024 s (Pos.shiftl w 52) (-52) = S754_finite s q e.
Proof.
  intros (Hq & He & Hv).
  assert (HP : Pos.shiftl w 52 = Pos.shiftl q (Z.to_N (e + 52))).
  { apply Pos2Z.inj. rewrite !Zpos_shiftl, Z2N.id by lia. exact Hv. }
  rewrite HP. unfold binary_round.
  rewrite digits2_shiftl, Hq, Z2N.id by lia.
  rewrite fexp_normal by lia.
  assert (Hal : shl_align (Pos.shiftl q (Z.to_N (e + 52))) (-52)
                  (53 + (e + 52) + -52 - 53)
                = (Pos.shiftl q (Z.to_N (e + 52)), -52)).
  { unfold shl_align.
    destruct (53 + (e + 52) + -52 - 53 - -52) as [|p|p] eqn:Ed; try lia;
      reflexivity. }
  rewrite Hal, binary_round_aux_exact by (rewrite ?Z2N.id; (assumption || lia)).
  rewrite Z2N.id by lia. f_equal. lia.
Qed.

Lemma align_value w q e :
  repr w q e -> Zpos (fst (shl_align q e (-52))) = Zpos w * 2 ^ 52.
Proof.
  intros (Hq & He & Hv). unfold shl_align.
  destruct (-52 - e) as [|p|p] eqn:Ed; cbn [fst]; try lia.
  - rewrite Hv. replace (e + 52) with 0 by lia. lia.
  - rewrite Zpos_iter_xO, Hv. f_equal. f_equal. lia.
Qed.

Lemma of_Z_pos w q e :
  (forall s, binary_round 53 1024 s w 0 = S754_finite s q e) ->
  float64.of_Z (Zpos w) = S754_finite false q e
  /\ float64.of_Z (Zneg w) = S754_finite true q e.
Proof. intros H. split; apply H. Qed.

Lemma one_finite : interpreter.one = S754_finite false (2 ^ 52) (-52).
Proof. vm_compute. reflexivity. Qed.

Lemma add_finite_one s q e w :
  repr w q e ->
  float64.add (S754_finite s q e) interpreter.one
  = binary_normalize 53 1024
      (cond_Zopp s (Zpos w * 2 ^ 52) + 2 ^ 52) (-52) false.
Proof.
  intros R. rewrite one_finite.
  unfold float64.add, float64.prec, float64.emax, SFadd.
  pose proof R as (Hq & He & Hv).
  rewrite Z.min_r by lia.
  rewrite (align_value w q e R).
  reflexivity.
Qed.

Lemma add_one z :
  - 2 ^ 53 <= z < 2 ^ 53 ->
  float64.add (float64.of_Z z) interpreter.one = float64.of_Z (z + 1).
Proof.
  intros Hz. destruct z as [|w|w].
  - vm_compute. reflexivity.
  - destruct (of_pos_repr w) as (q & e & R & Hr); [lia|].
    destruct (of_pos_repr (w + 1)) as (q' & e' & R' & Hr'); [lia|].
    rewrite (proj1 (of_Z_pos w q e Hr)), (add_finite_one _ _ _ _ R).
    cbn [cond_Zopp].
    replace (Zpos w * 2 ^ 52 + 2 ^ 52) with (Zpos (Pos.shiftl (w + 1) 52))
      by (rewrite Zpos_shiftl; cbn [Z.of_N]; lia).
    cbn [binary_normalize]. rewrite (round_scaled _ _ _ _ R').
    replace (Zpos w + 1) with (Zpos (w + 1)) by lia.
    symmetry. apply (of_Z_pos _ _ _ Hr').
  - destruct (of_pos_repr w) as (q & e & R & Hr); [lia|].
    rewrite (proj2 (of_Z_pos w q e Hr)), (add_finite_one _ _ _ _ R).
    cbn [cond_Zopp].
    destruct (Pos.eq_dec w 1%positive) as [->|Hw1].
    + vm_compute. reflexivity.
    + destruct (of_pos_repr (w - 1)) as (q' & e' & R' & Hr'); [lia|].
      replace (- (Zpos w * 2 ^ 52) + 2 ^ 52)
        with (Zneg (Pos.shiftl (w - 1) 52)).
      2:{ rewrite <- Pos2Z.opp_pos, Zpos_shiftl. cbn [Z.of_N]. nia. }
      cbn [binary_normalize]. rewrite (round_scaled _ _ _ _ R').
      replace (Zneg w + 1) with (Zneg (w - 1)) by lia.
      symmetry. apply (of_Z_pos _ _ _ Hr').
Qed.

Lemma compare_repr a qa ea b qb eb :
  repr a qa ea -> repr b qb eb ->
  match ea ?= eb with
  | Lt => Lt
  | Gt => Gt
  | Eq => Pos.compare_cont Eq qa qb
  end = (Zpos a ?= Zpos b).
Proof.
  intros Ra Rb.
  pose proof (repr_mantissa _ _ _ Ra) as Ma.
  pose proof (repr_mantissa _ _ _ Rb) as Mb.
  destruct Ra as (_ & Hea & Hva), Rb as (_ & Heb & Hvb).
  assert (Hstep : forall x y, -52 <= x < y -> 2 * 2 ^ (x + 52) <= 2 ^ (y + 52)).
  { intros x y H. rewrite <- Z.pow_succ_r by lia.
    apply Z.pow_le_mono_r; lia. }
  assert (Hpos : forall x, -52 <= x -> 0 < 2 ^ (x + 52)).
  { intros x H. apply Z.pow_pos_nonneg; lia. }
  symmetry. destruct (Z.compare_spec ea eb) as [E|L|G].
  - subst eb. change (Pos.compare_cont Eq qa qb) with (Zpos qa ?= Zpos qb).
    pose proof (Hpos ea ltac:(lia)).
    destruct (Z.compare_spec (Zpos qa) (Zpos qb));
      [apply Z.compare_eq_iff | apply Z.compare_lt_iff | apply Z.compare_gt_iff];
      nia.
  - apply Z.compare_lt_iff.
    pose proof (Hstep ea eb ltac:(lia)). pose proof (Hpos ea ltac:(lia)).
    pose proof (Hpos eb ltac:(lia)). nia.
  - apply Z.compare_gt_iff.
    pose proof (Hstep eb ea ltac:(lia)). pose proof (Hpos ea ltac:(lia)).
    pose proof (Hpos eb ltac:(lia)). nia.
Qed.

Lemma compare_of_Z a b :
  - 2 ^ 53 <= a <= 2 ^ 53 -> - 2 ^ 53 <= b <= 2 ^ 53 ->
  SFcompare (float64.of_Z a) (float64.of_Z b) = Some (a ?= b).
Proof.
  intros Ha Hb.
  destruct a as [|wa|wa], b as [|wb|wb];
    try (destruct (of_pos_repr wa) as (qa & ea & Ra & Hra); [lia|];
         destruct (of_Z_pos _ _ _ Hra) as [Pa Na]; rewrite ?Pa, ?Na);
    try (destruct (of_pos_repr wb) as (qb & eb & Rb & Hrb); [lia|];
         destruct (of_Z_pos _ _ _ Hrb) as [Pb Nb]; rewrite ?Pb, ?Nb);
    try reflexivity; cbn [SFcompare float64.of_Z].
  - rewrite (compare_repr _ _ _ _ _ _ Ra Rb). reflexivity.
  - pose proof (compare_repr _ _ _ _ _ _ Ra Rb) as H.
    change (Zneg wa ?= Zneg wb) with (CompOpp (Zpos wa ?= Zpos wb)).
    rewrite <- H. destruct (ea ?= eb); reflexivity.
Qed.

Lemma leb_of_Z a b :
  - 2 ^ 53 <= a <= 2 ^ 53 -> - 2 ^ 53 <= b <= 2 ^ 53 ->
  float64.leb (float64.of_Z a) (float64.of_Z b) = (a <=? b).
Proof.
  intros Ha Hb. unfold float64.leb, SFleb.
  rewrite (compare_of_Z a b Ha Hb). unfold Z.leb.
  destruct (a ?= b); reflexivity.
Qed.
(** ** The scanner *)

(** *** The scanner answers

    Every token that is not an error token takes at least one byte, so the
    main loop turns at most once per byte. *)

Lemma further_refl l : further 0 l l.
Proof. split; [reflexivity | lia]. Qed.

Lemma further_trans j k l1 l2 l3 :
  further j l1 l2 -> further k l2 l3 -> further (j + k) l1 l3.
Proof. intros [I1 P1] [I2 P2]. split; [congruence | lia]. Qed.

Lemma further_advance l : further 1 l (lexer.advance l).
Proof. split; [reflexivity | cbn; lia]. Qed.

Lemma further_weaken j k l l' : further j l l' -> (k <= j)%nat -> further k l l'.
Proof. intros [I P] H. split; [assumption | lia]. Qed.

Lemma skipWhitespace_loop_further n : forall l,
  further 0 l (skipWhitespace_loop n l).
Proof.
  induction n as [|n IH]; intros l; cbn [skipWhitespace_loop];
    [apply further_refl|].
  destruct (negb (at_end l) && unicode.IsSpace (currentChar l));
    [|apply further_refl].
  match goal with |- further 0 l (skipWhitespace_loop n ?x) =>
    apply (further_weaken (0 + 0)); [|lia];
    apply (further_trans 0 0 l x); [|apply IH]
  end.
  destruct (char_is (currentChar l) linefeed); split; cbn; (reflexivity || lia).
Qed.

Lemma readNumber_loop_further n : forall l,
  further 0 l (readNumber_loop n l).
Proof.
  induction n as [|n IH]; intros l; cbn [readNumber_loop];
    [apply further_refl|].
  destruct (negb (at_end l) && _); [|apply further_refl].
  apply (further_weaken (1 + 0)); [|lia].
  exact (further_trans _ _ _ _ _ (further_advance l) (IH _)).
Qed.

Lemma readIdentifierOrKeyword_loop_further n : forall l,
  further 0 l (readIdentifierOrKeyword_loop n l).
Proof.
  induction n as [|n IH]; intros l; cbn [readIdentifierOrKeyword_loop];
    [apply further_refl|].
  destruct (negb (at_end l) && _); [|apply further_refl].
  apply (further_weaken (1 + 0)); [|lia].
  exact (further_trans _ _ _ _ _ (further_advance l) (IH _)).
Qed.

Lemma readText_loop_further n : forall l,
  further 0 l (readText_loop n l).
Proof.
  induction n as [|n IH]; intros l; cbn [readText_loop];
    [apply further_refl|].
  destruct (negb (at_end l) && _); [|apply further_refl].
  match goal with |- further 0 l (readText_loop n ?x) =>
    apply (further_weaken (0 + 0)); [|lia];
    apply (further_trans 0 0 l x); [|apply IH]
  end.
  destruct (char_is (currentChar l) linefeed); split; cbn; (reflexivity || lia).
Qed.

Lemma remaining_positive l : at_end l = false -> (0 < remaining l)%nat.
Proof.
  unfold at_end, remaining. intros H. apply Nat.leb_gt in H. lia.
Qed.

(** A token that is not an error token took at least one byte. *)
Lemma nextToken_further l :
  at_end l = false ->
  lexer.Type_ (fst (nextToken l)) <> TokenError ->
  further 1 l (snd (nextToken l)).
Proof.
  intros He. pose proof (remaining_positive l He) as Hr.
  unfold nextToken. cbv zeta.
  destruct (unicode.IsDigit (currentChar l)) eqn:Ed.
  { intros _. unfold readNumber. cbn [snd].
    destruct (remaining l) as [|n]; [lia|]. cbn [readNumber_loop].
    rewrite He, Ed. cbn [negb andb orb].
    apply (further_weaken (1 + 0)); [|lia].
    exact (further_trans _ _ _ _ _ (further_advance l)
             (readNumber_loop_further n _)). }
  destruct (char_is (currentChar l) quote).
  { unfold readText.
    pose proof (further_trans _ _ _ _ _ (further_advance l)
                  (readText_loop_further (remaining (lexer.advance l))
                     (lexer.advance l))) as H.
    destruct (at_end (readText_loop _ _)); cbn [fst snd lexer.Type_].
    - intros C. contradiction.
    - intros _. apply (further_weaken (1 + 0 + 1)); [|lia].
      exact (further_trans _ _ _ _ _ H (further_advance _)). }
  destruct (unicode.IsLetter (currentChar l)) eqn:El.
  { intros _. unfold readIdentifierOrKeyword.
    assert (H : further 1 l (readIdentifierOrKeyword_loop (remaining l) l)).
    { destruct (remaining l) as [|n]; [lia|].
      cbn [readIdentifierOrKeyword_loop]. rewrite He, El. cbn [negb andb orb].
      apply (further_weaken (1 + 0)); [|lia].
      exact (further_trans _ _ _ _ _ (further_advance l)
               (readIdentifierOrKeyword_loop_further n _)). }
    destruct (bool_decide _ && _); exact H. }
  unfold single, with_equal.
  repeat match goal with
         | |- context [if char_is (currentChar l) ?c then _ else _] =>
             destruct (char_is (currentChar l) c)
         end;
    try (intros _; cbn [snd]; apply further_advance);
    try (cbn [fst lexer.Type_]; intros C; contradiction);
    destruct (char_is (currentChar (lexer.advance l)) "="%char);
    intros _; cbn [snd];
    try apply further_advance;
    apply (further_weaken (1 + 1)); try lia;
    exact (further_trans _ _ _ _ _ (further_advance l) (further_advance _)).
Qed.

Lemma remaining_further k l l' :
  further k l l' -> (remaining l' + k <= remaining l \/ remaining l' = 0)%nat.
Proof. intros [I P]. unfold remaining, len. rewrite I. lia. Qed.

Lemma at_end_push t l : at_end (push t l) = at_end l.
Proof. reflexivity. Qed.

Lemma Tokenize_loop_returns fuel : forall l,
  (remaining l < fuel)%nat -> returned (Tokenize_loop fuel l).
Proof.
  induction fuel as [|fuel IH]; intros l Hr; [lia|].
  cbn [Tokenize_loop]. destruct (at_end l) eqn:He; [exact I|].
  pose proof (skipWhitespace_loop_further (remaining l) l) as Hs.
  fold (skipWhitespace l) in Hs.
  destruct (at_end (skipWhitespace l)) eqn:He'; [exact I|].
  pose proof (nextToken_further (skipWhitespace l) He') as Hn.
  destruct (nextToken (skipWhitespace l)) as [token l'].
  cbn [fst snd] in Hn.
  destruct (bool_decide (lexer.Type_ token = TokenError)) eqn:Et; [exact I|].
  apply bool_decide_eq_false in Et. specialize (Hn Et).
  apply IH. pose proof (remaining_positive l He).
  destruct (remaining_further _ _ _ Hs), (remaining_further _ _ _ Hn);
    unfold remaining, len in *; cbn [push input position] in *; lia.
Qed.

(** The scanner answers on every source. *)
Lemma Tokenize_returns source : returned (Tokenize source).
Proof.
  unfold Tokenize, Tokenize_from.
  pose proof (Tokenize_loop_returns (S (String.length source))
                (NewLexer source)) as H.
  destruct (Tokenize_loop _ _); try exact I;
    apply H; unfold remaining, len, NewLexer; cbn; lia.
Qed.

(** C5 (line and column of a token).  The scanner counts a column twice for
    every whitespace character: the identifier after two spaces is reported
    at column 5, and the first token of the second line at column 2. *)
Theorem C5_whitespace_counts_two_columns :
  Tokenize scenarios.indented
  = Ok [mkToken TokenIdentifier "x" 1 5 (PString "x");
        mkToken TokenEOF EmptyString 1 6 PNil]
  /\ Tokenize scenarios.second_line
     = Ok [mkToken TokenIdentifier "a" 1 1 (PString "a");
           mkToken TokenIdentifier "b" 2 2 (PString "b");
           mkToken TokenEOF EmptyString 2 3 PNil].
Proof. split; vm_compute; reflexivity. Qed.

(** C3, as stated, fails: the characters [;], [:], [{] and [}] are scanned
    into delimiter tokens. *)
Lemma C3_delimiters_are_tokens :
  Tokenize ";:{}"
  = Ok [mkToken TokenSemicolon ";" 1 1 PNil;
        mkToken TokenColon ":" 1 2 PNil;
        mkToken TokenLeftBrace "{" 1 3 PNil;
        mkToken TokenRightBrace "}" 1 4 PNil;
        mkToken TokenEOF EmptyString 1 5 PNil].
Proof. vm_compute. reflexivity. Qed.

Lemma nextToken_unexpected (l : Lexer) :
  starts_token (currentChar l) = false ->
  nextToken l
  = (mkToken TokenError
       ("unexpected character: " ++ unicode.encode_rune (currentChar l))
       (line l) (column l) PNil, l).
Proof.
  unfold starts_token, nextToken. intros H. cbv zeta.
  repeat (apply orb_false_elim in H; destruct H as [H ?]).
  rewrite H.
  repeat match goal with
         | E : _ = false |- _ => rewrite E; clear E
         end.
  assert (Hn : forall d, d ∈ list_ascii_of_string "+-*/=<>!(){},;:" ->
                         char_is (currentChar l) d = false).
  { intros d Hd. unfold char_is. apply Ascii.eqb_neq. intros Heq.
    rewrite <- Heq in Hd.
    match goal with E : bool_decide _ = false |- _ =>
      apply bool_decide_eq_false in E; contradiction end. }
  rewrite !Hn by (cbn; set_solver).
  reflexivity.
Qed.

(** C3 (amended).  Whenever a turn of the scanner's loop, after skipping
    whitespace, stands before a character that is not a digit, a double
    quote, a letter or one of [+ - * / = < > ! ( ) { } , ; :], the scan
    halts with the diagnostic "unexpected character" carrying the scanner's
    line and column counters at that character, and no token is emitted for
    it. *)
Theorem C3_unexpected_character (fuel : nat) (l : Lexer) :
  at_end l = false ->
  at_end (skipWhitespace l) = false ->
  starts_token (currentChar (skipWhitespace l)) = false ->
  Tokenize_from (S fuel) l
  = Err ("lexical error at line " ++ strconv.Itoa (line (skipWhitespace l))
         ++ ", column " ++ strconv.Itoa (column (skipWhitespace l))
         ++ ": unexpected character: "
         ++ unicode.encode_rune (currentChar (skipWhitespace l))).
Proof.
  intros H0 H1 H2. unfold Tokenize_from. cbn [Tokenize_loop].
  rewrite H0, H1, (nextToken_unexpected _ H2). reflexivity.
Qed.

Lemma C3_unexpected_character_witness :
  Tokenize_from 1 (NewLexer " #")
  = Err "lexical error at line 1, column 3: unexpected character: #".
Proof.
  exact (C3_unexpected_character 0 (NewLexer " #")
           eq_refl eq_refl eq_refl).
Defined.

(** ** The parser *)

Import parser.

Lemma current_reads p : current p = (Ok (current_token p), p).
Proof.
  unfold current, index, current_token.
  destruct (Nat.leb_spec (length (tokens p)) (pos p)) as [H|H].
  - rewrite nth_overflow by exact H. reflexivity.
  - rewrite (nth_error_nth' _ eof_token H). reflexivity.
Qed.

Lemma peek_reads p : peek p = (Ok (next_token p), p).
Proof.
  unfold peek, index, next_token.
  destruct (Nat.leb_spec (length (tokens p)) (pos p + 1)) as [H|H].
  - rewrite nth_overflow by exact H. reflexivity.
  - rewrite (nth_error_nth' _ eof_token H). reflexivity.
Qed.

Lemma current_at_end p : rest p = 0%nat -> current_token p = eof_token.
Proof.
  unfold rest, current_token. intros H. apply nth_overflow. lia.
Qed.

Lemma rest_positive p :
  lexer.Type_ (current_token p) <> TokenEOF -> (0 < rest p)%nat.
Proof.
  intros H. destruct (rest p) eqn:E; [|lia].
  rewrite (current_at_end p E) in H. contradiction.
Qed.

Lemma cur_is_rest ty p :
  cur_is ty p = true -> ty <> TokenEOF -> (0 < rest p)%nat.
Proof.
  unfold cur_is. intros H Hty. apply bool_decide_eq_true in H.
  apply rest_positive. congruence.
Qed.

Lemma after_refl p : after 0 p p.
Proof. split; [reflexivity | lia]. Qed.

Lemma after_trans k1 k2 p1 p2 p3 :
  after k1 p1 p2 -> after k2 p2 p3 -> after (k1 + k2) p1 p3.
Proof. intros [T1 R1] [T2 R2]. split; [congruence | lia]. Qed.

Lemma after_weaken k k' p p' : after k p p' -> (k' <= k)%nat -> after k' p p'.
Proof. intros [T R] H. split; [assumption | lia]. Qed.

Lemma after_advance p :
  (0 < rest p)%nat -> after 1 p (mkParser (tokens p) (S (pos p))).
Proof. unfold after, rest. cbn. intros H. split; [reflexivity | lia]. Qed.

Lemma post_ret {A} (a : A) p Q : Q a p -> post (ret a) p Q.
Proof. exact (fun H => H). Qed.

Lemma post_fail {A} msg p (Q : A -> Parser -> Prop) : post (fail msg) p Q.
Proof. exact I. Qed.

Lemma post_bind {A B} (m : M Parser A) (k : A -> M Parser B) p Q :
  post m p (fun a p' => post (k a) p' Q) -> post (bind m k) p Q.
Proof.
  unfold post, bind. destruct (m p) as [[a|e|e|] p']; auto.
Qed.

Lemma post_call {A B} (m : M Parser A) (k : A -> M Parser B) p R Q :
  post m p R -> (forall a p', R a p' -> post (k a) p' Q) ->
  post (bind m k) p Q.
Proof.
  intros Hm Hk. apply post_bind. unfold post in *.
  destruct (m p) as [[a|e|e|] p']; auto. apply Hk, Hm.
Qed.

Lemma post_weaken {A} (m : M Parser A) p (R Q : A -> Parser -> Prop) :
  post m p R -> (forall a p', R a p' -> Q a p') -> post m p Q.
Proof.
  unfold post. destruct (m p) as [[a|e|e|] p']; auto.
Qed.

Lemma post_advance p Q :
  Q tt (mkParser (tokens p) (S (pos p))) -> post advance p Q.
Proof. exact (fun H => H). Qed.

Lemma post_cur p Q : Q (current_token p) p -> post current p Q.
Proof. unfold post. rewrite current_reads. exact (fun H => H). Qed.

Lemma post_peek p Q : Q (next_token p) p -> post peek p Q.
Proof. unfold post. rewrite peek_reads. exact (fun H => H). Qed.

Lemma post_expect ty msg p Q :
  (cur_is ty p = true -> Q tt p) -> post (expect ty msg) p Q.
Proof.
  unfold expect. intros H. apply post_bind, post_cur.
  fold (cur_is ty p). destruct (cur_is ty p); [apply H; reflexivity | exact I].
Qed.

Lemma post_lift_type r p Q :
  (forall ty, Q ty p) -> post (lift_type r) p Q.
Proof. destruct r; intros H; [apply H | exact I]. Qed.

(** [advance] after a test that the current_token token is not the end. *)
Lemma post_consume {B} (k : unit -> M Parser B) p0 n p Q :
  after n p0 p -> (0 < rest p)%nat ->
  (forall p', after (S n) p0 p' -> post (k tt) p' Q) ->
  post (bind advance k) p Q.
Proof.
  intros Ha Hr Hk. apply post_bind, post_advance. apply Hk.
  replace (S n) with (n + 1)%nat by lia.
  exact (after_trans _ _ _ _ _ Ha (after_advance p Hr)).
Qed.

(** A test of the current token. *)
Lemma post_ite {A} (c : Token -> bool) (m1 m2 : Token -> M Parser A) p Q :
  (c (current_token p) = true -> post (m1 (current_token p)) p Q) ->
  (c (current_token p) = false -> post (m2 (current_token p)) p Q) ->
  post (let* token := current in if c token then m1 token else m2 token) p Q.
Proof.
  intros H1 H2. apply post_bind, post_cur.
  destruct (c (current_token p)); [apply H1 | apply H2]; reflexivity.
Qed.

Lemma post_then {A B} (m : M Parser A) (k : A -> M Parser B) p0 n j p Q :
  after n p0 p ->
  post m p (fun _ p' => after j p p') ->
  (forall a p', after (n + j) p0 p' -> post (k a) p' Q) ->
  post (bind m k) p Q.
Proof.
  intros Ha Hm Hk. apply (post_call _ _ _ _ _ Hm).
  intros a p' H. apply Hk. exact (after_trans _ _ _ _ _ Ha H).
Qed.

Lemma post_last {A} (m : M Parser A) p0 n j k p :
  after n p0 p ->
  post m p (fun _ p' => after j p p') ->
  (k <= n + j)%nat ->
  post m p (fun _ p' => after k p0 p').
Proof.
  intros Ha Hm Hk. apply (post_weaken _ _ _ _ Hm). intros _ p' H.
  exact (after_weaken _ _ _ _ (after_trans _ _ _ _ _ Ha H) Hk).
Qed.

Lemma post_comma {msg} (b : bool) p :
  post (if b then expect TokenComma msg;; advance else ret tt) p
    (fun _ p' => after 0 p p').
Proof.
  destruct b; [|apply post_ret, after_refl].
  apply post_bind, post_expect. intros Hc.
  apply post_advance.
  apply (after_weaken 1); [|lia].
  apply after_advance, (cur_is_rest _ _ Hc). discriminate.
Qed.

Ltac not_in_ops :=
  rewrite ?elem_of_cons, elem_of_nil; intuition discriminate.

Section ExpressionProgress.

Variable rec : M Parser Expression.
Variable N : nat.
Hypothesis Hrec :
  forall p, (rest p < N)%nat -> post rec p (fun _ p' => after 1 p p').

Lemma parseFunctionCall_loop_progress f : forall args p,
  (rest p < f)%nat -> (rest p < N)%nat ->
  post (parseFunctionCall_loop rec f args) p (fun _ p' => after 0 p p').
Proof.
  induction f as [|f IH]; intros args p Hf HN; [lia|].
  cbn [parseFunctionCall_loop]. apply post_ite; intros Hc.
  - apply post_ret, after_refl.
  - apply (post_then _ _ p 0 0 p _ (after_refl p) (post_comma _ p)).
    intros _ p1 H1.
    assert (Hr1 : (rest p1 < N)%nat) by (destruct H1; lia).
    apply (post_then _ _ p 0 1 p1 _ H1 (Hrec p1 Hr1)).
    intros arg p2 H2.
    apply (post_last _ p 1 0 0 p2 H2); [|lia].
    apply IH; destruct H2; lia.
Qed.

Lemma parseFunctionCall_progress f name p :
  cur_is TokenLeftParen p = true ->
  (rest p <= f)%nat -> (rest p <= N)%nat ->
  post (parseFunctionCall rec f name) p (fun _ p' => after 1 p p').
Proof.
  intros Hc Hf HN. unfold parseFunctionCall.
  pose proof (cur_is_rest _ _ Hc ltac:(discriminate)) as Hpos.
  apply (post_consume _ p 0 p _ (after_refl p) Hpos). intros p1 H1.
  assert (Hl : post (parseFunctionCall_loop rec f []) p1
                 (fun _ p' => after 0 p1 p')).
  { apply parseFunctionCall_loop_progress; destruct H1; lia. }
  apply (post_then _ _ p 1 0 p1 _ H1 Hl). intros args p2 H2.
  apply post_bind, post_expect. intros Hc2.
  apply post_bind, post_advance, post_ret.
  destruct H2 as [T2 R2]. unfold after, rest in *. cbn. split; [exact T2 | lia].
Qed.

Lemma parsePrimary_progress f p :
  (rest p <= f)%nat -> (rest p <= N)%nat ->
  post (parsePrimary rec f) p (fun _ p' => after 1 p p').
Proof.
  intros Hf HN. unfold parsePrimary. apply post_bind, post_cur.
  destruct (lexer.Type_ (current_token p)) eqn:Et; try apply post_fail;
    assert (Hpos : (0 < rest p)%nat)
      by (apply rest_positive; rewrite Et; discriminate).
  - apply (post_consume _ p 0 p _ (after_refl p) Hpos). intros p1 H1.
    apply post_ret. exact H1.
  - apply (post_consume _ p 0 p _ (after_refl p) Hpos). intros p1 H1.
    apply post_ret. exact H1.
  - apply (post_consume _ p 0 p _ (after_refl p) Hpos). intros p1 H1.
    apply post_ret. exact H1.
  - apply (post_consume _ p 0 p _ (after_refl p) Hpos). intros p1 H1.
    apply post_ite; intros Hc.
    + apply (post_last _ p 1 1 1 p1 H1); [|lia].
      apply parseFunctionCall_progress; try assumption; destruct H1; lia.
    + apply post_ret. exact H1.
  - apply (post_consume _ p 0 p _ (after_refl p) Hpos). intros p1 H1.
    assert (Hr1 : (rest p1 < N)%nat) by (destruct H1; lia).
    apply (post_then _ _ p 1 1 p1 _ H1 (Hrec p1 Hr1)). intros e p2 H2.
    apply post_bind, post_expect. intros Hc2.
    apply post_bind, post_advance, post_ret.
    destruct H2 as [T2 R2]. unfold after, rest in *. cbn. split; [exact T2 | lia].
Qed.

Lemma parseUnary_progress f : forall p,
  (rest p <= f)%nat -> (rest p <= N)%nat ->
  post (parseUnary rec f) p (fun _ p' => after 1 p p').
Proof.
  induction f as [|f IH]; intros p Hf HN.
  - cbn [parseUnary]. apply post_ite; intros Hc.
    + apply orb_true_iff in Hc.
      assert ((0 < rest p)%nat); [|lia].
      destruct Hc as [Hc|Hc]; apply (cur_is_rest _ _ Hc); discriminate.
    + apply parsePrimary_progress; assumption.
  - cbn [parseUnary]. apply post_ite; intros Hc.
    + apply orb_true_iff in Hc.
      assert (Hpos : (0 < rest p)%nat)
        by (destruct Hc as [Hc|Hc]; apply (cur_is_rest _ _ Hc); discriminate).
      apply (post_consume _ p 0 p _ (after_refl p) Hpos). intros p1 H1.
      assert (Hu : post (parseUnary rec f) p1 (fun _ p' => after 1 p1 p'))
        by (apply IH; destruct H1; lia).
      apply (post_then _ _ p 1 1 p1 _ H1 Hu). intros e p2 H2.
      apply post_ret. apply (after_weaken _ _ _ _ H2). lia.
    + apply parsePrimary_progress; assumption.
Qed.

Lemma binary_loop_progress ops (operand : M Parser Expression) F :
  TokenEOF ∉ ops ->
  (forall p, (rest p <= F)%nat -> (rest p <= N)%nat ->
     post operand p (fun _ p' => after 1 p p')) ->
  forall f left p,
    (f <= F)%nat -> (rest p <= f)%nat -> (rest p <= N)%nat ->
    post (binary_loop ops operand f left) p (fun _ p' => after 0 p p').
Proof.
  intros Hops Hop. induction f as [|f IH]; intros left p HF Hf HN;
    cbn [binary_loop]; apply post_ite; intros Hc;
    try (apply post_ret, after_refl);
    apply bool_decide_eq_true in Hc;
    assert (Hpos : (0 < rest p)%nat)
      by (apply rest_positive; intros E; rewrite E in Hc; contradiction);
    [lia|].
  apply (post_consume _ p 0 p _ (after_refl p) Hpos). intros p1 H1.
  assert (Ho : post operand p1 (fun _ p' => after 1 p1 p'))
    by (apply Hop; destruct H1; lia).
  apply (post_then _ _ p 1 1 p1 _ H1 Ho). intros right p2 H2.
  apply (post_last _ p 2 0 0 p2 H2); [|lia].
  apply IH; destruct H2; lia.
Qed.

Lemma binary_level_progress ops (operand : nat -> M Parser Expression) :
  TokenEOF ∉ ops ->
  (forall f p, (rest p <= f)%nat -> (rest p <= N)%nat ->
     post (operand f) p (fun _ p' => after 1 p p')) ->
  forall f p, (rest p <= f)%nat -> (rest p <= N)%nat ->
    post (let* left := operand f in binary_loop ops (operand f) f left) p
      (fun _ p' => after 1 p p').
Proof.
  intros Hops Hop f p Hf HN.
  apply (post_then _ _ p 0 1 p _ (after_refl p) (Hop f p Hf HN)).
  intros left p1 H1.
  apply (post_last _ p 1 0 1 p1 H1); [|lia].
  apply (binary_loop_progress ops (operand f) f Hops (Hop f));
    destruct H1; lia.
Qed.

Lemma parseLogicalOr_progress f p :
  (rest p <= f)%nat -> (rest p <= N)%nat ->
  post (parseLogicalOr rec f) p (fun _ p' => after 1 p p').
Proof.
  revert f p.
  apply (binary_level_progress [TokenOr] (parseLogicalAnd rec)); [not_in_ops|].
  apply (binary_level_progress [TokenAnd] (parseEquality rec)); [not_in_ops|].
  apply (binary_level_progress [TokenEqual; TokenNotEqual]
           (parseComparison rec)); [not_in_ops|].
  apply (binary_level_progress
           [TokenLessThan; TokenLessEqual; TokenGreaterThan; TokenGreaterEqual]
           (parseTerm rec)); [not_in_ops|].
  apply (binary_level_progress [TokenPlus; TokenMinus] (parseFactor rec));
    [not_in_ops|].
  apply (binary_level_progress [TokenMultiply; TokenDivide] (parseUnary rec));
    [not_in_ops|].
  apply parseUnary_progress.
Qed.

End ExpressionProgress.

Lemma parseExpression_progress N : forall fuel p,
  (rest p < N)%nat -> (N <= fuel)%nat ->
  post (parseExpression fuel) p (fun _ p' => after 1 p p').
Proof.
  induction N as [|N IH]; intros fuel p Hr Hf; [lia|].
  destruct fuel as [|fuel]; [lia|]. cbn [parseExpression].
  apply (parseLogicalOr_progress (parseExpression fuel) N); [|lia|lia].
  intros q Hq. apply IH; lia.
Qed.

Lemma parseExpression_enough fuel p :
  (rest p < fuel)%nat ->
  post (parseExpression fuel) p (fun _ p' => after 1 p p').
Proof. intros H. apply (parseExpression_progress (S (rest p))); lia. Qed.

Lemma after_advance_weak p : after 0 p (mkParser (tokens p) (S (pos p))).
Proof. unfold after, rest. cbn. split; [reflexivity | lia]. Qed.

Lemma parseParameters_loop_progress f : forall parameters p,
  (rest p < f)%nat ->
  post (parseParameters_loop f parameters) p (fun _ p' => after 0 p p').
Proof.
  induction f as [|f IH]; intros parameters p Hf; [lia|].
  cbn [parseParameters_loop]. apply post_ite; intros Hc.
  - apply post_ret, after_refl.
  - apply (post_then _ _ p 0 0 p _ (after_refl p) (post_comma _ p)).
    intros _ p1 H1. apply post_bind, post_cur.
    apply post_bind.
    destruct (is_type_keyword (lexer.Type_ (current_token p1))) eqn:Ek;
      [|apply post_fail].
    apply post_ret. apply post_bind, post_lift_type. intros ty.
    assert (Hpos : (0 < rest p1)%nat).
    { apply rest_positive. unfold is_type_keyword in Ek.
      apply bool_decide_eq_true in Ek. intros E. rewrite E in Ek.
      revert Ek. not_in_ops. }
    apply (post_consume _ p 0 p1 _ H1 Hpos). intros p2 H2.
    apply post_bind, post_expect. intros Hc2.
    apply post_bind, post_cur.
    pose proof (cur_is_rest _ _ Hc2 ltac:(discriminate)) as Hpos2.
    apply (post_consume _ p 1 p2 _ H2 Hpos2). intros p3 H3.
    apply (post_last _ p 2 0 0 p3 H3); [|lia].
    apply IH. destruct H3. lia.
Qed.

Section StatementProgress.

Variable recS : M Parser Statement.
Variable N : nat.
Hypothesis Hrec :
  forall p, (rest p < N)%nat -> post recS p (fun _ p' => after 1 p p').

Lemma block_loop_progress stops :
  TokenEOF ∈ stops ->
  forall f body p,
    (rest p <= f)%nat -> (rest p < N)%nat ->
    post (block_loop recS stops f body) p (fun _ p' => after 0 p p').
Proof.
  intros Hstops. induction f as [|f IH]; intros body p Hf HN;
    cbn [block_loop]; apply post_ite; intros Hc;
    try (apply post_ret, after_refl).
  - apply bool_decide_eq_false in Hc. apply Hc.
    rewrite (current_at_end p) by lia. exact Hstops.
  - apply (post_then _ _ p 0 1 p _ (after_refl p) (Hrec p HN)).
    intros stmt p1 H1.
    apply (post_last _ p 1 0 0 p1 H1); [|lia].
    apply IH; destruct H1; lia.
Qed.

Ltac eof_in_stops := rewrite ?elem_of_cons; tauto.

Lemma parseVariableDeclaration_progress fuel p :
  (0 < rest p)%nat -> (rest p <= fuel)%nat ->
  post (parseVariableDeclaration fuel) p (fun _ p' => after 1 p p').
Proof.
  intros Hpos Hf. unfold parseVariableDeclaration.
  apply post_bind, post_cur.
  apply (post_consume _ p 0 p _ (after_refl p) Hpos). intros p1 H1.
  apply post_bind, post_expect. intros Hc1. apply post_bind, post_cur.
  pose proof (cur_is_rest _ _ Hc1 ltac:(discriminate)) as Hpos1.
  apply (post_consume _ p 1 p1 _ H1 Hpos1). intros p2 H2.
  apply post_bind, post_expect. intros Hc2.
  pose proof (cur_is_rest _ _ Hc2 ltac:(discriminate)) as Hpos2.
  apply (post_consume _ p 2 p2 _ H2 Hpos2). intros p3 H3.
  assert (He : post (parseExpression fuel) p3 (fun _ p' => after 1 p3 p'))
    by (apply parseExpression_enough; destruct H3; lia).
  apply (post_then _ _ p 3 1 p3 _ H3 He). intros value p4 H4.
  apply post_bind, post_lift_type. intros ty. apply post_ret.
  apply (after_weaken _ _ _ _ H4). lia.
Qed.

Lemma parseAssignment_progress fuel p :
  (0 < rest p)%nat -> (rest p <= fuel)%nat ->
  post (parseAssignment fuel) p (fun _ p' => after 1 p p').
Proof.
  intros Hpos Hf. unfold parseAssignment.
  apply post_bind, post_cur.
  apply (post_consume _ p 0 p _ (after_refl p) Hpos). intros p1 H1.
  apply post_bind, post_expect. intros Hc1.
  pose proof (cur_is_rest _ _ Hc1 ltac:(discriminate)) as Hpos1.
  apply (post_consume _ p 1 p1 _ H1 Hpos1). intros p2 H2.
  assert (He : post (parseExpression fuel) p2 (fun _ p' => after 1 p2 p'))
    by (apply parseExpression_enough; destruct H2; lia).
  apply (post_then _ _ p 2 1 p2 _ H2 He). intros value p3 H3.
  apply post_ret. apply (after_weaken _ _ _ _ H3). lia.
Qed.

Lemma parsePrintStatement_progress fuel p :
  (0 < rest p)%nat -> (rest p <= fuel)%nat ->
  post (parsePrintStatement fuel) p (fun _ p' => after 1 p p').
Proof.
  intros Hpos Hf. unfold parsePrintStatement.
  apply (post_consume _ p 0 p _ (after_refl p) Hpos). intros p1 H1.
  assert (He : post (parseExpression fuel) p1 (fun _ p' => after 1 p1 p'))
    by (apply parseExpression_enough; destruct H1; lia).
  apply (post_then _ _ p 1 1 p1 _ H1 He). intros value p2 H2.
  apply post_ret. apply (after_weaken _ _ _ _ H2). lia.
Qed.

Lemma parseExpressionStatement_progress fuel p :
  (rest p < fuel)%nat ->
  post (parseExpressionStatement fuel) p (fun _ p' => after 1 p p').
Proof.
  intros Hf. unfold parseExpressionStatement.
  apply (post_then _ _ p 0 1 p _ (after_refl p)
           (parseExpression_enough fuel p Hf)).
  intros e p1 H1. apply post_ret. exact H1.
Qed.

Lemma block_after p0 n p stops fuel :
  TokenEOF ∈ stops -> after (S n) p0 p ->
  (rest p0 <= N)%nat -> (rest p0 <= fuel)%nat ->
  post (block_loop recS stops fuel []) p (fun _ p' => after 0 p p').
Proof.
  intros Hs [T R] HN Hf. apply block_loop_progress; [assumption | lia | lia].
Qed.

Lemma parseIfStatement_progress fuel p :
  (0 < rest p)%nat -> (rest p <= fuel)%nat -> (rest p <= N)%nat ->
  post (parseIfStatement recS fuel) p (fun _ p' => after 1 p p').
Proof.
  intros Hpos Hf HN. unfold parseIfStatement.
  apply (post_consume _ p 0 p _ (after_refl p) Hpos). intros p1 H1.
  assert (He : post (parseExpression fuel) p1 (fun _ p' => after 1 p1 p'))
    by (apply parseExpression_enough; destruct H1; lia).
  apply (post_then _ _ p 1 1 p1 _ H1 He). intros condition p2 H2.
  apply post_bind, post_expect. intros Hc2.
  pose proof (cur_is_rest _ _ Hc2 ltac:(discriminate)) as Hpos2.
  apply (post_consume _ p 2 p2 _ H2 Hpos2). intros p3 H3.
  apply (post_then _ _ p 3 0 p3 _ H3
           (block_after p 2 p3 [TokenElse; TokenEnd; TokenEOF] fuel
              ltac:(eof_in_stops) H3 HN Hf)).
  intros thenBody p4 H4.
  assert (Helse : post
            (let* token := current in
             if bool_decide (lexer.Type_ token = TokenElse)
             then advance;; block_loop recS [TokenEnd; TokenEOF] fuel []
             else ret []) p4 (fun _ p' => after 0 p4 p')).
  { apply post_ite; intros Hc4; [|apply post_ret, after_refl].
    pose proof (cur_is_rest _ _ Hc4 ltac:(discriminate)) as Hpos4.
    apply (post_consume _ p4 0 p4 _ (after_refl p4) Hpos4). intros p5 H5.
    apply (post_last _ p4 1 0 0 p5 H5); [|lia].
    apply block_loop_progress; [eof_in_stops | |]; destruct H4, H5; lia. }
  apply (post_then _ _ p 3 0 p4 _ H4 Helse). intros elseBody p5 H5.
  apply post_bind, post_expect. intros Hc5.
  apply post_bind, post_advance, post_ret.
  apply (after_weaken 3); [|lia].
  replace 3%nat with (3 + 0)%nat by lia.
  exact (after_trans _ _ _ _ _ H5 (after_advance_weak p5)).
Qed.

Lemma parseLoopStatement_progress fuel p :
  (0 < rest p)%nat -> (rest p <= fuel)%nat -> (rest p <= N)%nat ->
  post (parseLoopStatement recS fuel) p (fun _ p' => after 1 p p').
Proof.
  intros Hpos Hf HN. unfold parseLoopStatement.
  apply (post_consume _ p 0 p _ (after_refl p) Hpos). intros p1 H1.
  apply post_bind, post_expect. intros Hc1. apply post_bind, post_cur.
  pose proof (cur_is_rest _ _ Hc1 ltac:(discriminate)) as Hpos1.
  apply (post_consume _ p 1 p1 _ H1 Hpos1). intros p2 H2.
  apply post_bind, post_expect. intros Hc2.
  pose proof (cur_is_rest _ _ Hc2 ltac:(discriminate)) as Hpos2.
  apply (post_consume _ p 2 p2 _ H2 Hpos2). intros p3 H3.
  assert (He : post (parseExpression fuel) p3 (fun _ p' => after 1 p3 p'))
    by (apply parseExpression_enough; destruct H3; lia).
  apply (post_then _ _ p 3 1 p3 _ H3 He). intros fromExpr p4 H4.
  apply post_bind, post_expect. intros Hc4.
  pose proof (cur_is_rest _ _ Hc4 ltac:(discriminate)) as Hpos4.
  apply (post_consume _ p 4 p4 _ H4 Hpos4). intros p5 H5.
  assert (He5 : post (parseExpression fuel) p5 (fun _ p' => after 1 p5 p'))
    by (apply parseExpression_enough; destruct H5; lia).
  apply (post_then _ _ p 5 1 p5 _ H5 He5). intros toExpr p6 H6.
  apply (post_then _ _ p 6 0 p6 _ H6
           (block_after p 5 p6 [TokenEnd; TokenEOF] fuel
              ltac:(eof_in_stops) H6 HN Hf)).
  intros body p7 H7.
  apply post_bind, post_expect. intros Hc7.
  apply post_bind, post_advance, post_ret.
  apply (after_weaken 6); [|lia].
  replace 6%nat with (6 + 0)%nat by lia.
  exact (after_trans _ _ _ _ _ H7 (after_advance_weak p7)).
Qed.

Lemma parseFunctionDeclaration_progress fuel p :
  (0 < rest p)%nat -> (rest p <= fuel)%nat -> (rest p <= N)%nat ->
  post (parseFunctionDeclaration recS fuel) p (fun _ p' => after 1 p p').
Proof.
  intros Hpos Hf HN. unfold parseFunctionDeclaration.
  apply (post_consume _ p 0 p _ (after_refl p) Hpos). intros p1 H1.
  apply post_bind, post_expect. intros Hc1. apply post_bind, post_cur.
  pose proof (cur_is_rest _ _ Hc1 ltac:(discriminate)) as Hpos1.
  apply (post_consume _ p 1 p1 _ H1 Hpos1). intros p2 H2.
  apply post_bind, post_expect. intros Hc2.
  pose proof (cur_is_rest _ _ Hc2 ltac:(discriminate)) as Hpos2.
  apply (post_consume _ p 2 p2 _ H2 Hpos2). intros p3 H3.
  assert (Hl : post (parseParameters_loop fuel []) p3
                 (fun _ p' => after 0 p3 p'))
    by (apply parseParameters_loop_progress; destruct H3; lia).
  apply (post_then _ _ p 3 0 p3 _ H3 Hl). intros parameters p4 H4.
  apply post_bind, post_advance.
  pose proof (after_trans _ _ _ _ _ H4 (after_advance_weak p4)) as H5.
  apply (post_then _ _ p (3 + 0) 0 _ _ H5
           (block_after p 2 _ [TokenEnd; TokenEOF] fuel
              ltac:(eof_in_stops) H5 HN Hf)).
  intros body p6 H6.
  apply post_bind, post_expect. intros Hc6.
  apply post_bind, post_advance, post_ret.
  apply (after_weaken 3); [|lia].
  replace 3%nat with (3 + 0 + 0 + 0)%nat by lia.
  exact (after_trans _ _ _ _ _ H6 (after_advance_weak p6)).
Qed.

Lemma parseStatement_body_progress fuel p :
  (rest p < fuel)%nat -> (rest p <= N)%nat ->
  post (parseStatement_body recS fuel) p (fun _ p' => after 1 p p').
Proof.
  intros Hf HN. unfold parseStatement_body. apply post_bind, post_cur.
  destruct (lexer.Type_ (current_token p)) eqn:Et; try apply post_fail;
    assert (Hpos : (0 < rest p)%nat)
      by (apply rest_positive; rewrite Et; discriminate).
  - apply post_bind, post_peek.
    destruct (bool_decide (lexer.Type_ (next_token p) = TokenAssign)).
    + apply parseAssignment_progress; lia.
    + apply parseExpressionStatement_progress; lia.
  - apply parseVariableDeclaration_progress; lia.
  - apply parseVariableDeclaration_progress; lia.
  - apply parseVariableDeclaration_progress; lia.
  - apply parseFunctionDeclaration_progress; lia.
  - apply parseIfStatement_progress; lia.
  - apply parseLoopStatement_progress; lia.
  - apply parsePrintStatement_progress; lia.
Qed.

End StatementProgress.

Lemma parseStatement_progress N : forall fuel p,
  (rest p < N)%nat -> (N <= fuel)%nat ->
  post (parseStatement fuel) p (fun _ p' => after 1 p p').
Proof.
  induction N as [|N IH]; intros fuel p Hr Hf; [lia|].
  destruct fuel as [|fuel]; [lia|]. cbn [parseStatement].
  apply (parseStatement_body_progress (parseStatement fuel) N); [|lia|lia].
  intros q Hq. apply IH; lia.
Qed.

Lemma Parse_loop_progress fuel n : forall statements p,
  (rest p <= n)%nat -> (rest p < fuel)%nat ->
  post (Parse_loop fuel n statements) p (fun _ p' => after 0 p p').
Proof.
  induction n as [|n IH]; intros statements p Hn Hf;
    cbn [Parse_loop]; apply post_ite; intros Hc;
    try (apply post_ret, after_refl).
  - unfold cur_is in Hc. apply bool_decide_eq_false in Hc. apply Hc.
    rewrite (current_at_end p) by lia. reflexivity.
  - assert (Hs : post (parseStatement fuel) p (fun _ p' => after 1 p p'))
      by (apply (parseStatement_progress (S (rest p))); lia).
    apply (post_then _ _ p 0 1 p _ (after_refl p) Hs). intros stmt p1 H1.
    apply (post_last _ p 1 0 0 p1 H1); [|lia].
    apply IH; destruct H1; lia.
Qed.

Lemma Parse_returns tokens : returned (Parse tokens).
Proof.
  unfold Parse, Parse_with.
  pose proof (Parse_loop_progress (S (length tokens)) (S (length tokens)) []
                (NewParser tokens)) as H.
  unfold post in H.
  destruct (Parse_loop _ _ _ _) as [[a|e|e|] p']; try exact I;
    apply H; unfold rest, NewParser; cbn; lia.
Qed.

Lemma current_in_bounds p :
  (pos p < length (parser.tokens p))%nat ->
  parser.tokens p !! pos p = Some (current_token p).
Proof.
  intros H. unfold current_token. rewrite nth_lookup.
  destruct (lookup_lt_is_Some_2 (parser.tokens p) (pos p) H) as [t Ht].
  rewrite Ht. reflexivity.
Qed.

Lemma peek_in_bounds p :
  (pos p + 1 < length (parser.tokens p))%nat ->
  parser.tokens p !! (pos p + 1)%nat = Some (next_token p).
Proof.
  intros H. unfold next_token. rewrite nth_lookup.
  destruct (lookup_lt_is_Some_2 (parser.tokens p) (pos p + 1) H) as [t Ht].
  rewrite Ht. reflexivity.
Qed.

Lemma index_out_of_range tokens i :
  (length tokens <= i)%nat ->
  index tokens i
  = Panic ("runtime error: index out of range ["
           ++ strconv.Itoa (Z.of_nat i) ++ "] with length "
           ++ strconv.Itoa (Z.of_nat (length tokens))).
Proof.
  intros H. unfold index.
  rewrite (proj2 (nth_error_None tokens i) H). reflexivity.
Qed.

(** C9 (the parser never reads outside its token list and always answers).
    A read of the token slice at an index that is out of range panics.  At
    or past the end of the list [current] and [peek] do not read the slice:
    they return the synthesized end-of-input token; before the end they
    return the token stored at the index they read.  [Parse] answers on
    every token list, terminated by an end-of-input token or not, with a
    program or with a diagnostic: it neither panics nor runs for ever.  On
    the list made of the end-of-input token alone it returns the empty
    program. *)
Theorem C9_parser_is_total :
  (forall tokens i, (length tokens <= i)%nat ->
     exists msg, index tokens i = Panic msg)
  /\ (forall p, (length (parser.tokens p) <= pos p)%nat ->
        current p = (Ok eof_token, p))
  /\ (forall p, (length (parser.tokens p) <= pos p + 1)%nat ->
        peek p = (Ok eof_token, p))
  /\ (forall p, (pos p < length (parser.tokens p))%nat ->
        exists t, parser.tokens p !! pos p = Some t /\ current p = (Ok t, p))
  /\ (forall p, (pos p + 1 < length (parser.tokens p))%nat ->
        exists t, parser.tokens p !! (pos p + 1)%nat = Some t
                  /\ peek p = (Ok t, p))
  /\ (forall tokens,
        (exists program, Parse tokens = Ok program)
        \/ (exists msg, Parse tokens = Err msg))
  /\ (forall t, lexer.Type_ t = TokenEOF -> Parse [t] = Ok (mkProgram [])).
Proof.
  split; [|split; [|split; [|split; [|split; [|split]]]]].
  - intros tokens i H. eexists. exact (index_out_of_range tokens i H).
  - intros p H. unfold current.
    destruct (Nat.leb_spec (length (parser.tokens p)) (pos p));
      [reflexivity | lia].
  - intros p H. unfold peek.
    destruct (Nat.leb_spec (length (parser.tokens p)) (pos p + 1));
      [reflexivity | lia].
  - intros p H. exists (current_token p).
    split; [exact (current_in_bounds p H) | apply current_reads].
  - intros p H. exists (next_token p).
    split; [exact (peek_in_bounds p H) | apply peek_reads].
  - intros tokens. pose proof (Parse_returns tokens) as H.
    destruct (Parse tokens) as [program|msg|msg|];
      [left | right | destruct H | destruct H]; eexists; reflexivity.
  - intros t Ht. unfold Parse, Parse_with. cbn [length Parse_loop].
    unfold bind. rewrite current_reads.
    unfold current_token, NewParser. cbn. rewrite Ht. reflexivity.
Qed.

(** ** The evaluator *)

(** C7 (no short-circuit).  For [and] and [or] the left operand is evaluated,
    then the right operand in the state the left one leaves, and only then is
    the operator applied: whatever the value of the left operand, also
    [false] for [and] and [true] for [or], an error of the right operand is
    the result of the expression. *)
Theorem C7_both_operands_evaluated fuel Left op Right i lv i1 r i2 :
  op = "and" \/ op = "or" ->
  evaluateExpression fuel Left i = (Ok lv, i1) ->
  evaluateExpression fuel Right i1 = (r, i2) ->
  evaluateExpression (S fuel) (BinaryExpression Left op Right) i
  = match r with
    | Ok rv => (if string_dec op "and" then logicalAnd lv rv
                else logicalOr lv rv) i2
    | Err msg => (Err msg, i2)
    | Panic msg => (Panic msg, i2)
    | OutOfFuel => (OutOfFuel, i2)
    end.
Proof.
  intros Hop Hl Hr. cbn [evaluateExpression].
  unfold evaluateBinaryExpression, bind. rewrite Hl, Hr.
  destruct r as [rv|msg|msg|]; try reflexivity.
  destruct Hop as [-> | ->]; reflexivity.
Qed.

Lemma C7_both_operands_evaluated_witness :
  evaluateExpression 3 false_and_division NewInterpreter
  = (Err "division by zero", NewInterpreter).
Proof.
  exact (C7_both_operands_evaluated 2 (Literal (PBool false) BooleanType)
           "and" (BinaryExpression (number "1") "/" (number "0"))
           NewInterpreter (BooleanValue false) NewInterpreter
           (Err "division by zero") NewInterpreter
           (or_introl eq_refl) eq_refl eq_refl).
Defined.


(** *** The counted loop *)

Lemma loop_as_turns exec n var body j to i :
  executeLoopStatement_loop exec n var body j to i
  = (run_turns exec var body (counter_values n j to);;
     if counter_stops n j to then ret tt else timeout) i.
Proof.
  revert j i. induction n as [|n IH]; intros j i;
    cbn [executeLoopStatement_loop counter_values counter_stops];
    destruct (float64.leb j to); try reflexivity.
  cbn [run_turns]. rewrite !bind_assoc.
  apply bind_ext; intros _ i1. rewrite bind_assoc.
  apply bind_ext; intros _ i2. apply IH.
Qed.

Lemma counter_of_integers n A B :
  - 2 ^ 53 <= A <= 2 ^ 53 -> - 2 ^ 53 <= B < 2 ^ 53 ->
  (Z.to_nat (B - A + 1) <= n)%nat ->
  counter_values n (float64.of_Z A) (float64.of_Z B)
  = map float64.of_Z (integers A (Z.to_nat (B - A + 1)))
  /\ counter_stops n (float64.of_Z A) (float64.of_Z B) = true.
Proof.
  revert A. induction n as [|n IH]; intros A HA HB Hn;
    cbn [counter_values counter_stops];
    rewrite leb_of_Z by lia;
    destruct (Z.leb_spec A B) as [Hle|Hgt].
  - exfalso. lia.
  - replace (Z.to_nat (B - A + 1)) with 0%nat by lia. split; reflexivity.
  - rewrite add_one by lia.
    replace (Z.to_nat (B - A + 1)) with (S (Z.to_nat (B - (A + 1) + 1))) by lia.
    cbn [integers map].
    destruct (IH (A + 1)) as [Hv Hs]; [lia | lia | lia |].
    rewrite Hv, Hs. split; reflexivity.
  - replace (Z.to_nat (B - A + 1)) with 0%nat by lia. split; reflexivity.
Qed.

Lemma length_integers a n : length (integers a n) = n.
Proof. revert a. induction n as [|n IH]; intros a; cbn; [|rewrite IH]; reflexivity. Qed.

Lemma in_environment_ext {A} env (m m' : M Interpreter A) i :
  (forall s, m s = m' s) -> in_environment env m i = in_environment env m' i.
Proof. intros H. unfold in_environment. rewrite H. reflexivity. Qed.

Lemma executeLoopStatement_turns fuel var From To Body i i1 i2 from to :
  evaluateExpression fuel From i = (Ok (NumberValue from), i1) ->
  evaluateExpression fuel To i1 = (Ok (NumberValue to), i2) ->
  executeStatement (S fuel) (LoopStatement var From To Body) i
  = in_environment (NewEnvironment (Some (environment i2)))
      (run_turns (executeStatement fuel) var Body
         (counter_values fuel from to);;
       if counter_stops fuel from to then ret VoidValue else timeout) i2.
Proof.
  intros Hf Ht. cbn [executeStatement]. unfold executeLoopStatement.
  unfold bind at 1. rewrite Hf. unfold bind at 1. rewrite Ht.
  rewrite bind_ret_l || (unfold bind at 1; cbn [get]).
  apply in_environment_ext. intros s.
  rewrite (bind_ext_l _ _ _ _ (loop_as_turns _ _ _ _ _ _ _)).
  rewrite bind_assoc. apply bind_ext. intros _ s'.
  destruct (counter_stops fuel from to); reflexivity.
Qed.

Lemma setVariable_lookup var v i :
  GetVariable (environment (snd (setVariable var v i))) var = Some v.
Proof.
  unfold setVariable, modify, set_environment, SetVariable. cbn.
  destruct (environment i) as [vs fs p]. cbn.
  rewrite lookup_insert_eq. reflexivity.
Qed.

(** C10 (the loop counter is out of the program's reach).  Once the bounds
    are evaluated, a loop statement is the sequence of turns given by
    [counter_values] of the bounds: neither how many turns there are nor the
    value of a turn depends on the body or on the state the body leaves.
    Each turn starts by binding the loop variable to the counter in the
    innermost frame, so that a lookup of the variable at the start of the
    body finds the counter, whatever the previous turn assigned to it. *)
Theorem C10_loop_counter_is_private fuel var From To Body i i1 i2 from to :
  evaluateExpression fuel From i = (Ok (NumberValue from), i1) ->
  evaluateExpression fuel To i1 = (Ok (NumberValue to), i2) ->
  executeStatement (S fuel) (LoopStatement var From To Body) i
  = in_environment (NewEnvironment (Some (environment i2)))
      (run_turns (executeStatement fuel) var Body
         (counter_values fuel from to);;
       if counter_stops fuel from to then ret VoidValue else timeout) i2
  /\ forall j s,
       GetVariable (environment (snd (setVariable var (NumberValue j) s))) var
       = Some (NumberValue j).
Proof.
  intros Hf Ht. split.
  - exact (executeLoopStatement_turns _ _ _ _ _ _ _ _ _ _ Hf Ht).
  - intros j s. apply setVariable_lookup.
Qed.

Lemma C10_loop_counter_is_private_witness :
  executeStatement 6 count_to_three NewInterpreter
  = in_environment (NewEnvironment (Some (environment NewInterpreter)))
      (run_turns (executeStatement 5) "i"
         [print_i; Assignment "i" (number "10"); print_i]
         (counter_values 5 (float64.of_Z 1) (float64.of_Z 3));;
       if counter_stops 5 (float64.of_Z 1) (float64.of_Z 3)
       then ret VoidValue else timeout) NewInterpreter
  /\ counter_values 5 (float64.of_Z 1) (float64.of_Z 3)
     = map float64.of_Z [1; 2; 3]
  /\ stdout (snd (executeStatement 6 count_to_three NewInterpreter))
     = ["1"; "10"; "2"; "10"; "3"; "10"].
Proof.
  split; [|split; vm_compute; reflexivity].
  apply (C10_loop_counter_is_private 5 "i" (number "1") (number "3")
           [print_i; Assignment "i" (number "10"); print_i]
           NewInterpreter NewInterpreter NewInterpreter);
    vm_compute; reflexivity.
Defined.


Lemma SFcompare_antisym x y :
  SFcompare y x = option_map CompOpp (SFcompare x y).
Proof.
  destruct x as [s|s| |s m e], y as [s'|s'| |s' m' e']; cbn;
    try destruct s; try destruct s'; try reflexivity;
    rewrite (Z.compare_antisym e e');
    replace (Pos.compare_cont Eq m' m)
      with (CompOpp (Pos.compare_cont Eq m m'))
      by (apply (Pos.compare_cont_antisym m m' Eq));
    destruct (e ?= e'); cbn; try reflexivity;
    destruct (Pos.compare_cont Eq m m'); reflexivity.
Qed.

Lemma ltb_not_leb x y : float64.ltb y x = true -> float64.leb x y = false.
Proof.
  unfold float64.ltb, float64.leb, SFltb, SFleb.
  rewrite (SFcompare_antisym x y).
  destruct (SFcompare x y) as [[| |]|]; cbn; congruence.
Qed.

Lemma leb_negative_zero_l x :
  float64.leb (S754_zero true) x = float64.leb (float64.of_Z 0) x.
Proof. destruct x as [s|s| |s m e]; reflexivity. Qed.

Lemma leb_negative_zero_r x :
  float64.leb x (S754_zero true) = float64.leb x (float64.of_Z 0).
Proof. destruct x as [s|s| |s m e]; reflexivity. Qed.

Lemma counter_to_ext to to' :
  (forall j, float64.leb j to = float64.leb j to') ->
  forall n j,
    counter_values n j to = counter_values n j to'
    /\ counter_stops n j to = counter_stops n j to'.
Proof.
  intros H. induction n as [|n IH]; intros j;
    cbn [counter_values counter_stops]; rewrite H;
    destruct (float64.leb j to'); try (split; reflexivity).
  destruct (IH (float64.add j one)) as [-> ->]. split; reflexivity.
Qed.

(** The turns of a loop whose bounds are the integers [A <= B]: the lower
    bound, as it is, and then [A+1, ..., B]. *)
Lemma counter_of_numbers n from to A B :
  integer_value from A -> integer_value to B ->
  - 2 ^ 53 <= A -> A <= B -> B < 2 ^ 53 ->
  (Z.to_nat (B - A + 1) <= n)%nat ->
  counter_values n from to
  = from :: map float64.of_Z (integers (A + 1) (Z.to_nat (B - A)))
  /\ counter_stops n from to = true.
Proof.
  intros Hfrom Hto HA HAB HB Hn.
  assert (Hext : forall j, float64.leb j to = float64.leb j (float64.of_Z B)).
  { intros j. destruct Hto as [-> | [-> ->]];
      [reflexivity | apply leb_negative_zero_r]. }
  destruct (counter_to_ext to (float64.of_Z B) Hext n from) as [-> ->].
  destruct n as [|n]; [lia|]. cbn [counter_values counter_stops].
  assert (Hleb : float64.leb from (float64.of_Z B) = true).
  { destruct Hfrom as [-> | [-> ->]]; rewrite ?leb_negative_zero_l;
      rewrite leb_of_Z by lia; apply Z.leb_le; lia. }
  assert (Hadd : float64.add from one = float64.of_Z (A + 1)).
  { destruct Hfrom as [-> | [-> ->]];
      [apply add_one; lia | vm_compute; reflexivity]. }
  rewrite Hleb, Hadd.
  destruct (counter_of_integers n (A + 1) B) as [Hv Hs]; [lia | lia | lia |].
  replace (Z.to_nat (B - (A + 1) + 1)) with (Z.to_nat (B - A)) in Hv by lia.
  rewrite Hv, Hs. split; reflexivity.
Qed.

Lemma in_environment_ret {A} env (a : A) i :
  in_environment env (ret a) i = (Ok a, i).
Proof. unfold in_environment, ret. destruct i. reflexivity. Qed.

(** C6 (amended).  When the upper bound is less than the lower bound, the
    body is not executed and the statement changes nothing, whatever the
    two numbers are.  When the bounds are the integers [A <= B] with
    [-2^53 <= A] and [B < 2^53], the loop is one execution of the body for
    each of [A, A+1, ..., B] in this order, the loop variable bound to that
    value, ended by the first execution that fails: [B-A+1] of them when
    none fails. *)
Theorem C6_loop_trip_count fuel var From To Body i i1 i2 from to :
  evaluateExpression fuel From i = (Ok (NumberValue from), i1) ->
  evaluateExpression fuel To i1 = (Ok (NumberValue to), i2) ->
  (float64.ltb to from = true ->
   executeStatement (S fuel) (LoopStatement var From To Body) i
   = (Ok VoidValue, i2))
  /\ (forall A B,
        integer_value from A -> integer_value to B ->
        - 2 ^ 53 <= A -> A <= B -> B < 2 ^ 53 ->
        (Z.to_nat (B - A + 1) <= fuel)%nat ->
        executeStatement (S fuel) (LoopStatement var From To Body) i
        = in_environment (NewEnvironment (Some (environment i2)))
            (run_turns (executeStatement fuel) var Body
               (from
                :: map float64.of_Z (integers (A + 1) (Z.to_nat (B - A))));;
             ret VoidValue) i2
        /\ Z.of_nat
             (length
                (from
                 :: map float64.of_Z (integers (A + 1) (Z.to_nat (B - A)))))
           = B - A + 1).
Proof.
  intros Hf Ht. split.
  - intros Hlt.
    rewrite (executeLoopStatement_turns _ _ _ _ _ _ _ _ _ _ Hf Ht).
    pose proof (ltb_not_leb _ _ Hlt) as Hle.
    assert (Hv : counter_values fuel from to = []
                 /\ counter_stops fuel from to = true)
      by (destruct fuel; cbn [counter_values counter_stops]; rewrite Hle;
          split; reflexivity).
    destruct Hv as [-> ->]. cbn [run_turns].
    transitivity (in_environment (NewEnvironment (Some (environment i2)))
                    (ret VoidValue) i2);
      [apply in_environment_ext; intros s; reflexivity
      | apply in_environment_ret].
  - intros A B Hfrom Hto HA HAB HB Hfuel. split.
    + rewrite (executeLoopStatement_turns _ _ _ _ _ _ _ _ _ _ Hf Ht).
      destruct (counter_of_numbers fuel from to A B Hfrom Hto HA HAB HB Hfuel)
        as [Hv Hs].
      rewrite Hv, Hs. reflexivity.
    + cbn [length]. rewrite length_map, length_integers. lia.
Qed.

Lemma C6_loop_trip_count_witness :
  (executeStatement 6 count_to_three NewInterpreter
   = in_environment (NewEnvironment (Some (environment NewInterpreter)))
       (run_turns (executeStatement 5) "i"
          [print_i; Assignment "i" (number "10"); print_i]
          (float64.of_Z 1
           :: map float64.of_Z (integers (1 + 1) (Z.to_nat (3 - 1))));;
        ret VoidValue) NewInterpreter
   /\ Z.of_nat
        (length
           (float64.of_Z 1
            :: map float64.of_Z (integers (1 + 1) (Z.to_nat (3 - 1)))))
      = 3 - 1 + 1)
  /\ executeStatement 6 empty_loop NewInterpreter
     = (Ok VoidValue, NewInterpreter).
Proof.
  split.
  - apply (proj2 (C6_loop_trip_count 5 "i" (number "1") (number "3")
                    [print_i; Assignment "i" (number "10"); print_i]
                    NewInterpreter NewInterpreter NewInterpreter
                    (float64.of_Z 1) (float64.of_Z 3)
                    ltac:(vm_compute; reflexivity)
                    ltac:(vm_compute; reflexivity)) 1 3);
      [left; reflexivity | left; reflexivity | lia | lia | lia
      | vm_compute; lia].
  - apply (proj1 (C6_loop_trip_count 5 "i" (number "1152921504606846976")
                    (number "5") [print_i]
                    NewInterpreter NewInterpreter NewInterpreter
                    (float64.of_Z (2 ^ 60)) (float64.of_Z 5)
                    ltac:(vm_compute; reflexivity)
                    ltac:(vm_compute; reflexivity))).
    vm_compute. reflexivity.
Defined.

Lemma stuck_counter n :
  counter_stops n (float64.of_Z (2 ^ 53)) (float64.of_Z (2 ^ 53 + 2)) = false.
Proof.
  induction n as [|n IH]; cbn [counter_stops].
  - vm_compute. reflexivity.
  - replace (float64.leb (float64.of_Z (2 ^ 53)) (float64.of_Z (2 ^ 53 + 2)))
      with true by (vm_compute; reflexivity).
    replace (float64.add (float64.of_Z (2 ^ 53)) one)
      with (float64.of_Z (2 ^ 53)) by (vm_compute; reflexivity).
    exact IH.
Qed.

Lemma print_i_runs n s v :
  (2 <= n)%nat ->
  GetVariable (environment s) "i" = Some v ->
  executeStatements (executeStatement n) [print_i] s
  = (Ok tt, mkInterpreter (environment s) (stdout s ++ [Value_String v])).
Proof.
  intros Hn Hl. destruct n as [|[|n]]; try lia.
  cbn [executeStatements executeStatement print_i].
  unfold executePrintStatement, bind. cbn [evaluateExpression].
  unfold evaluateIdentifier. rewrite Hl. reflexivity.
Qed.

Lemma print_i_no_error n js s :
  match fst (run_turns (executeStatement n) "i" [print_i] js s) with
  | Err _ | Panic _ => False
  | _ => True
  end.
Proof.
  revert s. induction js as [|j js IH]; intros s; [exact I|].
  cbn [run_turns]. unfold bind at 1.
  destruct (setVariable "i" (NumberValue j) s) as [r s1] eqn:Es.
  pose proof (setVariable_lookup "i" (NumberValue j) s) as Hl.
  rewrite Es in Hl. cbn [snd] in Hl.
  assert (r = Ok tt) as -> by (unfold setVariable, modify in Es; congruence).
  unfold bind at 1.
  destruct (le_lt_dec 2 n) as [Hn|Hn].
  - rewrite (print_i_runs n s1 _ Hn Hl). apply IH.
  - destruct n as [|[|n]]; [exact I | exact I | lia].
Qed.

(** C6, as stated, fails: from 2^53 to 2^53 + 2 the counter does not move
    ([2^53 + 1] rounds to [2^53]), the body is executed more than three times
    and the loop never ends; and from 1 to 3 a body that fails is executed
    once. *)
Lemma C6_trip_count_fails :
  stdout (snd (executeStatement 6 stuck_loop NewInterpreter))
  = ["9.007199254740992e+15"; "9.007199254740992e+15";
     "9.007199254740992e+15"; "9.007199254740992e+15";
     "9.007199254740992e+15"]
  /\ ~ (exists fuel,
          completed (fst (executeStatement fuel stuck_loop NewInterpreter)))
  /\ run 8 (mkProgram [failing_loop]) = (Err "division by zero", ["1"]).
Proof.
  split; [vm_compute; reflexivity|].
  split; [|vm_compute; reflexivity].
  intros [fuel H]. destruct fuel as [|[|fuel]]; [exact H | exact H |].
  unfold stuck_loop in H.
  rewrite (executeLoopStatement_turns (S fuel) "i" _ _ _ NewInterpreter
             NewInterpreter NewInterpreter
             (float64.of_Z (2 ^ 53)) (float64.of_Z (2 ^ 53 + 2))) in H
    by (vm_compute; reflexivity).
  rewrite stuck_counter in H.
  unfold in_environment, bind in H.
  pose proof (print_i_no_error (S fuel)
                (counter_values (S fuel) (float64.of_Z (2 ^ 53))
                   (float64.of_Z (2 ^ 53 + 2)))
                (set_environment
                   (NewEnvironment (Some (environment NewInterpreter)))
                   NewInterpreter)) as Hn.
  destruct (run_turns _ _ _ _ _) as [[u|e|e|] s'];
    cbn [fst completed timeout] in H, Hn; auto.
Qed.

(** *** The frames below the innermost one *)

Lemma keeps_environment_below {A} (m : M Interpreter A) :
  keeps_environment m -> keeps_frames_below m.
Proof. intros H i. rewrite H. reflexivity. Qed.

Lemma keeps_environment_bind {A B} (m : M Interpreter A)
    (k : A -> M Interpreter B) :
  keeps_environment m -> (forall a, keeps_environment (k a)) ->
  keeps_environment (bind m k).
Proof.
  intros Hm Hk i. unfold bind. specialize (Hm i).
  destruct (m i) as [[a|e|e|] i1]; cbn [snd] in *; try exact Hm.
  rewrite Hk. exact Hm.
Qed.

Lemma keeps_frames_below_bind {A B} (m : M Interpreter A)
    (k : A -> M Interpreter B) :
  keeps_frames_below m -> (forall a, keeps_frames_below (k a)) ->
  keeps_frames_below (bind m k).
Proof.
  intros Hm Hk i. unfold bind. specialize (Hm i).
  destruct (m i) as [[a|e|e|] i1]; cbn [snd] in *; try exact Hm.
  rewrite Hk. exact Hm.
Qed.

Lemma keeps_environment_pure {A} (r : Res A) :
  keeps_environment (fun i => (r, i)).
Proof. intros i. reflexivity. Qed.

Lemma keeps_environment_in_environment {A} env (m : M Interpreter A) :
  keeps_environment (in_environment env m).
Proof.
  intros i. unfold in_environment.
  destruct (m (set_environment env i)). reflexivity.
Qed.

Lemma keeps_frames_below_setVariable name value :
  keeps_frames_below (setVariable name value).
Proof. intros i. reflexivity. Qed.

Lemma keeps_frames_below_setFunction name function :
  keeps_frames_below (setFunction name function).
Proof. intros i. reflexivity. Qed.

Ltac keeps_pure :=
  lazymatch goal with
  | |- keeps_environment _ => intros ?; reflexivity
  | |- keeps_frames_below _ => intros ?; reflexivity
  end.

Lemma keeps_environment_operator
    (op : Value -> Value -> M Interpreter Value) left right :
  (forall i, snd (op left right i) = i) ->
  keeps_environment (op left right).
Proof. intros H i. rewrite H. reflexivity. Qed.

Section Discipline.

Variable ev : Expression -> M Interpreter Value.
Variable ex : Statement -> M Interpreter Value.
Hypothesis Hev : forall e, keeps_environment (ev e).
Hypothesis Hex : forall st, keeps_frames_below (ex st).

Lemma keeps_executeStatements body :
  keeps_frames_below (executeStatements ex body).
Proof.
  induction body as [|st body IH]; cbn [executeStatements]; [keeps_pure|].
  apply keeps_frames_below_bind; [apply Hex | intros _; exact IH].
Qed.

Lemma keeps_evaluateArguments args acc :
  keeps_environment (evaluateArguments ev args acc).
Proof.
  revert acc. induction args as [|a args IH]; intros acc;
    cbn [evaluateArguments]; [keeps_pure|].
  apply keeps_environment_bind; [apply Hev | intros v; apply IH].
Qed.

Lemma keeps_bind_parameters name ps args env :
  keeps_environment (bind_parameters name ps args env).
Proof.
  revert args env. induction ps as [|p ps IH]; intros [|a args] env;
    cbn [bind_parameters]; try keeps_pure.
  destruct (negb _); [keeps_pure | apply IH].
Qed.

Lemma keeps_expression_step e :
  keeps_environment
    match e with
    | Literal v t => evaluateLiteral v t
    | Identifier name => evaluateIdentifier name
    | BinaryExpression l op r => evaluateBinaryExpression ev l op r
    | UnaryExpression op e => evaluateUnaryExpression ev op e
    | FunctionCall name args => evaluateFunctionCall ev ex name args
    end.
Proof.
  destruct e as [v t|name|l op r|op e|name args].
  - intros i. unfold evaluateLiteral.
    destruct t, v; try reflexivity. destruct (fmt.Sscanf_f s); reflexivity.
  - intros i. unfold evaluateIdentifier.
    destruct (GetVariable (environment i) name); reflexivity.
  - unfold evaluateBinaryExpression.
    apply keeps_environment_bind; [apply Hev | intros lv].
    apply keeps_environment_bind; [apply Hev | intros rv].
    repeat match goal with
           | |- keeps_environment (if ?c then _ else _) => destruct c
           end;
      intros i; destruct lv, rv; try reflexivity.
    unfold divide. destruct (float64.eqb _ _); reflexivity.
  - unfold evaluateUnaryExpression.
    apply keeps_environment_bind; [apply Hev | intros v].
    repeat match goal with
           | |- keeps_environment (if ?c then _ else _) => destruct c
           end;
      intros i; destruct v; reflexivity.
  - unfold evaluateFunctionCall.
    apply keeps_environment_bind; [keeps_pure | intros i0].
    destruct (GetFunction (environment i0) name); [|keeps_pure].
    apply keeps_environment_bind; [apply keeps_evaluateArguments | intros vs].
    destruct (negb _); [keeps_pure|].
    apply keeps_environment_bind; [keeps_pure | intros i1].
    apply keeps_environment_bind; [apply keeps_bind_parameters | intros env].
    apply keeps_environment_in_environment.
Qed.

Lemma keeps_statement_step st n :
  keeps_frames_below
    match st with
    | VariableDeclaration t name v => executeVariableDeclaration ev t name v
    | Assignment name v => executeAssignment ev name v
    | IfStatement c t e => executeIfStatement ev ex c t e
    | LoopStatement v f t b => executeLoopStatement ev ex n v f t b
    | FunctionDeclaration n ps r b => executeFunctionDeclaration n ps r b
    | PrintStatement v => executePrintStatement ev v
    end.
Proof.
  destruct st as [t name v|name v|c t e|v f t b|fn ps r b|v].
  - unfold executeVariableDeclaration.
    apply keeps_frames_below_bind;
      [apply keeps_environment_below, Hev | intros value].
    destruct (negb _); [keeps_pure|].
    apply keeps_frames_below_bind;
      [apply keeps_frames_below_setVariable | intros _; keeps_pure].
  - unfold executeAssignment.
    apply keeps_frames_below_bind;
      [apply keeps_environment_below, Hev | intros value].
    apply keeps_frames_below_bind; [keeps_pure | intros i0].
    destruct (GetVariable (environment i0) name); [|keeps_pure].
    apply keeps_frames_below_bind;
      [apply keeps_frames_below_setVariable | intros _; keeps_pure].
  - unfold executeIfStatement.
    apply keeps_frames_below_bind;
      [apply keeps_environment_below, Hev | intros cv].
    destruct cv as [x|x|b|]; try keeps_pure.
    apply keeps_frames_below_bind; [|intros _; keeps_pure].
    destruct b; apply keeps_executeStatements.
  - apply keeps_environment_below. unfold executeLoopStatement.
    apply keeps_environment_bind; [apply Hev | intros fv].
    apply keeps_environment_bind; [apply Hev | intros tv].
    destruct fv; try keeps_pure. destruct tv; try keeps_pure.
    apply keeps_environment_bind; [keeps_pure | intros i0].
    apply keeps_environment_in_environment.
  - unfold executeFunctionDeclaration.
    apply keeps_frames_below_bind;
      [apply keeps_frames_below_setFunction | intros _; keeps_pure].
  - apply keeps_environment_below. unfold executePrintStatement.
    apply keeps_environment_bind; [apply Hev | intros value].
    apply keeps_environment_bind; [keeps_pure | intros _; keeps_pure].
Qed.

End Discipline.

(** Evaluating an expression leaves [i.environment] as it was; executing a
    statement changes at most the innermost frame.  The frames reached
    through [parent] are thus the same before and after, which is what lets
    a saved [oldEnv] stand for the frame it points to. *)
Lemma environment_discipline fuel :
  (forall e, keeps_environment (evaluateExpression fuel e))
  /\ (forall st, keeps_frames_below (executeStatement fuel st)).
Proof.
  induction fuel as [|fuel [Hev Hex]].
  - split; intros; keeps_pure.
  - split; intros x; cbn [evaluateExpression executeStatement].
    + apply (keeps_expression_step _ _ Hev).
    + apply (keeps_statement_step _ _ Hev Hex).
Qed.

(** *** Fuel: what a run has printed when it is cut short *)

(** A computation that prints nothing. *)
Lemma extends_quiet {A} (m : M Interpreter A) :
  (forall s, stdout (snd (m s)) = stdout s) -> extends m m.
Proof.
  intros H s. rewrite H. split; [reflexivity|].
  destruct (fst (m s)); reflexivity.
Qed.

Lemma extends_timeout {A} (m1 m2 : M Interpreter A) :
  extends m1 m2 -> extends timeout m2.
Proof. intros H s. split; exact (proj1 (H s)). Qed.

Lemma extends_bind {A B} (m1 m2 : M Interpreter A)
    (k1 k2 : A -> M Interpreter B) :
  extends m1 m2 -> (forall a, extends (k1 a) (k2 a)) ->
  extends (bind m1 k1) (bind m2 k2).
Proof.
  intros Hm Hk s. destruct (Hm s) as [Hg He]. unfold bind.
  destruct (m2 s) as [r2 s2] eqn:E2. cbn [snd] in Hg, He.
  assert (Hg2 : forall t, stdout s2 `prefix_of` t ->
            stdout s `prefix_of` t)
    by (intros t Ht; etransitivity; eassumption).
  split.
  - destruct r2 as [a|e|e|]; try exact Hg.
    apply Hg2. exact (proj1 (Hk a s2)).
  - destruct (m1 s) as [[a|e|e|] s1]; cbn [fst snd] in *;
      try (injection He as -> ->; cbn [fst]; reflexivity).
    + injection He as -> ->. exact (proj2 (Hk a s1)).
    + destruct r2 as [a|e|e|]; try exact He.
      etransitivity; [exact He | exact (proj1 (Hk a s2))].
Qed.

Lemma extends_in_environment {A} env (m1 m2 : M Interpreter A) :
  extends m1 m2 -> extends (in_environment env m1) (in_environment env m2).
Proof.
  intros Hm s. destruct (Hm (set_environment env s)) as [Hg He].
  unfold in_environment.
  destruct (m2 (set_environment env s)) as [r2 s2].
  destruct (m1 (set_environment env s)) as [r1 s1].
  cbn [fst snd set_environment stdout] in *. split; [exact Hg|].
  destruct r1; try exact He; injection He as -> ->; reflexivity.
Qed.

Lemma extends_Println line : extends (Println line) (Println line).
Proof.
  intros s. split; [|reflexivity]. cbn. apply prefix_app_r. reflexivity.
Qed.

Ltac extends_leaf := apply extends_quiet; intros ?; reflexivity.

Section Extension.

Variables (ev1 ev2 : Expression -> M Interpreter Value).
Variables (ex1 ex2 : Statement -> M Interpreter Value).
Hypothesis Hev : forall e, extends (ev1 e) (ev2 e).
Hypothesis Hex : forall st, extends (ex1 st) (ex2 st).

Lemma extends_executeStatements body :
  extends (executeStatements ex1 body) (executeStatements ex2 body).
Proof.
  induction body as [|st body IH]; cbn [executeStatements];
    [extends_leaf|].
  apply extends_bind; [apply Hex | intros _; exact IH].
Qed.

Lemma extends_evaluateArguments args acc :
  extends (evaluateArguments ev1 args acc) (evaluateArguments ev2 args acc).
Proof.
  revert acc. induction args as [|a args IH]; intros acc;
    cbn [evaluateArguments]; [extends_leaf|].
  apply extends_bind; [apply Hev | intros v; apply IH].
Qed.

Lemma extends_bind_parameters name ps args env :
  extends (bind_parameters name ps args env)
    (bind_parameters name ps args env).
Proof.
  revert args env. induction ps as [|p ps IH]; intros [|a args] env;
    cbn [bind_parameters]; try extends_leaf.
  destruct (negb _); [extends_leaf | apply IH].
Qed.

Lemma extends_loop n1 n2 var body j to :
  (n1 <= n2)%nat ->
  extends (executeLoopStatement_loop ex1 n1 var body j to)
    (executeLoopStatement_loop ex2 n2 var body j to).
Proof.
  revert n1 j. induction n2 as [|n2 IH]; intros n1 j Hn;
    destruct n1 as [|n1]; try lia;
    cbn [executeLoopStatement_loop];
    destruct (float64.leb j to); try extends_leaf.
  - apply (extends_timeout
             (setVariable var (NumberValue j);;
              executeStatements ex1 body;;
              executeLoopStatement_loop ex1 0 var body
                (float64.add j one) to)).
    apply extends_bind; [extends_leaf | intros _].
    apply extends_bind; [apply extends_executeStatements | intros _].
    apply IH. lia.
  - apply extends_bind; [extends_leaf | intros _].
    apply extends_bind; [apply extends_executeStatements | intros _].
    apply IH. lia.
Qed.

Lemma extends_expression_step e :
  extends
    match e with
    | Literal v t => evaluateLiteral v t
    | Identifier name => evaluateIdentifier name
    | BinaryExpression l op r => evaluateBinaryExpression ev1 l op r
    | UnaryExpression op e => evaluateUnaryExpression ev1 op e
    | FunctionCall name args => evaluateFunctionCall ev1 ex1 name args
    end
    match e with
    | Literal v t => evaluateLiteral v t
    | Identifier name => evaluateIdentifier name
    | BinaryExpression l op r => evaluateBinaryExpression ev2 l op r
    | UnaryExpression op e => evaluateUnaryExpression ev2 op e
    | FunctionCall name args => evaluateFunctionCall ev2 ex2 name args
    end.
Proof.
  destruct e as [v t|name|l op r|op e|name args].
  - apply extends_quiet. intros i. unfold evaluateLiteral.
    destruct t, v; try reflexivity. destruct (fmt.Sscanf_f s); reflexivity.
  - apply extends_quiet. intros i. unfold evaluateIdentifier, bind. cbn [get].
    destruct (GetVariable (environment i) name); reflexivity.
  - unfold evaluateBinaryExpression.
    apply extends_bind; [apply Hev | intros lv].
    apply extends_bind; [apply Hev | intros rv].
    repeat match goal with
           | |- extends (if ?c then _ else _) _ => destruct c
           end;
      apply extends_quiet; intros i; destruct lv, rv; try reflexivity.
    unfold divide. destruct (float64.eqb _ _); reflexivity.
  - unfold evaluateUnaryExpression.
    apply extends_bind; [apply Hev | intros v].
    repeat match goal with
           | |- extends (if ?c then _ else _) _ => destruct c
           end;
      apply extends_quiet; intros i; destruct v; reflexivity.
  - unfold evaluateFunctionCall.
    apply extends_bind; [extends_leaf | intros i0].
    destruct (GetFunction (environment i0) name); [|extends_leaf].
    apply extends_bind; [apply extends_evaluateArguments | intros vs].
    destruct (negb _); [extends_leaf|].
    apply extends_bind; [extends_leaf | intros i1].
    apply extends_bind; [apply extends_bind_parameters | intros env].
    apply extends_in_environment.
    apply extends_bind; [apply extends_executeStatements | intros _].
    extends_leaf.
Qed.

Lemma extends_statement_step st n1 n2 :
  (n1 <= n2)%nat ->
  extends
    match st with
    | VariableDeclaration t name v => executeVariableDeclaration ev1 t name v
    | Assignment name v => executeAssignment ev1 name v
    | IfStatement c t e => executeIfStatement ev1 ex1 c t e
    | LoopStatement v f t b => executeLoopStatement ev1 ex1 n1 v f t b
    | FunctionDeclaration n ps r b => executeFunctionDeclaration n ps r b
    | PrintStatement v => executePrintStatement ev1 v
    end
    match st with
    | VariableDeclaration t name v => executeVariableDeclaration ev2 t name v
    | Assignment name v => executeAssignment ev2 name v
    | IfStatement c t e => executeIfStatement ev2 ex2 c t e
    | LoopStatement v f t b => executeLoopStatement ev2 ex2 n2 v f t b
    | FunctionDeclaration n ps r b => executeFunctionDeclaration n ps r b
    | PrintStatement v => executePrintStatement ev2 v
    end.
Proof.
  intros Hn. destruct st as [t name v|name v|c t e|v f t b|n ps r b|v].
  - unfold executeVariableDeclaration.
    apply extends_bind; [apply Hev | intros value].
    destruct (negb _); [extends_leaf|].
    apply extends_bind; [extends_leaf | intros _; extends_leaf].
  - unfold executeAssignment.
    apply extends_bind; [apply Hev | intros value].
    apply extends_bind; [extends_leaf | intros i0].
    destruct (GetVariable (environment i0) name); [|extends_leaf].
    apply extends_bind; [extends_leaf | intros _; extends_leaf].
  - unfold executeIfStatement.
    apply extends_bind; [apply Hev | intros cv].
    destruct cv as [x|x|b|]; try extends_leaf.
    apply extends_bind; [|intros _; extends_leaf].
    destruct b; apply extends_executeStatements.
  - unfold executeLoopStatement.
    apply extends_bind; [apply Hev | intros fv].
    apply extends_bind; [apply Hev | intros tv].
    destruct fv; try extends_leaf.
    destruct tv; try extends_leaf.
    apply extends_bind; [extends_leaf | intros i].
    apply extends_in_environment.
    apply extends_bind; [|intros _; extends_leaf].
    apply extends_loop. exact Hn.
  - unfold executeFunctionDeclaration.
    apply extends_bind; [extends_leaf | intros _; extends_leaf].
  - unfold executePrintStatement.
    apply extends_bind; [apply Hev | intros value].
    apply extends_bind; [apply extends_Println | intros _; extends_leaf].
Qed.

End Extension.

(** More fuel takes a run further and changes nothing of what it has done. *)
Lemma fuel_extends f2 :
  forall f1, (f1 <= f2)%nat ->
    (forall e, extends (evaluateExpression f1 e) (evaluateExpression f2 e))
    /\ (forall st, extends (executeStatement f1 st) (executeStatement f2 st)).
Proof.
  induction f2 as [|f2 IH]; intros f1 Hle.
  - destruct f1; [|lia]. split; intros; extends_leaf.
  - destruct (IH f2 (le_n f2)) as [Hev2 Hex2].
    destruct f1 as [|f1].
    + split; intros x; cbn [evaluateExpression executeStatement].
      * exact (extends_timeout _ _
                 (extends_expression_step _ _ _ _ Hev2 Hex2 x)).
      * exact (extends_timeout _ _
                 (extends_statement_step _ _ _ _ Hev2 Hex2 x f2 f2 (le_n f2))).
    + destruct (IH f1) as [Hev Hex]; [lia|].
      split; intros x; cbn [evaluateExpression executeStatement].
      * apply (extends_expression_step _ _ _ _ Hev Hex x).
      * apply (extends_statement_step _ _ _ _ Hev Hex x f1 f2). lia.
Qed.

Lemma run_extends f1 f2 program :
  (f1 <= f2)%nat ->
  snd (run f1 program) `prefix_of` snd (run f2 program)
  /\ (completed (fst (run f1 program)) -> run f2 program = run f1 program).
Proof.
  intros Hle. unfold run, Interpret.
  pose proof (extends_executeStatements _ _
                (proj2 (fuel_extends f2 f1 Hle)) (Statements program)
                NewInterpreter) as [_ H].
  destruct (executeStatements (executeStatement f1) _ _) as [r1 s1].
  destruct (executeStatements (executeStatement f2) _ _) as [r2 s2].
  cbn [fst snd] in *.
  destruct r1; cbn [completed];
    try (injection H as -> ->; split; [reflexivity | reflexivity]).
  split; [exact H | intros []].
Qed.



(** ** Programs run from their source text *)

(** Neither the scanner nor the parser leaves the pipeline unfinished, and
    neither makes it crash. *)
Lemma pipeline_answers fuel source :
  main.pipeline fuel source <> main.Unfinished
  /\ forall msg, main.pipeline fuel source <> main.Crashed msg.
Proof.
  unfold main.pipeline.
  pose proof (Tokenize_returns source) as Hs.
  destruct (Tokenize source) as [tokens|e|e|];
    [|split; intros; discriminate|destruct Hs..].
  pose proof (Parse_returns tokens) as Hp.
  destruct (parser.Parse tokens) as [program|e|e|];
    [|split; intros; discriminate|destruct Hp..].
  destruct (run fuel program). split; intros; discriminate.
Qed.


(** C1 (assignment to a variable of an outer frame).  [executeAssignment]
    writes the value into the innermost frame, whichever frame holds the
    variable, and leaves the frames below untouched: the product accumulated
    inside the loop is lost when the loop's frame is left, and the factorial
    program prints 1. *)
Theorem C1_assignment_writes_innermost_frame :
  main.pipeline 16 scenarios.factorial = main.Executed (Ok tt) ["1"]
  /\ forall evaluateExpression Name Value i value i1 held,
       evaluateExpression Value i = (Ok value, i1) ->
       GetVariable (environment i1) Name = Some held ->
       executeAssignment evaluateExpression Name Value i
       = (Ok value,
          set_environment (SetVariable (environment i1) Name value) i1)
       /\ parent (SetVariable (environment i1) Name value)
          = parent (environment i1).
Proof.
  split; [vm_compute; reflexivity|].
  intros ev Name Value i value i1 held He Hg. split; [|reflexivity].
  unfold executeAssignment, bind. rewrite He. cbn [get]. rewrite Hg.
  reflexivity.
Qed.

(** C2, as stated, fails: scenario 5 writes two lines.  The bare call is
    wrapped in a [PrintStatement], so the value of the call is printed after
    the body has run: the second line is [void]. *)
Theorem C2_bare_call_prints_void :
  main.pipeline 16 scenarios.greet = main.Executed (Ok tt) ["Hi Ada"; "void"].
Proof. vm_compute. reflexivity. Qed.

Lemma call_value fuel name args i v i' :
  evaluateExpression fuel (FunctionCall name args) i = (Ok v, i') ->
  v = VoidValue.
Proof.
  destruct fuel as [|fuel]; [discriminate|].
  cbn [evaluateExpression]. unfold evaluateFunctionCall.
  unfold bind at 1. cbn [get].
  destruct (GetFunction (environment i) name) as [f|]; [|discriminate].
  unfold bind at 1.
  destruct (evaluateArguments _ _ _ _) as [[vs|msg|msg|] i1]; try discriminate.
  destruct (negb _); [discriminate|].
  unfold bind at 1. cbn [get]. unfold bind at 1.
  destruct (bind_parameters _ _ _ _ _) as [[env|msg|msg|] i2]; try discriminate.
  unfold in_environment, bind.
  destruct (executeStatements _ _ _) as [[u|msg|msg|] i3]; cbn [ret];
    intros [= <- _] || discriminate.
  reflexivity.
Qed.

(** C2 (amended).  A statement that starts with an identifier that no
    [=] follows is parsed as an expression wrapped in a [PrintStatement].
    Executing the [PrintStatement] of a call that returns evaluates the
    call, which gives [void] whatever the body does, and then prints that
    value: after the lines the call has written, the statement writes the
    line [void]. *)
Theorem C2_bare_call_prints_its_value fuel name args i v i1 :
  evaluateExpression fuel (FunctionCall name args) i = (Ok v, i1) ->
  executeStatement (S fuel) (PrintStatement (FunctionCall name args)) i
  = (Ok VoidValue, mkInterpreter (environment i1) (stdout i1 ++ ["void"]))
  /\ forall pfuel p t t',
       current p = (Ok t, p) -> peek p = (Ok t', p) ->
       lexer.Type_ t = TokenIdentifier -> lexer.Type_ t' <> TokenAssign ->
       parseStatement (S pfuel) p
       = (let* expr := parseExpression (S pfuel) in
          ret (PrintStatement expr)) p.
Proof.
  intros He. split.
  - cbn [executeStatement]. unfold executePrintStatement.
    unfold bind at 1. rewrite He.
    rewrite (call_value _ _ _ _ _ _ He). reflexivity.
  - intros pfuel p t t' Hc Hp Ht Ht'. cbn [parseStatement].
    unfold parseStatement_body. unfold bind at 1. rewrite Hc, Ht.
    unfold bind at 1. rewrite Hp.
    rewrite bool_decide_false by exact Ht'. reflexivity.
Qed.

Lemma C2_bare_call_prints_its_value_witness :
  (executeStatement 7 (PrintStatement greet_call) greet_declared
   = (Ok VoidValue,
      mkInterpreter
        (environment (snd (evaluateExpression 6 greet_call greet_declared)))
        (stdout (snd (evaluateExpression 6 greet_call greet_declared))
         ++ ["void"]))
   /\ forall pfuel p t t',
        current p = (Ok t, p) -> peek p = (Ok t', p) ->
        lexer.Type_ t = TokenIdentifier -> lexer.Type_ t' <> TokenAssign ->
        parseStatement (S pfuel) p
        = (let* expr := parseExpression (S pfuel) in
           ret (PrintStatement expr)) p)
  /\ stdout (snd (evaluateExpression 6 greet_call greet_declared))
     = ["Hi Ada"]
  /\ stdout (snd (executeStatement 7 (PrintStatement greet_call)
                    greet_declared))
     = ["Hi Ada"; "void"].
Proof.
  split; [|split; vm_compute; reflexivity].
  apply (C2_bare_call_prints_its_value 6 "greet"
           [Literal (PString "Ada") TextType] greet_declared VoidValue
           (snd (evaluateExpression 6 greet_call greet_declared))).
  vm_compute. reflexivity.
Defined.

(** C4 (a number lexeme with two periods).  At a digit the scanner always
    produces a number token, and it produces one for [1.2.3]; the evaluator
    reads that literal as the number 1.2 and reports no error. *)
Theorem C4_two_periods_evaluate :
  (forall l, unicode.IsDigit (currentChar l) = true ->
     lexer.Type_ (fst (nextToken l)) = TokenNumber)
  /\ Tokenize scenarios.two_periods
     = Ok [mkToken TokenPrint "print" 1 1 (PString "print");
           mkToken TokenNumber "1.2.3" 1 8 (PString "1.2.3");
           mkToken TokenEOF EmptyString 1 13 PNil]
  /\ evaluateLiteral (PString "1.2.3") NumberType NewInterpreter
     = (Ok (NumberValue (float64.of_ratio 12 10)), NewInterpreter)
  /\ main.pipeline 16 scenarios.two_periods = main.Executed (Ok tt) ["1.2"].
Proof.
  split; [|repeat split; vm_compute; reflexivity].
  intros l H. unfold nextToken. cbv zeta. rewrite H. reflexivity.
Qed.

(** * The scanner, the parser and the evaluator on their own *)

Import scanning evaluation syntax soundness.

(** ** Strings as arrays of bytes *)

Lemma get_in_bounds s : forall n,
  (n < String.length s)%nat -> exists c, String.get n s = Some c.
Proof.
  induction s as [|c s IH]; intros n H; cbn in *; [lia|].
  destruct n as [|n]; [eauto|]. apply IH. lia.
Qed.

Lemma get_out_of_bounds s : forall n,
  (String.length s <= n)%nat -> String.get n s = None.
Proof.
  induction s as [|c s IH]; intros n H; cbn in *; [reflexivity|].
  destruct n as [|n]; [lia|]. apply IH. lia.
Qed.

Lemma currentChar_get l :
  at_end l = false -> String.get (position l) (input l) = Some (currentChar l).
Proof.
  intros H. unfold currentChar. rewrite H.
  unfold at_end in H. apply Nat.leb_gt in H.
  destruct (get_in_bounds (input l) (position l) H) as [c Hc].
  rewrite Hc. reflexivity.
Qed.

Lemma currentChar_at_end l : at_end l = true -> currentChar l = Ascii.zero.
Proof. intros H. unfold currentChar. rewrite H. reflexivity. Qed.

Lemma substring_cons s : forall n m c,
  String.get n s = Some c ->
  String.substring n (S m) s = String c (String.substring (S n) m s).
Proof.
  induction s as [|a s IH]; intros n m c H; cbn in H; [discriminate|].
  destruct n as [|n].
  - injection H as ->. cbn. reflexivity.
  - cbn [String.substring]. rewrite (IH n m c H). reflexivity.
Qed.

Lemma substring_nothing s : forall n, String.substring n 0 s = EmptyString.
Proof.
  induction s as [|a s IH]; intros [|n]; cbn; try reflexivity. apply IH.
Qed.

(** A slice of bytes that satisfy [P] satisfies [P] throughout, and is as long
    as the range it was cut from. *)
Lemma substring_chars P s : forall m n,
  chars_between P s n (n + m) ->
  all_chars P (String.substring n m s) = true
  /\ String.length (String.substring n m s) = m.
Proof.
  induction m as [|m IH]; intros n H.
  - rewrite substring_nothing. split; reflexivity.
  - destruct (H n ltac:(lia)) as (c & Hc & HP).
    rewrite (substring_cons s n m c Hc).
    destruct (IH (S n)) as [Ha Hl].
    { intros k Hk. apply H. lia. }
    unfold all_chars in *. cbn. rewrite HP, Ha, Hl. split; reflexivity.
Qed.

Lemma all_chars_get P s : forall n c,
  all_chars P s = true -> String.get n s = Some c -> P c = true.
Proof.
  unfold all_chars.
  induction s as [|a s IH]; intros n c H Hg; cbn in *; [discriminate|].
  apply andb_prop in H as [Ha Hs].
  destruct n as [|n]; [congruence | exact (IH n c Hs Hg)].
Qed.

(** ** The scanner's inner loops *)

Lemma skipWhitespace_loop_scan n : forall l,
  skipWhitespace_loop n l = scan_while unicode.IsSpace count_space n l.
Proof.
  induction n as [|n IH]; intros l; cbn [skipWhitespace_loop scan_while];
    [reflexivity|].
  destruct (negb (at_end l) && _); [apply IH | reflexivity].
Qed.

Lemma readNumber_loop_scan n : forall l,
  readNumber_loop n l = scan_while in_number (fun l => l) n l.
Proof.
  induction n as [|n IH]; intros l; cbn [readNumber_loop scan_while];
    [reflexivity|].
  unfold in_number at 1.
  destruct (negb (at_end l) && _); [apply IH | reflexivity].
Qed.

Lemma readIdentifierOrKeyword_loop_scan n : forall l,
  readIdentifierOrKeyword_loop n l = scan_while in_word (fun l => l) n l.
Proof.
  induction n as [|n IH]; intros l;
    cbn [readIdentifierOrKeyword_loop scan_while]; [reflexivity|].
  unfold in_word at 1.
  destruct (negb (at_end l) && _); [apply IH | reflexivity].
Qed.

Lemma readText_loop_scan n : forall l,
  readText_loop n l = scan_while in_text count_line n l.
Proof.
  induction n as [|n IH]; intros l; cbn [readText_loop scan_while];
    [reflexivity|].
  unfold in_text at 1.
  destruct (negb (at_end l) && _); [apply IH | reflexivity].
Qed.

Lemma counts_only_id : counts_only (fun l => l).
Proof. intros l. repeat split; lia. Qed.

Lemma counts_only_count_space : counts_only count_space.
Proof.
  intros l. unfold count_space.
  destruct (char_is _ _); cbn; repeat split; lia.
Qed.

Lemma counts_only_count_line : counts_only count_line.
Proof.
  intros l. unfold count_line.
  destruct (char_is _ _); cbn; repeat split; lia.
Qed.

Lemma reads_on_refl l : reads_on l l.
Proof. repeat split; (reflexivity || lia || auto). Qed.

Lemma reads_on_trans l1 l2 l3 :
  reads_on l1 l2 -> reads_on l2 l3 -> reads_on l1 l3.
Proof.
  intros (I1 & T1 & P1 & L1 & C1) (I2 & T2 & P2 & L2 & C2).
  repeat split; try congruence; try lia; auto.
Qed.

Lemma reads_on_advance l : reads_on l (lexer.advance l).
Proof. repeat split; cbn; lia. Qed.

Lemma reads_on_count count l :
  counts_only count -> reads_on l (lexer.advance (count l)).
Proof.
  intros H. destruct (H l) as (I & P & T & L & C).
  repeat split; cbn; try assumption; lia.
Qed.

Section ScanWhile.

Variable P : ascii -> bool.
Variable count : Lexer -> Lexer.
Hypothesis Hcount : counts_only count.

Lemma scan_while_reads_on n : forall l, reads_on l (scan_while P count n l).
Proof.
  induction n as [|n IH]; intros l; cbn [scan_while]; [apply reads_on_refl|].
  destruct (negb (at_end l) && P (currentChar l)); [|apply reads_on_refl].
  exact (reads_on_trans _ _ _ (reads_on_count count l Hcount) (IH _)).
Qed.

(** The bytes the loop passes over all satisfy its test. *)
Lemma scan_while_chars n : forall l,
  chars_between P (input l) (position l) (position (scan_while P count n l)).
Proof.
  induction n as [|n IH]; intros l; cbn [scan_while]; [intros k Hk; lia|].
  destruct (negb (at_end l)) eqn:He; cbn [andb]; [|intros k Hk; lia].
  destruct (P (currentChar l)) eqn:HP; [|intros k Hk; lia].
  apply negb_true_iff in He.
  destruct (Hcount l) as (Hi & Hp & _).
  specialize (IH (lexer.advance (count l))). cbn [input position lexer.advance] in IH.
  rewrite Hi, Hp in IH.
  intros k Hk. destruct (Nat.eq_dec k (position l)) as [->|Hne].
  - exists (currentChar l). split; [apply currentChar_get, He | exact HP].
  - apply IH. lia.
Qed.

(** With a trip count of at least the bytes left, the loop stops where its
    test fails. *)
Lemma scan_while_stops n : forall l,
  (remaining l <= n)%nat ->
  at_end (scan_while P count n l) = true
  \/ P (currentChar (scan_while P count n l)) = false.
Proof.
  induction n as [|n IH]; intros l Hr; cbn [scan_while].
  - left. unfold at_end, remaining in *. apply Nat.leb_le. lia.
  - destruct (at_end l) eqn:He; cbn [negb andb]; [left; exact He|].
    destruct (P (currentChar l)) eqn:HP; [|right; exact HP].
    apply IH. destruct (Hcount l) as (Hi & Hp & _).
    unfold remaining, len in *. cbn [input position lexer.advance].
    rewrite Hi, Hp. lia.
Qed.

End ScanWhile.

Lemma skipWhitespace_reads_on l : reads_on l (skipWhitespace l).
Proof.
  unfold skipWhitespace. rewrite skipWhitespace_loop_scan.
  apply scan_while_reads_on, counts_only_count_space.
Qed.

(** ** One token *)

Lemma getKeywordType_word value : getKeywordType value ∈ word_types.
Proof.
  unfold getKeywordType, word_types.
  repeat destruct (string_dec _ _);
    compute_done.
Qed.

(** The test for a boolean keyword in [readIdentifierOrKeyword] never
    succeeds: the token is the word with the type [getKeywordType] gives. *)
Lemma readIdentifierOrKeyword_word l :
  readIdentifierOrKeyword l
  = let l' := scan_while in_word (fun l => l) (remaining l) l in
    let value := slice l' (position l) (position l') in
    (mkToken (getKeywordType value) value (line l') (column l) (PString value),
     l').
Proof.
  unfold readIdentifierOrKeyword. rewrite readIdentifierOrKeyword_loop_scan.
  cbv zeta.
  set (value := slice _ _ _).
  pose proof (getKeywordType_word value) as H.
  destruct (bool_decide (getKeywordType value = TokenBoolean)) eqn:E;
    [|reflexivity].
  apply bool_decide_eq_true in E. rewrite E in H. exfalso. revert H.
  unfold word_types. rewrite !elem_of_cons, elem_of_nil. intuition discriminate.
Qed.

Lemma single_token ty v l :
  single ty v l = (mkToken ty v (line l) (column l) PNil, lexer.advance l).
Proof.
  unfold single. cbn. f_equal. f_equal. lia.
Qed.

Lemma with_equal_token ty2 v2 ty1 v1 l :
  with_equal ty2 v2 ty1 v1 l
  = if char_is (currentChar (lexer.advance l)) "="%char
    then (mkToken ty2 v2 (line l) (column l) PNil,
          lexer.advance (lexer.advance l))
    else (mkToken ty1 v1 (line l) (column l) PNil, lexer.advance l).
Proof.
  unfold with_equal. destruct (char_is _ _); cbn; f_equal; f_equal; lia.
Qed.

(** The five ways in which [nextToken] answers. *)
Lemma nextToken_cases l :
  (unicode.IsDigit (currentChar l) = true /\ nextToken l = readNumber l)
  \/ (char_is (currentChar l) quote = true /\ nextToken l = readText l)
  \/ (unicode.IsLetter (currentChar l) = true
      /\ nextToken l = readIdentifierOrKeyword l)
  \/ (exists ty v l',
        (ty, v) ∈ punctuation
        /\ nextToken l = (mkToken ty v (line l) (column l) PNil, l')
        /\ (l' = lexer.advance l \/ l' = lexer.advance (lexer.advance l)))
  \/ (nextToken l
      = (mkToken TokenError
           ("unexpected character: " ++ unicode.encode_rune (currentChar l))
           (line l) (column l) PNil, l)).
Proof.
  unfold nextToken. cbv zeta.
  destruct (unicode.IsDigit (currentChar l)); [left; auto|].
  destruct (char_is (currentChar l) quote); [right; left; auto|].
  destruct (unicode.IsLetter (currentChar l)); [right; right; left; auto|].
  rewrite ?single_token, ?with_equal_token.
  repeat match goal with
         | |- context [if char_is (currentChar l) ?c then _ else _] =>
             destruct (char_is (currentChar l) c)
         end;
    try (right; right; right; right; reflexivity);
    right; right; right; left;
    try destruct (char_is (currentChar (lexer.advance l)) "="%char);
    do 3 eexists; (split; [|split; [reflexivity|auto]]);
    compute_done.
Qed.

Lemma slice_input l l' start stop :
  input l' = input l -> slice l' start stop = slice l start stop.
Proof. unfold slice. intros ->. reflexivity. Qed.

(** The lexeme a loop has passed over, cut out of the input. *)
Lemma scanned_slice P count n l :
  counts_only count ->
  let l' := scan_while P count n l in
  all_chars P (slice l' (position l) (position l')) = true
  /\ String.length (slice l' (position l) (position l'))
     = (position l' - position l)%nat.
Proof.
  intros Hc l'.
  pose proof (scan_while_reads_on P count Hc n l) as (Hi & _ & Hp & _).
  pose proof (scan_while_chars P count Hc n l) as Hch.
  fold l' in Hi, Hp, Hch. unfold slice. rewrite Hi.
  apply substring_chars.
  replace (position l + (position l' - position l))%nat with (position l')
    by lia.
  exact Hch.
Qed.


(** The lexeme of a loop that starts on a byte it accepts: that byte and
    what follows it. *)
Lemma scanned_lexeme P l :
  at_end l = false -> P (currentChar l) = true ->
  let l' := scan_while P (fun l => l) (remaining l) l in
  exists rest,
    slice l' (position l) (position l') = String (currentChar l) rest
    /\ all_chars P rest = true.
Proof.
  intros He HP l'.
  pose proof (remaining_positive l He) as Hr.
  pose proof (scan_while_reads_on P _ counts_only_id (remaining l) l)
    as (Hi & _ & _).
  fold l' in Hi.
  assert (Hl' : l' = scan_while P (fun l => l) (remaining l - 1)
                       (lexer.advance l)).
  { unfold l'. destruct (remaining l) as [|n]; [lia|]. cbn [scan_while].
    rewrite He, HP. cbn [negb andb]. f_equal. lia. }
  pose proof (scan_while_reads_on P _ counts_only_id (remaining l - 1)
                (lexer.advance l)) as (_ & _ & Hp & _).
  pose proof (scan_while_chars P _ counts_only_id (remaining l - 1)
                (lexer.advance l)) as Hch.
  rewrite <- Hl' in Hp, Hch. cbn [position input lexer.advance] in Hp, Hch.
  unfold slice. rewrite Hi.
  replace (position l' - position l)%nat
    with (S (position l' - S (position l))) by lia.
  rewrite (substring_cons _ _ _ _ (currentChar_get l He)).
  eexists. split; [reflexivity|].
  apply substring_chars.
  replace (S (position l) + (position l' - S (position l)))%nat
    with (position l') by lia.
  exact Hch.
Qed.

Lemma nextToken_reads_on l : reads_on l (snd (nextToken l)).
Proof.
  destruct (nextToken_cases l)
    as [[_ ->]|[[_ ->]|[[_ ->]|[(ty & v & l' & _ & -> & Hl')| ->]]]];
    cbn [snd].
  - unfold readNumber. cbn [snd]. rewrite readNumber_loop_scan.
    apply scan_while_reads_on, counts_only_id.
  - unfold readText. rewrite readText_loop_scan.
    pose proof (reads_on_trans _ _ _ (reads_on_advance l)
                  (scan_while_reads_on in_text _ counts_only_count_line
                     (remaining (lexer.advance l)) (lexer.advance l))) as H.
    destruct (at_end (scan_while _ _ _ _)); cbn [snd]; [exact H|].
    exact (reads_on_trans _ _ _ H (reads_on_advance _)).
  - rewrite readIdentifierOrKeyword_word. cbn [snd].
    apply scan_while_reads_on, counts_only_id.
  - destruct Hl' as [-> | ->]; [apply reads_on_advance|].
    exact (reads_on_trans _ _ _ (reads_on_advance l) (reads_on_advance _)).
  - apply reads_on_refl.
Qed.

(** A token is reported at the line the scanner has reached when the token
    is complete, and at the column the scanner was at when the token began. *)
Lemma nextToken_place l :
  Line (fst (nextToken l)) = line (snd (nextToken l))
  /\ Column (fst (nextToken l)) = column l.
Proof.
  destruct (nextToken_cases l)
    as [[_ ->]|[[_ ->]|[[_ ->]|[(ty & v & l' & _ & -> & Hl')| ->]]]];
    cbn [fst snd].
  - unfold readNumber. cbn. split; reflexivity.
  - unfold readText. destruct (at_end (readText_loop _ _)); cbn;
      split; reflexivity.
  - rewrite readIdentifierOrKeyword_word. cbn. split; reflexivity.
  - destruct Hl' as [-> | ->]; cbn; split; reflexivity.
  - cbn. split; reflexivity.
Qed.

(** Every token that [nextToken] returns, the error token apart, is a token
    of the language. *)
Lemma nextToken_well_formed l :
  at_end l = false ->
  lexer.Type_ (fst (nextToken l)) <> TokenError ->
  well_formed (fst (nextToken l)).
Proof.
  intros He.
  destruct (nextToken_cases l)
    as [[Hd ->]|[[Hq ->]|[[Hl ->]|[(ty & v & l' & Hin & -> & Hl')| ->]]]];
    cbn [fst]; intros Ht.
  - left. unfold readNumber. cbn [fst lexer.Type_ lexer.Literal lexer.Value].
    rewrite readNumber_loop_scan.
    assert (Hn : in_number (currentChar l) = true)
      by (unfold in_number; rewrite Hd; reflexivity).
    destruct (scanned_lexeme in_number l He Hn) as (rest & Hs & Hr).
    cbv zeta in Hs.
    split; [reflexivity|]. split; [reflexivity|].
    exists (currentChar l), rest. rewrite Hs. auto.
  - right; left. revert Ht. unfold readText. rewrite readText_loop_scan.
    destruct (at_end (scan_while _ _ _ _));
      cbn [fst lexer.Type_ lexer.Literal lexer.Value];
      [intros C; exfalso; apply C; reflexivity | intros _].
    split; [reflexivity|]. split; [reflexivity|].
    apply (scanned_slice in_text count_line _ (lexer.advance l)
             counts_only_count_line).
  - right; right; left. rewrite readIdentifierOrKeyword_word.
    cbn [fst lexer.Type_ lexer.Literal lexer.Value].
    assert (Hw : in_word (currentChar l) = true)
      by (unfold in_word; rewrite Hl; reflexivity).
    destruct (scanned_lexeme in_word l He Hw) as (rest & Hs & Hr).
    cbv zeta in Hs.
    split; [reflexivity|]. split; [reflexivity|].
    exists (currentChar l), rest. rewrite Hs. auto.
  - right; right; right. cbn. auto.
  - exfalso. apply Ht. reflexivity.
Qed.

(** ** The token list *)

(** What holds of the scanner when [Tokenize] starts, and is kept by
    skipping whitespace and by appending a token that is not an error, holds
    when its loop is left. *)
Lemma Tokenize_loop_invariant (I : Lexer -> Prop) :
  (forall l, I l -> I (skipWhitespace l)) ->
  (forall l, I l -> at_end l = false ->
     lexer.Type_ (fst (nextToken l)) <> TokenError ->
     I (push (fst (nextToken l)) (snd (nextToken l)))) ->
  forall fuel l l', I l -> Tokenize_loop fuel l = Ok l' -> I l'.
Proof.
  intros Hskip Hnext. induction fuel as [|fuel IH]; intros l l' Hl;
    cbn [Tokenize_loop]; destruct (at_end l) eqn:He;
    try (intros [= <-]; exact Hl); try discriminate.
  destruct (at_end (skipWhitespace l)) eqn:He';
    [intros [= <-]; apply Hskip, Hl|].
  pose proof (Hnext _ (Hskip _ Hl) He') as Hn.
  destruct (nextToken (skipWhitespace l)) as [token l1]. cbn [fst snd] in Hn.
  destruct (bool_decide (lexer.Type_ token = TokenError)) eqn:Et;
    [discriminate|].
  apply bool_decide_eq_false in Et. apply IH, Hn, Et.
Qed.

Lemma one_based_reads_on l l' : one_based l -> reads_on l l' -> one_based l'.
Proof.
  intros [Hl Hc] (_ & _ & _ & Hl' & Hc'). split; [lia | auto].
Qed.

(** The token list of a successful scan: the tokens [nextToken] returned, in
    the order of the calls, followed by the end-of-input token that carries
    the final counters; at most one token for each byte of the source. *)
Lemma Tokenize_produced source ts :
  Tokenize source = Ok ts ->
  exists l,
    ts = (lexer.tokens l ++ [eof_at l])%list
    /\ Forall (produced source) (lexer.tokens l)
    /\ one_based l
    /\ (length (lexer.tokens l) <= String.length source)%nat.
Proof.
  unfold Tokenize, Tokenize_from.
  destruct (Tokenize_loop _ _) as [l| | |] eqn:E; try discriminate.
  intros [= <-]. exists l.
  pose (I := fun l : Lexer =>
    input l = source /\ one_based l
    /\ Forall (produced source) (lexer.tokens l)
    /\ (length (lexer.tokens l) <= position l)%nat
    /\ (length (lexer.tokens l) <= String.length source)%nat).
  assert (H : I l).
  { revert E. apply (Tokenize_loop_invariant I).
    - intros l0 (Hi & Hb & Hf & Hp & Hs).
      pose proof (skipWhitespace_reads_on l0) as R.
      pose proof R as (Ri & Rt & Rp & _).
      unfold I. rewrite Ri, Rt.
      repeat split; try assumption; try lia;
        apply (one_based_reads_on _ _ Hb R).
    - intros l0 (Hi & Hb & Hf & Hp & Hs) He Ht.
      pose proof (nextToken_reads_on l0) as R.
      pose proof R as (Ri & Rt & Rp & _).
      pose proof (nextToken_further l0 He Ht) as [_ Hfur].
      assert (Hlt : (position l0 < String.length source)%nat).
      { unfold at_end, len in He. apply Nat.leb_gt in He. congruence. }
      unfold I. cbn [push input lexer.tokens position line column one_based].
      rewrite Ri, Rt, length_app. cbn [length].
      repeat split; try assumption; try lia;
        try apply (one_based_reads_on _ _ Hb R).
      apply Forall_app. split; [assumption|].
      apply Forall_singleton. exists l0. auto.
    - unfold I, NewLexer, one_based. cbn. repeat split; try lia; constructor. }
  destruct H as (Hi & Hb & Hf & Hp & Hs).
  cbn [push lexer.tokens]. auto.
Qed.

Lemma well_formed_type t :
  well_formed t ->
  (lexer.Type_ t ∉ [TokenEOF; TokenError; TokenBoolean; TokenAnd; TokenOr])
  /\ forall b, lexer.Literal t <> PBool b.
Proof.
  intros [(Ht & Hl & _)|[(Ht & Hl & _)|[(Ht & Hl & _)|(Hin & Hl)]]];
    (split; [|intros b; rewrite Hl; discriminate]).
  - rewrite Ht. compute_done.
  - rewrite Ht. compute_done.
  - pose proof (getKeywordType_word (lexer.Value t)) as Hw.
    rewrite <- Ht in Hw. revert Hw. unfold word_types.
    rewrite !elem_of_cons, !elem_of_nil.
    intros Hw Hn. repeat destruct Hw as [Hw|Hw]; try contradiction;
      rewrite Hw in Hn; revert Hn; compute_done.
  - revert Hin. unfold punctuation. rewrite !elem_of_cons, !elem_of_nil.
    intros Hin Hn.
    repeat destruct Hin as [Hin|Hin]; try contradiction;
      injection Hin as Hty _; rewrite Hty in Hn; revert Hn; compute_done.
Qed.

Lemma produced_well_formed source t : produced source t -> well_formed t.
Proof.
  intros (l & _ & He & _ & -> & Ht). apply nextToken_well_formed; assumption.
Qed.

Lemma produced_place source t :
  produced source t -> 1 <= lexer.Line t /\ 1 <= lexer.Column t.
Proof.
  intros (l & _ & He & [Hl Hc] & -> & Ht).
  destruct (nextToken_place l) as [-> ->].
  pose proof (nextToken_reads_on l) as (_ & _ & _ & Hl' & _). lia.
Qed.

(** X1 (the scanner answers, with at most one token for each byte).  On
    every source [Tokenize] returns a token list or a lexical error; a token
    list holds at most as many tokens as the source has bytes, and one more
    for the end of the input. *)
Theorem Tokenize_answers source :
  (exists ts, Tokenize source = Ok ts
     /\ (length ts <= String.length source + 1)%nat)
  \/ (exists msg, Tokenize source = Err msg).
Proof.
  pose proof (Tokenize_returns source) as Hc.
  destruct (Tokenize source) as [ts|msg|msg|] eqn:E;
    [left | right | destruct Hc | destruct Hc].
  - exists ts. split; [reflexivity|].
    destruct (Tokenize_produced source ts E) as (l & -> & _ & _ & Hn).
    rewrite length_app. cbn. lia.
  - exists msg. reflexivity.
Qed.

(** X2 (the end-of-input token).  The token list of a successful scan ends
    with one end-of-input token, which carries an empty lexeme, no payload
    and the line and column the scanner has reached; no token before it is
    an end-of-input token or an error token. *)
Theorem tokens_end_with_eof source ts :
  Tokenize source = Ok ts ->
  exists body line column,
    ts = (body ++ [mkToken TokenEOF EmptyString line column PNil])%list
    /\ Forall (fun t => lexer.Type_ t <> TokenEOF
                        /\ lexer.Type_ t <> TokenError) body.
Proof.
  intros E.
  destruct (Tokenize_produced source ts E) as (l & -> & Hf & _ & _).
  exists (lexer.tokens l), (line l), (column l). split; [reflexivity|].
  apply (Forall_impl _ _ _ Hf). intros t Ht.
  destruct (well_formed_type t (produced_well_formed _ _ Ht)) as [Hn _].
  revert Hn. rewrite !elem_of_cons. tauto.
Qed.

Lemma tokens_end_with_eof_witness :
  exists body line column,
    ([mkToken TokenIdentifier "x" 1 1 (PString "x");
      mkToken TokenEOF EmptyString 1 2 PNil]
     = body ++ [mkToken TokenEOF EmptyString line column PNil])%list
    /\ Forall (fun t => lexer.Type_ t <> TokenEOF
                        /\ lexer.Type_ t <> TokenError) body.
Proof.
  apply (tokens_end_with_eof "x"). vm_compute. reflexivity.
Defined.

(** X3 (no boolean literal, no [and], no [or]).  [getKeywordType] has no case
    for [true], [false], [and], [or] and [not]: they are scanned as
    identifiers.  No token of a scanned source has the type [TokenBoolean],
    [TokenAnd] or [TokenOr], and none carries a boolean payload. *)
Theorem no_boolean_token source ts :
  Tokenize source = Ok ts ->
  Forall (fun w => getKeywordType w = TokenIdentifier)
    ["true"; "false"; "and"; "or"; "not"]
  /\ Forall (fun t => (lexer.Type_ t ∉ [TokenBoolean; TokenAnd; TokenOr])
                      /\ forall b, lexer.Literal t <> PBool b) ts.
Proof.
  intros E. split; [repeat constructor|].
  destruct (Tokenize_produced source ts E) as (l & -> & Hf & _ & _).
  apply Forall_app. split.
  - apply (Forall_impl _ _ _ Hf). intros t Ht.
    destruct (well_formed_type t (produced_well_formed _ _ Ht)) as [Hn Hb].
    split; [|exact Hb]. revert Hn. rewrite !elem_of_cons. tauto.
  - apply Forall_singleton. split; [compute_done | discriminate].
Qed.

Lemma no_boolean_token_witness :
  exists ts,
    Tokenize "flag = true and false" = Ok ts
    /\ Forall (fun w => getKeywordType w = TokenIdentifier)
         ["true"; "false"; "and"; "or"; "not"]
    /\ Forall (fun t => (lexer.Type_ t ∉ [TokenBoolean; TokenAnd; TokenOr])
                        /\ forall b, lexer.Literal t <> PBool b) ts.
Proof.
  eexists. split; [vm_compute; reflexivity|].
  apply (no_boolean_token "flag = true and false"). vm_compute. reflexivity.
Defined.

(** X4 (lines and columns are 1-based).  Every token of a scanned source,
    the end-of-input token included, has a line and a column of at least 1. *)
Theorem token_places_one_based source ts :
  Tokenize source = Ok ts ->
  Forall (fun t => 1 <= lexer.Line t /\ 1 <= lexer.Column t) ts.
Proof.
  intros E.
  destruct (Tokenize_produced source ts E) as (l & -> & Hf & Hb & _).
  apply Forall_app. split.
  - apply (Forall_impl _ _ _ Hf). intros t Ht. exact (produced_place _ _ Ht).
  - apply Forall_singleton. exact Hb.
Qed.

Lemma token_places_one_based_witness :
  exists ts,
    Tokenize ("a" ++ nl ++ " b") = Ok ts
    /\ Forall (fun t => 1 <= lexer.Line t /\ 1 <= lexer.Column t) ts.
Proof.
  eexists. split; [vm_compute; reflexivity|].
  apply (token_places_one_based ("a" ++ nl ++ " b")). vm_compute. reflexivity.
Defined.

Lemma getKeywordType_type_keyword value :
  is_type_keyword (getKeywordType value) = true ->
  exists ty, TypeFromString value = inl ty /\ value = Type_String ty
    /\ ty <> VoidType.
Proof.
  unfold getKeywordType, TypeFromString.
  destruct (string_dec value "number") as [->|_];
    [intros _; exists NumberType; repeat split; discriminate|].
  destruct (string_dec value "text") as [->|_];
    [intros _; exists TextType; repeat split; discriminate|].
  destruct (string_dec value "boolean") as [->|_];
    [intros _; exists BooleanType; repeat split; discriminate|].
  repeat destruct (string_dec _ _); intros H; vm_compute in H; discriminate.
Qed.

(** X5 (keywords carry their spelling).  A token of a scanned source whose
    type is that of a keyword or of an identifier has the type that
    [getKeywordType] gives to its lexeme, and its payload is its lexeme; the
    lexeme of a token of a type keyword is the name of a type, which
    [TypeFromString] accepts. *)
Theorem word_tokens source ts :
  Tokenize source = Ok ts ->
  Forall (fun t =>
      lexer.Type_ t ∈ word_types ->
      lexer.Type_ t = getKeywordType (lexer.Value t)
      /\ lexer.Literal t = PString (lexer.Value t)
      /\ (is_type_keyword (lexer.Type_ t) = true ->
          exists ty, TypeFromString (lexer.Value t) = inl ty
            /\ lexer.Value t = Type_String ty /\ ty <> VoidType)) ts.
Proof.
  intros E.
  destruct (Tokenize_produced source ts E) as (l & -> & Hf & _ & _).
  apply Forall_app. split.
  - apply (Forall_impl _ _ _ Hf). intros t Ht Hw.
    destruct (produced_well_formed _ _ Ht)
      as [(Hty & _)|[(Hty & _)|[(Hty & Hl & _)|(Hin & _)]]].
    + rewrite Hty in Hw. exfalso. revert Hw. compute_done.
    + rewrite Hty in Hw. exfalso. revert Hw. compute_done.
    + split; [exact Hty|]. split; [exact Hl|].
      rewrite Hty. apply getKeywordType_type_keyword.
    + exfalso. revert Hin Hw. unfold punctuation, word_types.
      rewrite !elem_of_cons, !elem_of_nil. intros Hin.
      repeat destruct Hin as [Hin|Hin]; try contradiction;
        injection Hin as -> _; intuition discriminate.
  - apply Forall_singleton. intros Hw. exfalso. revert Hw. compute_done.
Qed.

Lemma word_tokens_witness :
  exists ts,
    Tokenize "number total" = Ok ts
    /\ Forall (fun t =>
         lexer.Type_ t ∈ word_types ->
         lexer.Type_ t = getKeywordType (lexer.Value t)
         /\ lexer.Literal t = PString (lexer.Value t)
         /\ (is_type_keyword (lexer.Type_ t) = true ->
             exists ty, TypeFromString (lexer.Value t) = inl ty
               /\ lexer.Value t = Type_String ty /\ ty <> VoidType)) ts.
Proof.
  eexists. split; [vm_compute; reflexivity|].
  apply (word_tokens "number total"). vm_compute. reflexivity.
Defined.

(** X6 (number lexemes).  The lexeme of a number token of a scanned source
    starts with a decimal digit and goes on with decimal digits and periods
    only, in any number and order; the payload of the token is the lexeme,
    not yet a number. *)
Theorem number_tokens source ts :
  Tokenize source = Ok ts ->
  Forall (fun t =>
      lexer.Type_ t = TokenNumber ->
      lexer.Literal t = PString (lexer.Value t)
      /\ exists c rest, lexer.Value t = String c rest
           /\ unicode.IsDigit c = true
           /\ all_chars (fun c => unicode.IsDigit c || char_is c "."%char)
                rest = true) ts.
Proof.
  intros E.
  destruct (Tokenize_produced source ts E) as (l & -> & Hf & _ & _).
  apply Forall_app. split.
  - apply (Forall_impl _ _ _ Hf). intros t Ht Hn.
    destruct (produced_well_formed _ _ Ht)
      as [(Hty & Hl & Hv)|[(Hty & _)|[(Hty & _)|(Hin & _)]]].
    + split; [exact Hl | exact Hv].
    + congruence.
    + pose proof (getKeywordType_word (lexer.Value t)) as Hw.
      rewrite <- Hty, Hn in Hw. exfalso. revert Hw. compute_done.
    + rewrite Hn in Hin. exfalso. revert Hin. unfold punctuation.
      rewrite !elem_of_cons, !elem_of_nil. intuition discriminate.
  - apply Forall_singleton. discriminate.
Qed.

Lemma number_tokens_witness :
  exists ts,
    Tokenize "x = 12.5" = Ok ts
    /\ Forall (fun t =>
         lexer.Type_ t = TokenNumber ->
         lexer.Literal t = PString (lexer.Value t)
         /\ exists c rest, lexer.Value t = String c rest
              /\ unicode.IsDigit c = true
              /\ all_chars (fun c => unicode.IsDigit c || char_is c "."%char)
                   rest = true) ts.
Proof.
  eexists. split; [vm_compute; reflexivity|].
  apply (number_tokens "x = 12.5"). vm_compute. reflexivity.
Defined.



(** A string that is not closed. *)

Lemma nextToken_at_quote l :
  currentChar l = quote -> nextToken l = readText l.
Proof. intros H. unfold nextToken. cbv zeta. rewrite H. reflexivity. Qed.

Lemma readText_loop_end l :
  let l' := readText_loop (remaining l) l in
  input l' = input l
  /\ (position l <= position l')%nat
  /\ chars_between in_text (input l) (position l) (position l')
  /\ (at_end l' = true \/ currentChar l' = quote).
Proof.
  cbv zeta. rewrite readText_loop_scan.
  pose proof (scan_while_reads_on in_text _ counts_only_count_line
                (remaining l) l) as (Hi & _ & Hp & _).
  pose proof (scan_while_chars in_text _ counts_only_count_line
                (remaining l) l) as Hc.
  pose proof (scan_while_stops in_text _ counts_only_count_line
                (remaining l) l (Nat.le_refl _)) as Hs.
  repeat split; try assumption.
  destruct Hs as [Hs|Hs]; [left; exact Hs | right].
  unfold in_text, char_is in Hs. apply negb_false_iff, Ascii.eqb_eq in Hs.
  exact Hs.
Qed.

Lemma Tokenize_from_error fuel l :
  at_end (skipWhitespace l) = false ->
  lexer.Type_ (fst (nextToken (skipWhitespace l))) = TokenError ->
  Tokenize_from (S fuel) l
  = Err (lexical_error (fst (nextToken (skipWhitespace l)))).
Proof.
  intros He Ht. unfold Tokenize_from. cbn [Tokenize_loop].
  assert (He0 : at_end l = false).
  { destruct (at_end l) eqn:E; [|reflexivity].
    unfold skipWhitespace, remaining in He. unfold at_end in E.
    apply Nat.leb_le in E.
    replace (len l - position l)%nat with 0%nat in He by lia.
    cbn in He. unfold at_end in He. apply Nat.leb_gt in He. lia. }
  rewrite He0, He. destruct (nextToken (skipWhitespace l)) as [t l'].
  cbn [fst] in *. rewrite Ht. reflexivity.
Qed.

(** X8 (a string needs its closing quote).  At a double quote [nextToken]
    returns a text token exactly when another double quote follows in the
    input; when none follows, the scan halts with the diagnostic
    "unterminated string", reported at the column of the opening quote. *)
Theorem text_needs_closing_quote fuel l :
  at_end (skipWhitespace l) = false ->
  currentChar (skipWhitespace l) = quote ->
  (lexer.Type_ (fst (nextToken (skipWhitespace l))) = TokenText
   <-> exists k, (position (skipWhitespace l) < k)%nat
         /\ String.get k (input l) = Some quote)
  /\ ((forall k, (position (skipWhitespace l) < k)%nat ->
         String.get k (input l) <> Some quote) ->
      exists line,
        Tokenize_from (S fuel) l
        = Err ("lexical error at line " ++ strconv.Itoa line
               ++ ", column " ++ strconv.Itoa (column (skipWhitespace l))
               ++ ": unterminated string")).
Proof.
  intros He Hq.
  pose proof (skipWhitespace_reads_on l) as (Hi & _).
  set (l0 := skipWhitespace l) in *.
  pose proof (readText_loop_end (lexer.advance l0)) as (Ri & Rp & Rc & Rs).
  cbv zeta in Ri, Rp, Rc, Rs. cbn [input position lexer.advance] in Ri, Rp, Rc.
  assert (Hcase :
    (at_end (readText_loop (remaining (lexer.advance l0)) (lexer.advance l0))
     = true
     /\ forall k, (position l0 < k)%nat -> String.get k (input l) <> Some quote)
    \/ (at_end (readText_loop (remaining (lexer.advance l0)) (lexer.advance l0))
        = false
        /\ exists k, (position l0 < k)%nat
             /\ String.get k (input l) = Some quote)).
  { destruct (at_end (readText_loop _ _)) eqn:Ee; [left | right];
      (split; [reflexivity|]).
    - intros k Hk Hg. rewrite <- Hi in Hg.
      destruct (Nat.lt_ge_cases k
                  (position (readText_loop (remaining (lexer.advance l0))
                               (lexer.advance l0)))) as [Hlt|Hge].
      + destruct (Rc k ltac:(lia)) as (c & Hc & Hin).
        rewrite Hg in Hc. injection Hc as <-. discriminate.
      + unfold at_end, len in Ee. apply Nat.leb_le in Ee. rewrite Ri in Ee.
        rewrite get_out_of_bounds in Hg by lia. discriminate.
    - destruct Rs as [Rs|Rs]; [congruence|].
      eexists. split; [|rewrite <- Hi, <- Ri, <- Rs; apply currentChar_get, Ee].
      lia. }
  rewrite (nextToken_at_quote l0 Hq). unfold readText.
  split; [split|].
  - destruct Hcase as [[Ee Hno]|[Ee Hk]]; rewrite Ee; cbn; [discriminate|auto].
  - intros (k & Hk & Hg).
    destruct Hcase as [[Ee Hno]|[Ee _]]; rewrite Ee; cbn; [|reflexivity].
    destruct (Hno k Hk Hg).
  - intros Hno.
    destruct Hcase as [[Ee _]|[Ee (k & Hk & Hg)]]; [|destruct (Hno k Hk Hg)].
    eexists.
    rewrite (Tokenize_from_error fuel l He);
      fold l0; rewrite (nextToken_at_quote l0 Hq); unfold readText;
      rewrite Ee; cbn [fst lexer.Type_]; [|reflexivity].
    unfold lexical_error. cbn [lexer.Line lexer.Column lexer.Value].
    reflexivity.
Qed.

Lemma text_needs_closing_quote_witness :
  (lexer.Type_ (fst (nextToken (skipWhitespace (NewLexer (dq ++ "ab")))))
   = TokenText
   <-> exists k, (position (skipWhitespace (NewLexer (dq ++ "ab"))) < k)%nat
         /\ String.get k (input (NewLexer (dq ++ "ab"))) = Some quote)
  /\ ((forall k, (position (skipWhitespace (NewLexer (dq ++ "ab"))) < k)%nat ->
         String.get k (input (NewLexer (dq ++ "ab"))) <> Some quote) ->
      exists line,
        Tokenize_from 1 (NewLexer (dq ++ "ab"))
        = Err ("lexical error at line " ++ strconv.Itoa line
               ++ ", column "
               ++ strconv.Itoa (column (skipWhitespace (NewLexer (dq ++ "ab"))))
               ++ ": unterminated string")).
Proof.
  apply (text_needs_closing_quote 0 (NewLexer (dq ++ "ab")));
    vm_compute; reflexivity.
Defined.

(** X9 (a source of whitespace).  A source that holds nothing, or nothing
    but whitespace, scans to the end-of-input token alone. *)
Theorem blank_source source :
  all_chars unicode.IsSpace source = true ->
  exists line column,
    Tokenize source = Ok [mkToken TokenEOF EmptyString line column PNil].
Proof.
  intros Hall. unfold Tokenize, Tokenize_from. cbn [Tokenize_loop].
  set (l := NewLexer source).
  destruct (at_end l) eqn:He; [do 2 eexists; reflexivity|].
  pose proof (skipWhitespace_reads_on l) as (Hi & Ht & _).
  assert (Hend : at_end (skipWhitespace l) = true).
  { unfold skipWhitespace. rewrite skipWhitespace_loop_scan.
    destruct (scan_while_stops unicode.IsSpace _ counts_only_count_space
                (remaining l) l (Nat.le_refl _)) as [Hs|Hs]; [exact Hs|].
    destruct (at_end (scan_while _ _ _ _)) eqn:Ee; [reflexivity|].
    pose proof (currentChar_get _ Ee) as Hg.
    unfold skipWhitespace in Hi. rewrite skipWhitespace_loop_scan in Hi.
    rewrite Hi in Hg. rewrite (all_chars_get _ _ _ _ Hall Hg) in Hs.
    discriminate. }
  rewrite Hend. cbn [push lexer.tokens]. rewrite Ht.
  do 2 eexists. reflexivity.
Qed.

Lemma blank_source_witness :
  exists line column,
    Tokenize (" " ++ nl ++ " ")
    = Ok [mkToken TokenEOF EmptyString line column PNil].
Proof.
  apply (blank_source (" " ++ nl ++ " ")). vm_compute. reflexivity.
Defined.

(** The line of a text token. *)

Lemma slice_nothing l p : slice l p p = EmptyString.
Proof. unfold slice. rewrite Nat.sub_diag. apply substring_nothing. Qed.

Lemma readText_loop_lines n : forall l,
  line (scan_while in_text count_line n l)
  = line l
    + count_linefeeds
        (slice l (position l) (position (scan_while in_text count_line n l))).
Proof.
  induction n as [|n IH]; intros l; cbn [scan_while].
  - rewrite slice_nothing. cbn. lia.
  - destruct (at_end l) eqn:He; cbn [negb andb];
      [rewrite slice_nothing; cbn; lia|].
    destruct (in_text (currentChar l)); [|rewrite slice_nothing; cbn; lia].
    set (l1 := lexer.advance (count_line l)).
    pose proof (scan_while_reads_on in_text _ counts_only_count_line n l1)
      as (_ & _ & Hp & _).
    destruct (counts_only_count_line l) as (Ci & Cp & _).
    assert (Hp1 : position l1 = S (position l)) by (cbn; now rewrite Cp).
    rewrite IH. unfold slice.
    replace (input l1) with (input l) by (cbn; now rewrite Ci).
    rewrite Hp1 in *.
    replace (position (scan_while in_text count_line n l1) - position l)%nat
      with (S (position (scan_while in_text count_line n l1)
               - S (position l))) by lia.
    rewrite (substring_cons _ _ _ _ (currentChar_get l He)).
    cbn [count_linefeeds]. unfold l1 at 1, count_line.
    destruct (char_is (currentChar l) linefeed); cbn; lia.
Qed.

(** X10 (where a text token is reported).  A text token is reported at the
    column of its opening quote and at the line of its closing quote: the
    line at which the token starts, plus the line feeds in its lexeme. *)
Theorem text_token_place l :
  currentChar l = quote ->
  lexer.Type_ (fst (nextToken l)) = TokenText ->
  lexer.Line (fst (nextToken l))
  = line l + count_linefeeds (lexer.Value (fst (nextToken l)))
  /\ lexer.Column (fst (nextToken l)) = column l.
Proof.
  intros Hq. rewrite (nextToken_at_quote l Hq). unfold readText.
  rewrite readText_loop_scan.
  pose proof (readText_loop_lines (remaining (lexer.advance l))
                (lexer.advance l)) as Hl.
  pose proof (scan_while_reads_on in_text _ counts_only_count_line
                (remaining (lexer.advance l)) (lexer.advance l))
    as (Hi & _).
  destruct (at_end (scan_while _ _ _ _));
    cbn [fst lexer.Type_ lexer.Line lexer.Column lexer.Value];
    [discriminate | intros _].
  split; [|reflexivity].
  cbn [line lexer.advance]. rewrite Hl.
  rewrite (slice_input (lexer.advance l) _ _ _ Hi). reflexivity.
Qed.

Lemma text_token_place_witness :
  lexer.Line (fst (nextToken (NewLexer (dq ++ "a" ++ nl ++ "b" ++ dq))))
  = line (NewLexer (dq ++ "a" ++ nl ++ "b" ++ dq))
    + count_linefeeds
        (lexer.Value (fst (nextToken (NewLexer (dq ++ "a" ++ nl ++ "b" ++ dq)))))
  /\ lexer.Column (fst (nextToken (NewLexer (dq ++ "a" ++ nl ++ "b" ++ dq))))
     = column (NewLexer (dq ++ "a" ++ nl ++ "b" ++ dq)).
Proof.
  apply (text_token_place (NewLexer (dq ++ "a" ++ nl ++ "b" ++ dq)));
    vm_compute; reflexivity.
Defined.

(** The order of the tokens. *)

Lemma lines_in_order_snoc ts t :
  lines_in_order ts ->
  (forall i a, ts !! i = Some a -> lexer.Line a <= lexer.Line t) ->
  lines_in_order (ts ++ [t]).
Proof.
  intros Ho Hb i j a b Hij Ha Hb'.
  apply lookup_app_Some in Ha as [Ha|[Hia Ha]];
    apply lookup_app_Some in Hb' as [Hb'|[Hjb Hb']].
  - exact (Ho i j a b Hij Ha Hb').
  - apply list_lookup_singleton_Some in Hb' as [_ <-]. exact (Hb i a Ha).
  - apply lookup_lt_Some in Hb'. lia.
  - apply list_lookup_singleton_Some in Ha as [_ <-].
    apply list_lookup_singleton_Some in Hb' as [_ <-]. lia.
Qed.

(** X11 (tokens in the order of the source).  Along the token list of a
    scanned source the lines never decrease. *)
Theorem token_lines_in_order source ts :
  Tokenize source = Ok ts -> lines_in_order ts.
Proof.
  unfold Tokenize, Tokenize_from.
  destruct (Tokenize_loop _ _) as [l| | |] eqn:E; try discriminate.
  intros [= <-].
  pose (I := fun l : Lexer =>
    (forall i a, lexer.tokens l !! i = Some a -> lexer.Line a <= line l)
    /\ lines_in_order (lexer.tokens l)).
  assert (H : I l).
  { revert E. apply (Tokenize_loop_invariant I).
    - intros l0 [Hb Ho].
      pose proof (skipWhitespace_reads_on l0) as (_ & Rt & _ & Rl & _).
      unfold I. rewrite Rt. split; [|exact Ho].
      intros i a Ha. specialize (Hb i a Ha). lia.
    - intros l0 [Hb Ho] _ _.
      pose proof (nextToken_reads_on l0) as (_ & Rt & _ & Rl & _).
      destruct (nextToken_place l0) as [Pl _].
      unfold I. cbn [push lexer.tokens line]. rewrite Rt.
      assert (Hb' : forall i a, lexer.tokens l0 !! i = Some a ->
                lexer.Line a <= lexer.Line (fst (nextToken l0))).
      { intros i a Ha. specialize (Hb i a Ha). lia. }
      split; [|exact (lines_in_order_snoc _ _ Ho Hb')].
      intros i a Ha. apply lookup_app_Some in Ha as [Ha|[_ Ha]].
      + specialize (Hb i a Ha). lia.
      + apply list_lookup_singleton_Some in Ha as [_ <-]. lia.
    - split; [intros i a Ha; discriminate|].
      intros i j a b _ Ha. discriminate. }
  destruct H as [Hb Ho]. cbn [push lexer.tokens].
  apply lines_in_order_snoc; [exact Ho | exact Hb].
Qed.

Lemma token_lines_in_order_witness :
  exists ts,
    Tokenize ("a" ++ nl ++ "b c" ++ nl ++ "d") = Ok ts /\ lines_in_order ts.
Proof.
  eexists. split; [vm_compute; reflexivity|].
  apply (token_lines_in_order ("a" ++ nl ++ "b c" ++ nl ++ "d")).
  vm_compute. reflexivity.
Defined.

(** ** Types *)

(** X12 (names of types).  [TypeFromString] reads back the name that
    [String] gives to a type, accepts no other string, and reports any other
    string as an unknown type. *)
Theorem type_names_round_trip :
  (forall t, TypeFromString (Type_String t) = inl t)
  /\ (forall s t, TypeFromString s = inl t -> Type_String t = s)
  /\ (forall s, (forall t, Type_String t <> s) ->
        TypeFromString s = inr ("unknown type: " ++ s)).
Proof.
  split; [intros []; reflexivity|]. split.
  - intros s t. unfold TypeFromString.
    repeat destruct (string_dec _ _); intros [= <-]; subst; reflexivity.
  - intros s H. unfold TypeFromString.
    repeat (destruct (string_dec _ _) as [->|_];
            [exfalso;
             first [ exact (H NumberType eq_refl) | exact (H TextType eq_refl)
                   | exact (H BooleanType eq_refl) | exact (H VoidType eq_refl) ]
            |]).
    reflexivity.
Qed.

Lemma IsCompatibleWith_spec t other :
  IsCompatibleWith t other = bool_decide (t = VoidType \/ t = other).
Proof. destruct t, other; reflexivity. Qed.

(** X13 (the type check of a declaration).  A declaration evaluates its
    initialiser first; it then binds the variable in the innermost frame when
    the type of the value is the declared type, or the declared type is
    [void], and fails with "type mismatch" otherwise, binding nothing.  After
    a declaration that succeeds, a lookup of the variable gives the value. *)
Theorem declaration_checks_type fuel t name e i v i1 :
  evaluateExpression fuel e i = (Ok v, i1) ->
  executeStatement (S fuel) (VariableDeclaration t name e) i
  = (if bool_decide (t = VoidType \/ t = Value_Type v)
     then (Ok v, set_environment (SetVariable (environment i1) name v) i1)
     else (Err ("type mismatch: cannot assign " ++ Type_String (Value_Type v)
                ++ " to variable of type " ++ Type_String t), i1))
  /\ GetVariable (SetVariable (environment i1) name v) name = Some v.
Proof.
  intros He. split.
  - cbn [executeStatement]. unfold executeVariableDeclaration, bind.
    rewrite He, IsCompatibleWith_spec.
    destruct (bool_decide _); reflexivity.
  - destruct (environment i1) as [vs fs p]. cbn.
    rewrite lookup_insert_eq. reflexivity.
Qed.

Lemma declaration_checks_type_witness :
  executeStatement 2
    (VariableDeclaration NumberType "x" (Literal (PString "a") TextType))
    NewInterpreter
  = (if bool_decide (NumberType = VoidType
                     \/ NumberType = Value_Type (TextValue "a"))
     then (Ok (TextValue "a"),
           set_environment
             (SetVariable (environment NewInterpreter) "x" (TextValue "a"))
             NewInterpreter)
     else (Err ("type mismatch: cannot assign "
                ++ Type_String (Value_Type (TextValue "a"))
                ++ " to variable of type " ++ Type_String NumberType),
           NewInterpreter))
  /\ GetVariable (SetVariable (environment NewInterpreter) "x" (TextValue "a"))
       "x" = Some (TextValue "a").
Proof.
  apply (declaration_checks_type 1 NumberType "x"
           (Literal (PString "a") TextType) NewInterpreter (TextValue "a")
           NewInterpreter).
  reflexivity.
Defined.

(** ** Environments *)

(** X14 (lookup in an environment).  A variable or a function that has
    just been set in a frame is found with what it was set to, whatever the
    frames below hold; setting it changes the lookup of no other name, and
    variables and functions do not share their names: setting a variable
    changes the lookup of no function, and setting a function that of no
    variable.  A lookup in a new frame is the lookup in its parent, and in a
    new frame without a parent it finds nothing. *)
Theorem environment_lookup e name value function other :
  GetVariable (SetVariable e name value) name = Some value
  /\ GetFunction (SetFunction e name function) name = Some function
  /\ (other <> name ->
      GetVariable (SetVariable e name value) other = GetVariable e other
      /\ GetFunction (SetFunction e name function) other = GetFunction e other)
  /\ GetFunction (SetVariable e name value) other = GetFunction e other
  /\ GetVariable (SetFunction e name function) other = GetVariable e other
  /\ GetVariable (NewEnvironment (Some e)) other = GetVariable e other
  /\ GetFunction (NewEnvironment (Some e)) other = GetFunction e other
  /\ GetVariable (NewEnvironment None) other = None
  /\ GetFunction (NewEnvironment None) other = None.
Proof.
  destruct e as [vs fs p]. cbn.
  rewrite !lookup_insert_eq.
  split; [reflexivity|]. split; [reflexivity|].
  split; [|repeat split; reflexivity].
  intros H. rewrite !lookup_insert_ne by congruence. split; reflexivity.
Qed.

(** ** Frames *)

(** X15 (an expression leaves the environment as it was).  Whatever an
    expression calls, and whether it gives a value, fails or is cut short,
    [i.environment] is the same after its evaluation as before: the frame of
    a call is left when the call ends, also when it ends with an error. *)
Theorem expression_keeps_environment fuel e i :
  environment (snd (evaluateExpression fuel e i)) = environment i.
Proof. apply (environment_discipline fuel). Qed.

Lemma loop_keeps_environment fuel v f t b :
  keeps_environment (executeStatement fuel (LoopStatement v f t b)).
Proof.
  destruct fuel as [|fuel]; [intros i; reflexivity|].
  cbn [executeStatement]. unfold executeLoopStatement.
  destruct (environment_discipline fuel) as [Hev _].
  apply keeps_environment_bind; [apply Hev | intros fv].
  apply keeps_environment_bind; [apply Hev | intros tv].
  destruct fv; try (intros i; reflexivity).
  destruct tv; try (intros i; reflexivity).
  apply keeps_environment_bind; [intros i; reflexivity | intros i0].
  apply keeps_environment_in_environment.
Qed.

(** X16 (a statement changes the innermost frame at most).  The frames
    below the innermost one are the same after a statement as before.  A
    loop statement leaves the innermost frame as it was, too: what its body
    declares or assigns lives in the frame of the loop and is gone when the
    loop ends, whether it ends normally or with an error. *)
Theorem statement_keeps_frames fuel st i :
  parent (environment (snd (executeStatement fuel st i)))
  = parent (environment i)
  /\ forall v f t b,
       environment (snd (executeStatement fuel (LoopStatement v f t b) i))
       = environment i.
Proof.
  split; [apply (environment_discipline fuel)|].
  intros v f t b. apply loop_keeps_environment.
Qed.

(** ** Calls *)

Lemma executeStatements_app ex a : forall b i,
  executeStatements ex (a ++ b) i
  = (executeStatements ex a;; executeStatements ex b) i.
Proof.
  induction a as [|st a IH]; intros b i; cbn [executeStatements app].
  - reflexivity.
  - rewrite bind_assoc. apply bind_ext. intros _ i1. apply IH.
Qed.

(** X17 (statements in sequence).  Executing a list of statements is
    executing a first part of it and then, in the state that part leaves, the
    rest; when the first part fails, the rest is not executed, and what the
    first part has printed stays printed. *)
Theorem statements_in_sequence fuel a b i :
  Interpret fuel (mkProgram (a ++ b)) i
  = match Interpret fuel (mkProgram a) i with
    | (Ok _, i1) => Interpret fuel (mkProgram b) i1
    | (Err msg, i1) => (Err msg, i1)
    | (Panic msg, i1) => (Panic msg, i1)
    | (OutOfFuel, i1) => (OutOfFuel, i1)
    end.
Proof.
  unfold Interpret. cbn [Statements]. rewrite executeStatements_app.
  unfold bind. destruct (executeStatements _ a i) as [[u|msg|msg|] i1]; reflexivity.
Qed.

Lemma evaluateArguments_length ev args : forall acc i vs i1,
  evaluateArguments ev args acc i = (Ok vs, i1) ->
  length vs = (length acc + length args)%nat.
Proof.
  induction args as [|a args IH]; intros acc i vs i1; cbn [evaluateArguments].
  - intros [= <- <-]. cbn. lia.
  - unfold bind. destruct (ev a i) as [[v|msg|msg|] i2]; try discriminate.
    intros H. rewrite (IH _ _ _ _ H), length_app. cbn. lia.
Qed.

Lemma bind_parameters_fit name ps : forall args env i,
  arguments_fit ps args = true ->
  bind_parameters name ps args env i = (Ok (bound_frame ps args env), i).
Proof.
  induction ps as [|p ps IH]; intros [|a args] env i H;
    cbn [bind_parameters bound_frame arguments_fit] in *; try reflexivity.
  apply andb_prop in H as [Hc Hf]. rewrite Hc. cbn [negb]. apply IH, Hf.
Qed.

Lemma bound_frame_parent ps : forall args env,
  parent (bound_frame ps args env) = parent env.
Proof.
  induction ps as [|p ps IH]; intros [|a args] env; cbn [bound_frame];
    try reflexivity.
  rewrite IH. reflexivity.
Qed.

(** X18 (what a call does).  When the function is found, the arguments
    evaluate, from left to right, to as many values as the function has
    parameters and every value is of the type of its parameter, the call
    executes the body in a new frame that binds the parameters to the values
    and stands above the environment of the caller, not above the one the
    function was declared in; when the body ends the caller's environment is
    back, and the value of the call is [void]. *)
Theorem call_runs_body fuel name args i function vs i1 :
  GetFunction (environment i) name = Some function ->
  evaluateArguments (evaluateExpression fuel) args [] i = (Ok vs, i1) ->
  length args = length (fn_Parameters function) ->
  arguments_fit (fn_Parameters function) vs = true ->
  evaluateExpression (S fuel) (FunctionCall name args) i
  = in_environment
      (bound_frame (fn_Parameters function) vs
         (NewEnvironment (Some (environment i))))
      (executeStatements (executeStatement fuel) (fn_Body function);;
       ret VoidValue) i1
  /\ parent (bound_frame (fn_Parameters function) vs
               (NewEnvironment (Some (environment i))))
     = Some (environment i).
Proof.
  intros Hf Ha Hl Hfit. split; [|apply bound_frame_parent].
  cbn [evaluateExpression]. unfold evaluateFunctionCall.
  unfold bind at 1. cbn [get]. rewrite Hf.
  unfold bind at 1. rewrite Ha.
  pose proof (evaluateArguments_length _ _ _ _ _ _ Ha) as Hlen.
  cbn [length] in Hlen. rewrite Nat.add_0_l in Hlen.
  replace (length vs =? length (fn_Parameters function))%nat with true
    by (symmetry; apply Nat.eqb_eq; lia).
  cbn [negb]. unfold bind at 1. cbn [get].
  assert (He : environment i1 = environment i).
  { pose proof (keeps_evaluateArguments _
                  (proj1 (environment_discipline fuel)) args [] i) as H.
    rewrite Ha in H. exact H. }
  rewrite He. unfold bind at 1.
  rewrite (bind_parameters_fit _ _ _ _ _ Hfit). reflexivity.
Qed.

Lemma call_runs_body_witness :
  evaluateExpression 3 (FunctionCall "f" [number "1"])
    (set_environment
       (SetFunction (NewEnvironment None) "f"
          (mkFunction "f" [mkParameter "n" NumberType] VoidType [print_i]))
       NewInterpreter)
  = in_environment
      (bound_frame [mkParameter "n" NumberType] [NumberValue (float64.of_Z 1)]
         (NewEnvironment
            (Some (SetFunction (NewEnvironment None) "f"
                     (mkFunction "f" [mkParameter "n" NumberType] VoidType
                        [print_i])))))
      (executeStatements (executeStatement 2) [print_i];; ret VoidValue)
      (set_environment
         (SetFunction (NewEnvironment None) "f"
            (mkFunction "f" [mkParameter "n" NumberType] VoidType [print_i]))
         NewInterpreter)
  /\ parent
       (bound_frame [mkParameter "n" NumberType]
          [NumberValue (float64.of_Z 1)]
          (NewEnvironment
             (Some (SetFunction (NewEnvironment None) "f"
                      (mkFunction "f" [mkParameter "n" NumberType] VoidType
                         [print_i])))))
     = Some (SetFunction (NewEnvironment None) "f"
               (mkFunction "f" [mkParameter "n" NumberType] VoidType
                  [print_i])).
Proof.
  apply (call_runs_body 2 "f" [number "1"]
           (set_environment
              (SetFunction (NewEnvironment None) "f"
                 (mkFunction "f" [mkParameter "n" NumberType] VoidType
                    [print_i]))
              NewInterpreter)
           (mkFunction "f" [mkParameter "n" NumberType] VoidType [print_i])
           [NumberValue (float64.of_Z 1)]);
    vm_compute; reflexivity.
Defined.

(** X19 (calls that cannot be made).  A call of a name that no frame binds
    to a function fails with "undefined function" before any argument is
    evaluated.  A call with a number of arguments other than the number of
    parameters fails, too, but after all its arguments have been evaluated:
    what they have printed stays printed. *)
Theorem call_errors fuel name args i :
  (GetFunction (environment i) name = None ->
   evaluateExpression (S fuel) (FunctionCall name args) i
   = (Err ("undefined function: " ++ name), i))
  /\ (forall function vs i1,
        GetFunction (environment i) name = Some function ->
        evaluateArguments (evaluateExpression fuel) args [] i = (Ok vs, i1) ->
        length args <> length (fn_Parameters function) ->
        evaluateExpression (S fuel) (FunctionCall name args) i
        = (Err ("function " ++ name ++ " expects "
                ++ strconv.Itoa (Z.of_nat (length (fn_Parameters function)))
                ++ " arguments, got "
                ++ strconv.Itoa (Z.of_nat (length args))), i1)).
Proof.
  split.
  - intros Hf. cbn [evaluateExpression]. unfold evaluateFunctionCall, bind.
    cbn [get]. rewrite Hf. reflexivity.
  - intros function vs i1 Hf Ha Hl.
    cbn [evaluateExpression]. unfold evaluateFunctionCall.
    unfold bind at 1. cbn [get]. rewrite Hf.
    unfold bind at 1. rewrite Ha.
    pose proof (evaluateArguments_length _ _ _ _ _ _ Ha) as Hlen.
    cbn [length] in Hlen. rewrite Nat.add_0_l in Hlen.
    replace (length vs =? length (fn_Parameters function))%nat with false
      by (symmetry; apply Nat.eqb_neq; lia).
    cbn [negb]. rewrite Hlen. reflexivity.
Qed.

(** X20 (a call has no value).  A call that returns gives [void], whatever
    its body does: a function hands nothing back to its caller.  A
    declaration of a number, text or boolean variable whose initialiser is a
    call therefore never succeeds. *)
Theorem call_returns_void :
  (forall fuel name args i v i',
     evaluateExpression fuel (FunctionCall name args) i = (Ok v, i') ->
     v = VoidValue)
  /\ (forall fuel t x name args i v i',
        t <> VoidType ->
        executeStatement fuel
          (VariableDeclaration t x (FunctionCall name args)) i
        <> (Ok v, i')).
Proof.
  split; [exact call_value|].
  intros fuel t x name args i v i' Ht.
  destruct fuel as [|fuel]; [discriminate|].
  cbn [executeStatement]. unfold executeVariableDeclaration.
  unfold bind at 1.
  destruct (evaluateExpression fuel (FunctionCall name args) i)
    as [[w|msg|msg|] i1] eqn:E; try discriminate.
  rewrite (call_value _ _ _ _ _ _ E).
  destruct t; try contradiction; discriminate.
Qed.

(** ** Operators *)

(** X21 (equality never fails).  [==] and [!=] give a boolean on every pair
    of values and leave the interpreter as it was; [!=] is the negation of
    [==]; two values of different types are not equal, and [void] is equal to
    nothing, not even to [void]. *)
Theorem equality_never_fails left right i :
  exists b,
    equal left right i = (Ok (BooleanValue b), i)
    /\ notEqual left right i = (Ok (BooleanValue (negb b)), i)
    /\ (Value_Type left <> Value_Type right -> b = false)
    /\ (left = VoidValue -> b = false)
    /\ (forall l r, left = TextValue l -> right = TextValue r ->
          b = bool_decide (l = r)).
Proof.
  exists (equal_bool left right). repeat split.
  - intros H. unfold equal_bool.
    destruct (bool_decide (Value_Type left = Value_Type right)) eqn:E;
      [|reflexivity].
    apply bool_decide_eq_true in E. contradiction.
  - intros ->. destruct right; reflexivity.
  - intros l r -> ->. reflexivity.
Qed.

Lemma sub_self s m e :
  float64.sub (S754_finite s m e) (S754_finite s m e) = S754_zero false.
Proof.
  unfold float64.sub, SFsub. rewrite Z.sub_diag. reflexivity.
Qed.

Lemma sub_zero x : float64.sub x interpreter.zero = x.
Proof. destruct x as [s|s| |s m e]; try reflexivity. destruct s; reflexivity. Qed.


Lemma eqb_zero r : float64.eqb r interpreter.zero = true <-> exists s, r = S754_zero s.
Proof.
  unfold float64.eqb, SFeqb, interpreter.zero.
  destruct r as [s|s| |s m e]; cbn.
  - split; eauto.
  - destruct s; split; try discriminate; intros [s Hs]; discriminate.
  - split; try discriminate; intros [s Hs]; discriminate.
  - destruct s; split; try discriminate; intros [s' Hs]; discriminate.
Qed.

(** X23 (division by zero).  A division of two numbers fails with
    "division by zero" exactly when the divisor is a zero, of either sign;
    with any other divisor it gives the float64 quotient. *)
Theorem division_by_zero l r i :
  (divide (NumberValue l) (NumberValue r) i = (Err "division by zero", i)
   <-> exists s, r = S754_zero s)
  /\ ((forall s, r <> S754_zero s) ->
      divide (NumberValue l) (NumberValue r) i
      = (Ok (NumberValue (float64.div l r)), i)).
Proof.
  unfold divide. pose proof (eqb_zero r) as Hz.
  destruct (float64.eqb r interpreter.zero).
  - destruct (proj1 Hz eq_refl) as [s Hs]. split.
    + split; [eauto | reflexivity].
    + intros H. destruct (H s Hs).
  - split.
    + split; [discriminate|]. intros H. apply Hz in H. discriminate.
    + reflexivity.
Qed.

(** X24 (the order of numbers).  The four comparisons give a boolean on
    every pair of numbers.  When neither number is a NaN, [<] is the negation
    of [>=] and [<=] the negation of [>], and [>] is [<] with the operands
    exchanged; when one is a NaN, all four are false. *)
Theorem number_comparisons l r i :
  exists lt le gt ge,
    lessThan (NumberValue l) (NumberValue r) i = (Ok (BooleanValue lt), i)
    /\ lessEqual (NumberValue l) (NumberValue r) i = (Ok (BooleanValue le), i)
    /\ greaterThan (NumberValue l) (NumberValue r) i
       = (Ok (BooleanValue gt), i)
    /\ greaterEqual (NumberValue l) (NumberValue r) i
       = (Ok (BooleanValue ge), i)
    /\ lessThan (NumberValue r) (NumberValue l) i = (Ok (BooleanValue gt), i)
    /\ (is_nan l || is_nan r = false -> ge = negb lt /\ gt = negb le)
    /\ (is_nan l || is_nan r = true ->
        lt = false /\ le = false /\ gt = false /\ ge = false).
Proof.
  do 4 eexists. do 5 (split; [reflexivity|]).
  unfold float64.leb, float64.ltb, SFleb, SFltb.
  rewrite (SFcompare_antisym l r).
  split; intros H;
    destruct l as [s|s| |s m e], r as [s'|s'| |s' m' e']; try discriminate;
    cbn [SFcompare option_map];
    repeat match goal with
           | s : bool |- _ => destruct s
           end;
    cbn;
    try (destruct (e ?= e'); cbn);
    try (destruct (Pos.compare_cont Eq m m'); cbn);
    repeat split; reflexivity.
Qed.

Lemma binary_operator_pure op lv rv i :
  snd ((if string_dec op "+" then add lv rv
        else if string_dec op "-" then subtract lv rv
        else if string_dec op "*" then multiply lv rv
        else if string_dec op "/" then divide lv rv
        else if string_dec op "==" then equal lv rv
        else if string_dec op "!=" then notEqual lv rv
        else if string_dec op "<" then lessThan lv rv
        else if string_dec op "<=" then lessEqual lv rv
        else if string_dec op ">" then greaterThan lv rv
        else if string_dec op ">=" then greaterEqual lv rv
        else if string_dec op "and" then logicalAnd lv rv
        else if string_dec op "or" then logicalOr lv rv
        else fail ("unknown binary operator: " ++ op)) i) = i.
Proof.
  repeat destruct (string_dec _ _); destruct lv, rv; try reflexivity.
  unfold divide. destruct (float64.eqb _ _); reflexivity.
Qed.

(** X25 (an expression without a call has no effect).  Evaluating an
    expression in which no function is called prints nothing and changes no
    variable, whether it gives a value or fails: the interpreter is after it
    as it was before. *)
Theorem call_free_expression_is_pure fuel e i :
  call_free e = true -> snd (evaluateExpression fuel e i) = i.
Proof.
  revert e i. induction fuel as [|fuel IH]; intros e i H; [reflexivity|].
  destruct e as [v t|name|l op r|op e|name args]; cbn [evaluateExpression].
  - unfold evaluateLiteral.
    destruct t, v; try reflexivity. destruct (fmt.Sscanf_f s); reflexivity.
  - unfold evaluateIdentifier.
    destruct (GetVariable (environment i) name); reflexivity.
  - cbn [call_free] in H. apply andb_prop in H as [Hl Hr].
    unfold evaluateBinaryExpression. unfold bind at 1.
    pose proof (IH l i Hl) as Il.
    destruct (evaluateExpression fuel l i) as [[lv|msg|msg|] i1]; cbn [snd] in *;
      subst i1; try reflexivity.
    unfold bind at 1. pose proof (IH r i Hr) as Ir.
    destruct (evaluateExpression fuel r i) as [[rv|msg|msg|] i1]; cbn [snd] in *;
      subst i1; try reflexivity.
    apply binary_operator_pure.
  - cbn [call_free] in H. unfold evaluateUnaryExpression. unfold bind at 1.
    pose proof (IH e i H) as Ie.
    destruct (evaluateExpression fuel e i) as [[v|msg|msg|] i1]; cbn [snd] in *;
      subst i1; try reflexivity.
    repeat destruct (string_dec _ _); destruct v; reflexivity.
  - discriminate.
Qed.

Lemma call_free_expression_is_pure_witness :
  snd (evaluateExpression 3
         (BinaryExpression (number "1") "/" (number "0")) NewInterpreter)
  = NewInterpreter.
Proof.
  apply (call_free_expression_is_pure 3
           (BinaryExpression (number "1") "/" (number "0")) NewInterpreter).
  reflexivity.
Defined.

(** ** The parser *)

(** X26 (where a statement can start).  A token list whose first token is
    neither the end of the input nor a type keyword, an identifier, [if],
    [loop], [function] or [print] is refused with "unexpected token" and the
    line, the column and the lexeme of that token. *)
Theorem statement_start t ts :
  lexer.Type_ t ∉ [TokenEOF; TokenNumberKeyword; TokenTextKeyword;
                   TokenBooleanKeyword; TokenIdentifier; TokenIf; TokenLoop;
                   TokenFunction; TokenPrint] ->
  Parse (t :: ts)
  = Err ("unexpected token at line " ++ strconv.Itoa (lexer.Line t)
         ++ ", column " ++ strconv.Itoa (lexer.Column t)
         ++ ": " ++ lexer.Value t).
Proof.
  intros H. unfold Parse, Parse_with.
  assert (Hc : current (NewParser (t :: ts)) = (Ok t, NewParser (t :: ts)))
    by (rewrite current_reads; reflexivity).
  cbn [length Parse_loop]. unfold bind at 1. rewrite Hc.
  destruct (bool_decide (lexer.Type_ t = TokenEOF)) eqn:E.
  { apply bool_decide_eq_true in E. exfalso. apply H. rewrite E.
    compute_done. }
  unfold bind at 1. cbn [parseStatement]. unfold parseStatement_body.
  unfold bind at 1. rewrite Hc.
  destruct (lexer.Type_ t) eqn:Et; try reflexivity;
    exfalso; apply H; compute_done.
Qed.

Lemma statement_start_witness :
  Parse [mkToken TokenNumber "1" 1 1 (PString "1");
         mkToken TokenEOF EmptyString 1 2 PNil]
  = Err ("unexpected token at line "
         ++ strconv.Itoa (lexer.Line (mkToken TokenNumber "1" 1 1 (PString "1")))
         ++ ", column "
         ++ strconv.Itoa
              (lexer.Column (mkToken TokenNumber "1" 1 1 (PString "1")))
         ++ ": " ++ lexer.Value (mkToken TokenNumber "1" 1 1 (PString "1"))).
Proof.
  apply (statement_start (mkToken TokenNumber "1" 1 1 (PString "1"))
           [mkToken TokenEOF EmptyString 1 2 PNil]).
  compute_done.
Defined.

Lemma Parse_loop_count fuel n : forall statements p,
  (rest p <= n)%nat -> (rest p < fuel)%nat ->
  post (Parse_loop fuel n statements) p
    (fun statements' p' =>
       (length statements' + rest p' <= length statements + rest p)%nat).
Proof.
  induction n as [|n IH]; intros statements p Hn Hf;
    cbn [Parse_loop]; apply post_ite; intros Hc;
    try (apply post_ret; lia).
  - unfold cur_is in Hc. apply bool_decide_eq_false in Hc. apply Hc.
    rewrite (current_at_end p) by lia. reflexivity.
  - assert (Hs : post (parseStatement fuel) p (fun _ p' => after 1 p p'))
      by (apply (parseStatement_progress (S (rest p))); lia).
    apply (post_call _ _ _ _ _ Hs). intros stmt p1 [T1 R1].
    assert (Hl : post (Parse_loop fuel n (statements ++ [stmt])) p1
              (fun statements' p' =>
                 (length statements' + rest p'
                  <= length (statements ++ [stmt]) + rest p1)%nat))
      by (apply IH; lia).
    apply (post_weaken _ _ _ _ Hl). intros sts p2 H.
    rewrite length_app in H. cbn [length] in H. lia.
Qed.

(** X27 (a statement takes a token).  Every statement the parser returns
    has consumed at least one token: a program has at most as many
    statements as the token list has tokens. *)
Theorem statements_at_most_tokens tokens program :
  Parse tokens = Ok program ->
  (length (Statements program) <= length tokens)%nat.
Proof.
  unfold Parse, Parse_with.
  pose proof (Parse_loop_count (S (length tokens)) (S (length tokens)) []
                (NewParser tokens)) as H.
  unfold post in H.
  destruct (Parse_loop _ _ _ _) as [[sts|e|e|] p']; try discriminate.
  intros [= <-]. cbn [Statements].
  assert (Hr : rest (NewParser tokens) = length tokens)
    by (unfold rest, NewParser; cbn; lia).
  rewrite Hr in H. cbn [length] in H.
  specialize (H ltac:(lia) ltac:(lia)). lia.
Qed.

Lemma statements_at_most_tokens_witness :
  (length (Statements (mkProgram [PrintStatement (Identifier "x")]))
   <= length [mkToken TokenPrint "print" 1 1 (PString "print");
              mkToken TokenIdentifier "x" 1 7 (PString "x")])%nat.
Proof.
  apply (statements_at_most_tokens
           [mkToken TokenPrint "print" 1 1 (PString "print");
            mkToken TokenIdentifier "x" 1 7 (PString "x")]
           (mkProgram [PrintStatement (Identifier "x")])).
  vm_compute. reflexivity.
Defined.

(** ** From tokens to trees *)

Lemma Tokenize_scanned source ts :
  Tokenize source = Ok ts -> Forall scanned_token ts.
Proof.
  intros E.
  destruct (Tokenize_produced source ts E) as (l & -> & Hf & _ & _).
  apply Forall_app. split.
  - apply (Forall_impl _ _ _ Hf). intros t Ht. right.
    exact (produced_well_formed _ _ Ht).
  - apply Forall_singleton. left. reflexivity.
Qed.

Lemma current_of_tokens ts p : scanned ts p -> token_of ts (current_token p).
Proof.
  intros [<- H]. unfold token_of, current_token.
  destruct (Nat.leb_spec (length (parser.tokens p)) (pos p)) as [Hl|Hl].
  - rewrite nth_overflow by exact Hl.
    split; [left; reflexivity | intros Hn; exfalso; apply Hn; reflexivity].
  - destruct (lookup_lt_is_Some_2 (parser.tokens p) (pos p) Hl) as [t Ht].
    rewrite nth_lookup, Ht. cbn. split.
    + exact (proj1 (Forall_lookup _ _) H _ _ Ht).
    + intros _. exact (list_elem_of_lookup_2 _ _ _ Ht).
Qed.

Lemma current_scanned ts p : scanned ts p -> scanned_token (current_token p).
Proof. intros H. exact (proj1 (current_of_tokens ts p H)). Qed.

Lemma lexeme_of_token ts t ty :
  token_of ts t -> lexer.Type_ t = ty -> ty <> TokenEOF ->
  lexeme_of ts ty (lexer.Value t) = true.
Proof.
  intros [_ Hin] Hty Hn. unfold lexeme_of. apply existsb_exists.
  exists t. split.
  - apply list_elem_of_In, Hin. congruence.
  - apply bool_decide_eq_true. split; [exact Hty | reflexivity].
Qed.

Lemma scanned_types t :
  scanned_token t ->
  lexer.Type_ t ∉ [TokenError; TokenBoolean; TokenAnd; TokenOr].
Proof.
  intros [H|H]; [rewrite H; compute_done|].
  destruct (well_formed_type t H) as [Hn _].
  revert Hn. rewrite !elem_of_cons. tauto.
Qed.

(** The payload of a number or text token is a string. *)
Lemma scanned_literal t :
  scanned_token t ->
  lexer.Type_ t = TokenNumber \/ lexer.Type_ t = TokenText ->
  lexer.Literal t = PString (lexer.Value t).
Proof.
  intros [H|[(Ht & Hl & _)|[(Ht & Hl & _)|[(Ht & Hl & _)|(Hin & Hl)]]]] Hty;
    try assumption.
  - destruct Hty; congruence.
  - exfalso. revert Hin. unfold punctuation.
    rewrite !elem_of_cons, !elem_of_nil.
    destruct Hty as [-> | ->]; intuition discriminate.
Qed.

(** The lexeme of an operator token is the operator. *)
Lemma scanned_punctuation t ty v :
  scanned_token t -> lexer.Type_ t = ty -> (ty, v) ∈ punctuation ->
  (forall v', (ty, v') ∈ punctuation -> v' = v) ->
  lexer.Value t = v.
Proof.
  intros [H|[(Ht & _)|[(Ht & _)|[(Ht & _)|(Hin & _)]]]] Hty Hp Hu.
  - exfalso. rewrite Hty in H. subst ty. revert Hp. unfold punctuation.
    rewrite !elem_of_cons, !elem_of_nil. intuition discriminate.
  - exfalso. rewrite Hty in Ht. subst ty. revert Hp. unfold punctuation.
    rewrite !elem_of_cons, !elem_of_nil. intuition discriminate.
  - exfalso. rewrite Hty in Ht. subst ty. revert Hp. unfold punctuation.
    rewrite !elem_of_cons, !elem_of_nil. intuition discriminate.
  - exfalso. pose proof (getKeywordType_word (lexer.Value t)) as Hw.
    rewrite <- Ht, Hty in Hw. revert Hp Hw. unfold punctuation, word_types.
    rewrite !elem_of_cons, !elem_of_nil. intros Hp.
    repeat destruct Hp as [Hp|Hp]; try contradiction;
      injection Hp as -> _; intuition discriminate.
  - rewrite Hty in Hin. exact (Hu _ Hin).
Qed.

Lemma scanned_binary t :
  scanned_token t -> lexer.Type_ t ∈ binary_types ->
  lexer.Value t ∈ binary_operators.
Proof.
  intros Hs Hty. pose proof (scanned_types t Hs) as Hn.
  assert (Hu : forall ty v, (ty, v) ∈ punctuation ->
            forall v', (ty, v') ∈ punctuation -> v' = v).
  { intros ty v. unfold punctuation. rewrite !elem_of_cons, !elem_of_nil.
    intros Hp v'. rewrite !elem_of_cons, !elem_of_nil. intros Hp'.
    repeat destruct Hp as [Hp|Hp]; try contradiction; injection Hp as -> ->;
      repeat destruct Hp' as [Hp'|Hp']; try contradiction;
      try discriminate; injection Hp' as ->; reflexivity. }
  revert Hty Hn. unfold binary_types. rewrite !elem_of_cons, !elem_of_nil.
  intros Hty Hn.
  repeat destruct Hty as [Hty|Hty]; try contradiction;
    try (exfalso; apply Hn; rewrite Hty; tauto);
    match type of Hty with
    | _ = ?ty =>
        match eval cbv in
              (snd <$> list_find (fun x => bool_decide (fst x = ty)) punctuation)
        with
        | Some (_, ?v) =>
            rewrite (scanned_punctuation t ty v Hs Hty ltac:(compute_done)
                       (Hu ty v ltac:(compute_done)));
            compute_done
        end
    end.
Qed.

Lemma scanned_unary t :
  scanned_token t ->
  lexer.Type_ t = TokenMinus \/ lexer.Type_ t = TokenNot ->
  lexer.Value t ∈ unary_operators.
Proof.
  intros Hc [Ec|Ec].
  - rewrite (scanned_punctuation _ TokenMinus "-" Hc Ec); [compute_done..|].
    intros v'. unfold punctuation. rewrite !elem_of_cons, !elem_of_nil.
    intuition congruence.
  - rewrite (scanned_punctuation _ TokenNot "!" Hc Ec); [compute_done..|].
    intros v'. unfold punctuation. rewrite !elem_of_cons, !elem_of_nil.
    intuition congruence.
Qed.

Lemma scanned_type_keyword t :
  scanned_token t -> is_type_keyword (lexer.Type_ t) = true ->
  exists ty, TypeFromString (lexer.Value t) = inl ty /\ declarable ty = true.
Proof.
  intros [H|[(Ht & _)|[(Ht & _)|[(Ht & _)|(Hin & _)]]]] Hk;
    try (rewrite ?H, ?Ht in Hk; discriminate).
  - rewrite Ht in Hk.
    destruct (getKeywordType_type_keyword _ Hk) as (ty & Hty & _ & Hv).
    exists ty. split; [exact Hty|]. unfold declarable.
    rewrite bool_decide_false by exact Hv. reflexivity.
  - exfalso. revert Hin Hk. unfold punctuation.
    rewrite !elem_of_cons, !elem_of_nil. intros Hin.
    repeat destruct Hin as [Hin|Hin]; try contradiction;
      injection Hin as -> _; discriminate.
Qed.

(** The trees of a token list are trees that come from a source text. *)
Lemma expression_of_tokens_from_source ts : forall e,
  expression_of_tokens ts e = true -> expression_from_source e = true.
Proof.
  fix IH 1. intros [v t|name|l op r|op e|name args];
    cbn [expression_of_tokens expression_from_source].
  - destruct v; try discriminate. destruct t; try discriminate; reflexivity.
  - reflexivity.
  - intros H. apply andb_prop in H as [H Hr]. apply andb_prop in H as [Ho Hl].
    rewrite Ho, (IH l Hl), (IH r Hr). reflexivity.
  - intros H. apply andb_prop in H as [Ho He]. rewrite Ho, (IH e He).
    reflexivity.
  - intros H. apply andb_prop in H as [_ H]. revert args H.
    fix IHl 1. intros [|a args]; [reflexivity|]. cbn [forallb].
    intros H. apply andb_prop in H as [Ha Hargs].
    rewrite (IH a Ha), (IHl args Hargs). reflexivity.
Qed.

Lemma statement_of_tokens_from_source ts : forall s,
  statement_of_tokens ts s = true -> statement_from_source s = true.
Proof.
  fix IH 1.
  assert (IHl : forall body, forallb (statement_of_tokens ts) body = true ->
            forallb statement_from_source body = true).
  { fix IHl 1. intros [|a body]; [reflexivity|]. cbn [forallb].
    intros H. apply andb_prop in H as [Ha Hb].
    rewrite (IH a Ha), (IHl body Hb). reflexivity. }
  intros [t name v|name v|c a b|var f t b|name ps r b|v];
    cbn [statement_of_tokens statement_from_source]; intros H;
    repeat match type of H with
           | _ && _ = true => let H' := fresh "H" in apply andb_prop in H as [H H']
           end;
    repeat match goal with
           | H : expression_of_tokens ts _ = true |- _ =>
               rewrite (expression_of_tokens_from_source ts _ H); clear H
           | H : forallb (statement_of_tokens ts) _ = true |- _ =>
               rewrite (IHl _ H); clear H
           | H : _ = true |- _ => rewrite H; clear H
           end; reflexivity.
Qed.

(** *** Results of the parsing routines *)

Section TreesOfTokens.

Variable ts : list Token.

Local Abbreviation yields := (syntax.yields ts).
Local Abbreviation yields_at := (syntax.yields_at ts).
Local Abbreviation scanned := (syntax.scanned ts).
Local Abbreviation expression_ok := (fun e => expression_of_tokens ts e = true).
Local Abbreviation statement_ok := (fun s => statement_of_tokens ts s = true).
Local Abbreviation expressions_ok :=
  (fun es => forallb (expression_of_tokens ts) es = true).
Local Abbreviation statements_ok :=
  (fun ss => forallb (statement_of_tokens ts) ss = true).

Lemma yields_ret {A} (a : A) (Q : A -> Prop) : Q a -> yields (ret a) Q.
Proof. intros H p a' p' Hs [= <- <-]. auto. Qed.

Lemma yields_fail {A} msg (Q : A -> Prop) : yields (fail msg) Q.
Proof. intros p a p' _ E. discriminate. Qed.

Lemma yields_timeout {A} (Q : A -> Prop) : yields timeout Q.
Proof. intros p a p' _ E. discriminate. Qed.

Lemma yields_at_bind {A B} (m : M Parser A) (k : A -> M Parser B) p R Q :
  yields_at m p R -> (forall a, R a -> yields (k a) Q) ->
  yields_at (bind m k) p Q.
Proof.
  intros Hm Hk b p' Hs. unfold bind.
  destruct (m p) as [[a|e|e|] p1] eqn:E; try discriminate.
  destruct (Hm a p1 Hs E) as [Hs1 HR].
  exact (Hk a HR p1 b p' Hs1).
Qed.

Lemma yields_bind {A B} (m : M Parser A) (k : A -> M Parser B) R Q :
  yields m R -> (forall a, R a -> yields (k a) Q) -> yields (bind m k) Q.
Proof. intros Hm Hk p. exact (yields_at_bind m k p R Q (Hm p) Hk). Qed.

Lemma yields_weaken {A} (m : M Parser A) (R Q : A -> Prop) :
  yields m R -> (forall a, R a -> Q a) -> yields m Q.
Proof.
  intros Hm H p a p' Hs E. destruct (Hm p a p' Hs E). auto.
Qed.

Lemma yields_advance : yields parser.advance (fun _ => True).
Proof.
  intros p a p' Hs [= <- <-]. split; [exact Hs | exact I].
Qed.

Lemma yields_current : yields current (token_of ts).
Proof.
  intros p a p' Hs. rewrite current_reads. intros [= <- <-].
  split; [exact Hs | exact (current_of_tokens ts p Hs)].
Qed.

Lemma yields_peek : yields peek (fun _ => True).
Proof.
  intros p a p' Hs. rewrite peek_reads. intros [= <- <-].
  split; [exact Hs | exact I].
Qed.

(** [current] leaves the parser where it is. *)
Lemma yields_at_current {B} (k : Token -> M Parser B) p Q :
  (scanned p -> yields_at (k (current_token p)) p Q) ->
  yields_at (bind current k) p Q.
Proof.
  intros H b p' Hs. unfold bind. rewrite current_reads. exact (H Hs b p' Hs).
Qed.

Lemma yields_expect ty msg : yields (expect ty msg) (fun _ => True).
Proof.
  unfold expect. apply (yields_bind _ _ _ _ yields_current). intros t _.
  destruct (bool_decide _); [apply yields_ret; exact I | apply yields_fail].
Qed.

Lemma yields_guard (b : bool) msg :
  yields (if b then ret tt else fail msg) (fun _ => b = true).
Proof. destruct b; [apply yields_ret; reflexivity | apply yields_fail]. Qed.

Lemma yields_lift_type r : yields (lift_type r) (fun ty => r = inl ty).
Proof. destruct r; [apply yields_ret; reflexivity | apply yields_fail]. Qed.

(** A test of the current token. *)
Lemma yields_ite {A} (c : Token -> bool) (m1 m2 : Token -> M Parser A) Q :
  (forall t, token_of ts t -> c t = true -> yields (m1 t) Q) ->
  (forall t, token_of ts t -> c t = false -> yields (m2 t) Q) ->
  yields (let* token := current in if c token then m1 token else m2 token) Q.
Proof.
  intros H1 H2. apply (yields_bind _ _ _ _ yields_current). intros t Ht.
  destruct (c t) eqn:E; [apply H1 | apply H2]; assumption.
Qed.

Lemma yields_comma msg (b : bool) :
  yields (if b then expect TokenComma msg;; parser.advance else ret tt)
    (fun _ => True).
Proof.
  destruct b; [|apply yields_ret; exact I].
  apply (yields_bind _ _ _ _ (yields_expect _ _)). intros _ _.
  apply yields_advance.
Qed.

Ltac yields_step :=
  lazymatch goal with
  | |- syntax.yields _ (bind parser.advance _) _ =>
      apply (yields_bind _ _ _ _ yields_advance); intros _ _
  | |- syntax.yields _ (bind (expect _ _) _) _ =>
      apply (yields_bind _ _ _ _ (yields_expect _ _)); intros _ _
  | |- syntax.yields _ (bind current _) _ =>
      apply (yields_bind _ _ _ _ yields_current); intros ? ?
  | |- syntax.yields _ (ret _) _ => apply yields_ret
  | |- syntax.yields _ (fail _) _ => apply yields_fail
  | |- syntax.yields _ timeout _ => apply yields_timeout
  end.

Section ExpressionsFromSource.

Variable rec : M Parser Expression.
Hypothesis Hrec : yields rec expression_ok.

Lemma parseFunctionCall_loop_yields n : forall args,
  forallb (expression_of_tokens ts) args = true ->
  yields (parseFunctionCall_loop rec n args) expressions_ok.
Proof.
  induction n as [|n IH]; intros args Ha; cbn [parseFunctionCall_loop];
    apply yields_ite; intros t Ht Hc; try yields_step; try assumption.
  apply (yields_bind _ _ _ _ (yields_comma _ _)). intros _ _.
  apply (yields_bind _ _ _ _ Hrec). intros arg Harg.
  apply IH. rewrite forallb_app. cbn. rewrite Ha, Harg. reflexivity.
Qed.

Lemma parseFunctionCall_yields n name :
  lexeme_of ts TokenIdentifier name = true ->
  yields (parseFunctionCall rec n name) expression_ok.
Proof.
  intros Hn. unfold parseFunctionCall. yields_step.
  apply (yields_bind _ _ _ _ (parseFunctionCall_loop_yields n [] eq_refl)).
  intros args Ha. repeat yields_step. cbn. rewrite Hn, Ha. reflexivity.
Qed.

Lemma parsePrimary_yields n : yields (parsePrimary rec n) expression_ok.
Proof.
  unfold parsePrimary. yields_step.
  rename H into Ht. pose proof (proj1 Ht) as Hs.
  destruct (lexer.Type_ a) eqn:Et; try apply yields_fail.
  - yields_step. yields_step. cbn.
    rewrite (scanned_literal a Hs (or_introl Et)).
    apply (lexeme_of_token ts a _ Ht Et). discriminate.
  - yields_step. yields_step. cbn.
    rewrite (scanned_literal a Hs (or_intror Et)).
    apply (lexeme_of_token ts a _ Ht Et). discriminate.
  - exfalso. apply (scanned_types a Hs). rewrite Et. compute_done.
  - assert (Hn : lexeme_of ts TokenIdentifier (lexer.Value a) = true)
      by (apply (lexeme_of_token ts a _ Ht Et); discriminate).
    yields_step. apply yields_ite; intros t _ _;
      [apply parseFunctionCall_yields; exact Hn|].
    yields_step. exact Hn.
  - yields_step. apply (yields_bind _ _ _ _ Hrec). intros e He.
    repeat yields_step. exact He.
Qed.

Lemma parseUnary_yields n : yields (parseUnary rec n) expression_ok.
Proof.
  induction n as [|n IH]; cbn [parseUnary]; apply yields_ite; intros t Ht Hc;
    try apply parsePrimary_yields; try yields_step.
  assert (Hop : lexer.Value t ∈ unary_operators).
  { apply (scanned_unary t (proj1 Ht)).
    apply orb_true_iff in Hc as [Hc|Hc]; apply bool_decide_eq_true in Hc;
      [left | right]; exact Hc. }
  apply (yields_bind _ _ _ _ IH). intros e He.
  yields_step. cbn. rewrite He, bool_decide_true by exact Hop.
  reflexivity.
Qed.

Lemma binary_loop_yields ops (operand : M Parser Expression) :
  (forall ty, ty ∈ ops -> ty ∈ binary_types) ->
  yields operand expression_ok ->
  forall n left,
    expression_of_tokens ts left = true ->
    yields (binary_loop ops operand n left) expression_ok.
Proof.
  intros Hops Hoperand.
  induction n as [|n IH]; intros left Hl; cbn [binary_loop];
    apply yields_ite; intros t Ht Hc; try yields_step; try assumption.
  assert (Hop : lexer.Value t ∈ binary_operators).
  { apply bool_decide_eq_true in Hc.
    exact (scanned_binary _ (proj1 Ht) (Hops _ Hc)). }
  apply (yields_bind _ _ _ _ Hoperand). intros right Hr.
  apply IH. cbn. rewrite Hl, Hr, bool_decide_true by exact Hop.
  reflexivity.
Qed.

Lemma binary_level_yields ops (operand : M Parser Expression) n :
  (forall ty, ty ∈ ops -> ty ∈ binary_types) ->
  yields operand expression_ok ->
  yields (let* left := operand in binary_loop ops operand n left)
    expression_ok.
Proof.
  intros Hops Hoperand. apply (yields_bind _ _ _ _ Hoperand).
  intros left Hl. apply binary_loop_yields; assumption.
Qed.

Ltac in_binary_types :=
  intros ty; unfold binary_types; rewrite !elem_of_cons, !elem_of_nil; tauto.

Lemma parseLogicalOr_yields n : yields (parseLogicalOr rec n) expression_ok.
Proof.
  apply binary_level_yields; [in_binary_types|].
  apply binary_level_yields; [in_binary_types|].
  apply binary_level_yields; [in_binary_types|].
  apply binary_level_yields; [in_binary_types|].
  apply binary_level_yields; [in_binary_types|].
  apply binary_level_yields; [in_binary_types|].
  apply parseUnary_yields.
Qed.

End ExpressionsFromSource.

Lemma parseExpression_yields fuel : yields (parseExpression fuel) expression_ok.
Proof.
  induction fuel as [|fuel IH]; cbn [parseExpression];
    [apply yields_timeout | apply parseLogicalOr_yields, IH].
Qed.

Lemma parseAssignment_yields fuel :
  yields (parseAssignment fuel) statement_ok.
Proof.
  unfold parseAssignment. repeat yields_step.
  apply (yields_bind _ _ _ _ (parseExpression_yields fuel)). intros e He.
  yields_step. exact He.
Qed.

Lemma parsePrintStatement_yields fuel :
  yields (parsePrintStatement fuel) statement_ok.
Proof.
  unfold parsePrintStatement. yields_step.
  apply (yields_bind _ _ _ _ (parseExpression_yields fuel)). intros e He.
  yields_step. exact He.
Qed.

Lemma parseExpressionStatement_yields fuel :
  yields (parseExpressionStatement fuel) statement_ok.
Proof.
  unfold parseExpressionStatement.
  apply (yields_bind _ _ _ _ (parseExpression_yields fuel)). intros e He.
  yields_step. exact He.
Qed.

(** At a type keyword, the declared type is the type the keyword names. *)
Lemma parseVariableDeclaration_yields fuel p :
  is_type_keyword (lexer.Type_ (current_token p)) = true ->
  yields_at (parseVariableDeclaration fuel) p statement_ok.
Proof.
  intros Hk. unfold parseVariableDeclaration. apply yields_at_current.
  intros Hs.
  destruct (scanned_type_keyword _ (current_scanned ts p Hs) Hk)
    as (ty & Hty & Hd).
  rewrite Hty. generalize p. change (yields
    (parser.advance;;
     expect TokenIdentifier "expected identifier after type, got ";;
     let* nameToken := current in
     parser.advance;;
     expect TokenAssign "expected '=' after variable name, got ";;
     parser.advance;;
     let* value := parseExpression fuel in
     let* varType := lift_type (inl ty) in
     ret (VariableDeclaration varType (lexer.Value nameToken) value))
    statement_ok).
  repeat yields_step.
  apply (yields_bind _ _ _ _ (parseExpression_yields fuel)). intros e He.
  cbn [lift_type].
  apply (yields_bind _ _ _ _ (yields_ret ty (fun t => t = ty) eq_refl)).
  intros t ->. yields_step. cbn. rewrite Hd, He. reflexivity.
Qed.

Lemma parseParameters_loop_yields n : forall parameters,
  forallb (fun p => declarable (param_Type p)) parameters = true ->
  yields (parseParameters_loop n parameters)
    (fun ps => forallb (fun p => declarable (param_Type p)) ps = true).
Proof.
  induction n as [|n IH]; intros parameters Hp; cbn [parseParameters_loop];
    apply yields_ite; intros t0 Ht0 Hc0; try yields_step; try assumption.
  apply (yields_bind _ _ _ _ (yields_comma _ _)). intros _ _.
  yields_step. rename a into typeToken, H into Hs.
  apply (yields_bind _ _ _ _ (yields_guard _ _)). intros _ Hk.
  apply (yields_bind _ _ _ _ (yields_lift_type _)). intros ty Hty.
  repeat yields_step. apply IH.
  destruct (scanned_type_keyword _ (proj1 Hs) Hk) as (ty' & Hty' & Hd).
  rewrite Hty in Hty'. injection Hty' as <-.
  rewrite forallb_app. cbn. rewrite Hp, Hd. reflexivity.
Qed.

Section StatementsFromSource.

Variable recS : M Parser Statement.
Hypothesis Hrec : yields recS statement_ok.

Lemma block_loop_yields stops n : forall body,
  forallb (statement_of_tokens ts) body = true ->
  yields (block_loop recS stops n body) statements_ok.
Proof.
  induction n as [|n IH]; intros body Hb; cbn [block_loop];
    apply yields_ite; intros t Ht Hc; try yields_step; try assumption.
  apply (yields_bind _ _ _ _ Hrec). intros stmt Hstmt.
  apply IH. rewrite forallb_app. cbn. rewrite Hb, Hstmt. reflexivity.
Qed.

Lemma parseIfStatement_yields fuel :
  yields (parseIfStatement recS fuel) statement_ok.
Proof.
  unfold parseIfStatement. yields_step.
  apply (yields_bind _ _ _ _ (parseExpression_yields fuel)). intros c Hc.
  repeat yields_step.
  apply (yields_bind _ _ _ _ (block_loop_yields _ fuel [] eq_refl)).
  intros thenBody Ht.
  apply (yields_bind _ _ statements_ok).
  { apply yields_ite; intros t _ _; [|yields_step; reflexivity].
    yields_step. apply (block_loop_yields _ fuel [] eq_refl). }
  intros elseBody He. repeat yields_step. cbn. rewrite Hc, Ht, He.
  reflexivity.
Qed.

Lemma parseLoopStatement_yields fuel :
  yields (parseLoopStatement recS fuel) statement_ok.
Proof.
  unfold parseLoopStatement. repeat yields_step.
  apply (yields_bind _ _ _ _ (parseExpression_yields fuel)). intros f Hf.
  repeat yields_step.
  apply (yields_bind _ _ _ _ (parseExpression_yields fuel)). intros t Ht.
  apply (yields_bind _ _ _ _ (block_loop_yields _ fuel [] eq_refl)).
  intros body Hb. repeat yields_step. cbn. rewrite Hf, Ht, Hb. reflexivity.
Qed.

Lemma parseFunctionDeclaration_yields fuel :
  yields (parseFunctionDeclaration recS fuel) statement_ok.
Proof.
  unfold parseFunctionDeclaration. repeat yields_step.
  apply (yields_bind _ _ _ _ (parseParameters_loop_yields fuel [] eq_refl)).
  intros ps Hps. yields_step.
  apply (yields_bind _ _ _ _ (block_loop_yields _ fuel [] eq_refl)).
  intros body Hb. repeat yields_step. cbn. rewrite Hps, Hb. reflexivity.
Qed.

Lemma parseStatement_body_yields fuel :
  yields (parseStatement_body recS fuel) statement_ok.
Proof.
  intros p. unfold parseStatement_body. apply yields_at_current. intros Hs.
  destruct (lexer.Type_ (current_token p)) eqn:Et; try apply yields_fail;
    try (apply parseVariableDeclaration_yields; rewrite Et; reflexivity).
  - apply (yields_bind _ _ _ _ yields_peek). intros next _.
    destruct (bool_decide _);
      [apply parseAssignment_yields | apply parseExpressionStatement_yields].
  - apply parseFunctionDeclaration_yields.
  - apply parseIfStatement_yields.
  - apply parseLoopStatement_yields.
  - apply parsePrintStatement_yields.
Qed.

End StatementsFromSource.

Lemma parseStatement_yields fuel : yields (parseStatement fuel) statement_ok.
Proof.
  induction fuel as [|fuel IH]; cbn [parseStatement];
    [apply yields_timeout | apply parseStatement_body_yields, IH].
Qed.

Lemma Parse_loop_yields fuel n : forall statements,
  forallb (statement_of_tokens ts) statements = true ->
  yields (Parse_loop fuel n statements) statements_ok.
Proof.
  induction n as [|n IH]; intros statements Hs; cbn [Parse_loop];
    apply yields_ite; intros t Ht Hc; try yields_step; try assumption.
  apply (yields_bind _ _ _ _ (parseStatement_yields fuel)). intros stmt Hstmt.
  apply IH. rewrite forallb_app. cbn. rewrite Hs, Hstmt. reflexivity.
Qed.

End TreesOfTokens.

Lemma Parse_of_tokens ts program :
  Forall scanned_token ts -> Parse ts = Ok program ->
  forallb (statement_of_tokens ts) (Statements program) = true.
Proof.
  intros Hs. unfold Parse, Parse_with.
  pose proof (Parse_loop_yields ts (S (length ts)) (S (length ts)) [] eq_refl
                (NewParser ts)) as H.
  destruct (Parse_loop _ _ _ _) as [[sts|e|e|] p'] eqn:E; try discriminate.
  intros [= <-]. cbn [Statements].
  exact (proj2 (H sts p' (conj eq_refl Hs) E)).
Qed.

Lemma Parse_from_source ts program :
  Forall scanned_token ts -> Parse ts = Ok program ->
  forallb statement_from_source (Statements program) = true.
Proof.
  intros Hs Hp. pose proof (Parse_of_tokens ts program Hs Hp) as H.
  revert H. generalize (Statements program). intros sts.
  induction sts as [|s sts IH]; [reflexivity|]. cbn [forallb].
  intros H. apply andb_prop in H as [H1 H2].
  rewrite (statement_of_tokens_from_source ts s H1), (IH H2). reflexivity.
Qed.

(** X28 (the trees that come from a source).  In a program parsed from a
    scanned source every binary operator is one of [+ - * / == != < <= > >=]
    and every unary operator is [-] or [!]; every literal is a number or a
    text and holds the lexeme of a number or text token of the source, and
    every identifier and every name of a called function is the lexeme of an
    identifier token of the source; every declared variable and every
    parameter is of the type number, text or boolean, and every function is
    declared to return [void].  No expression is an [and], an [or] or a
    boolean literal. *)
Theorem parsed_from_source source ts program :
  Tokenize source = Ok ts -> Parse ts = Ok program ->
  forallb (statement_of_tokens ts) (Statements program) = true.
Proof.
  intros Ht. apply Parse_of_tokens. exact (Tokenize_scanned source ts Ht).
Qed.

Lemma parsed_from_source_witness :
  exists ts program,
    Tokenize ("if x <= 2 then print -x end") = Ok ts
    /\ Parse ts = Ok program
    /\ forallb (statement_of_tokens ts) (Statements program) = true.
Proof.
  do 2 eexists. split; [vm_compute; reflexivity|].
  split; [vm_compute; reflexivity|].
  lazymatch goal with
  | |- forallb (statement_of_tokens ?ts) (Statements ?P) = true =>
      apply (parsed_from_source "if x <= 2 then print -x end" ts P)
  end; vm_compute; reflexivity.
Defined.
(** ** Diagnostics that a source text cannot cause *)

Lemma sound_ret {A} (a : A) : sound (ret a).
Proof. intros i H. split; [exact H | discriminate]. Qed.

Lemma sound_timeout {A} : sound (@timeout Interpreter A).
Proof. intros i H. split; [exact H | discriminate]. Qed.

Lemma sound_fail {A} msg :
  unreachable_message msg = false -> sound (@fail Interpreter A msg).
Proof. intros Hm i H. split; [exact H | intros ? [= <-]; exact Hm]. Qed.

Lemma sound_at_bind {A B} (m : M Interpreter A) (k : A -> M Interpreter B) i :
  sound_at m i ->
  (forall a i', m i = (Ok a, i') ->
     environment_from_source (environment i') -> sound_at (k a) i') ->
  sound_at (bind m k) i.
Proof.
  intros Hm Hk H. specialize (Hm H). unfold bind.
  destruct (m i) as [[a|e|e|] i1] eqn:E; cbn [fst snd] in *.
  - exact (Hk a i1 eq_refl (proj1 Hm) (proj1 Hm)).
  - split; [exact (proj1 Hm) | intros msg [= <-]; exact (proj2 Hm e eq_refl)].
  - split; [exact (proj1 Hm) | discriminate].
  - split; [exact (proj1 Hm) | discriminate].
Qed.

Lemma sound_bind {A B} (m : M Interpreter A) (k : A -> M Interpreter B) :
  sound m -> (forall a, sound (k a)) -> sound (bind m k).
Proof.
  intros Hm Hk i. apply sound_at_bind; [apply Hm|].
  intros a i' _ _. apply Hk.
Qed.

Lemma sound_in_environment {A} env (m : M Interpreter A) :
  environment_from_source env -> sound m -> sound (in_environment env m).
Proof.
  intros He Hm i H. unfold in_environment.
  specialize (Hm (set_environment env i) He).
  destruct (m (set_environment env i)) as [r i1]. cbn [fst snd] in *.
  split; [exact H | exact (proj2 Hm)].
Qed.

Lemma from_source_NewEnvironment e :
  environment_from_source e -> environment_from_source (NewEnvironment (Some e)).
Proof. intros H. split; [apply map_Forall_empty | exact H]. Qed.

Lemma from_source_SetVariable e name value :
  environment_from_source e -> environment_from_source (SetVariable e name value).
Proof. destruct e as [vs fs p]. exact (fun H => H). Qed.

Lemma from_source_SetFunction e name function :
  forallb statement_from_source (fn_Body function) = true ->
  environment_from_source e ->
  environment_from_source (SetFunction e name function).
Proof.
  destruct e as [vs fs p]. intros Hf [Hfs Hp]. split; [|exact Hp].
  cbn. apply map_Forall_insert_2; assumption.
Qed.

Lemma from_source_GetFunction : forall e name function,
  environment_from_source e -> GetFunction e name = Some function ->
  forallb statement_from_source (fn_Body function) = true.
Proof.
  fix IH 1. intros [vs fs p] name function [Hfs Hp]. cbn [GetFunction].
  destruct (fs !! name) as [f|] eqn:Ef.
  - intros [= <-]. exact (Hfs name f Ef).
  - destruct p as [e'|]; [|discriminate]. apply IH, Hp.
Qed.

Ltac sound_message := apply sound_fail; reflexivity.

Lemma sound_operator op lv rv :
  op ∈ binary_operators ->
  sound (if string_dec op "+" then add lv rv
         else if string_dec op "-" then subtract lv rv
         else if string_dec op "*" then multiply lv rv
         else if string_dec op "/" then divide lv rv
         else if string_dec op "==" then equal lv rv
         else if string_dec op "!=" then notEqual lv rv
         else if string_dec op "<" then lessThan lv rv
         else if string_dec op "<=" then lessEqual lv rv
         else if string_dec op ">" then greaterThan lv rv
         else if string_dec op ">=" then greaterEqual lv rv
         else if string_dec op "and" then logicalAnd lv rv
         else if string_dec op "or" then logicalOr lv rv
         else fail ("unknown binary operator: " ++ op)).
Proof.
  intros Hop.
  repeat (destruct (string_dec op _) as [->|?]);
    try (exfalso; revert Hop; unfold binary_operators;
         rewrite !elem_of_cons, elem_of_nil; intuition congruence);
    destruct lv, rv;
    try apply sound_ret; try sound_message.
  unfold divide. destruct (float64.eqb _ _); [sound_message | apply sound_ret].
Qed.

Lemma sound_bind_parameters name ps : forall args env i env' i',
  environment_from_source env ->
  bind_parameters name ps args env i = (Ok env', i') ->
  environment_from_source env' /\ i' = i.
Proof.
  induction ps as [|p ps IH]; intros [|a args] env i env' i' He;
    cbn [bind_parameters]; try (intros [= <- <-]; auto).
  destruct (negb _); [discriminate|].
  apply IH, from_source_SetVariable, He.
Qed.

Lemma bind_parameters_message name ps : forall args env i msg i',
  bind_parameters name ps args env i = (Err msg, i') ->
  unreachable_message msg = false /\ i' = i.
Proof.
  induction ps as [|p ps IH]; intros [|a args] env i msg i';
    cbn [bind_parameters]; try discriminate.
  destruct (negb _); [intros [= <- <-]; split; reflexivity | apply IH].
Qed.

Lemma bind_parameters_answers name ps : forall args env i,
  fst (bind_parameters name ps args env i) <> OutOfFuel
  /\ snd (bind_parameters name ps args env i) = i.
Proof.
  induction ps as [|p ps IH]; intros [|a args] env i;
    cbn [bind_parameters]; try (split; [discriminate | reflexivity]).
  destruct (negb _); [split; [discriminate | reflexivity] | apply IH].
Qed.

Lemma sound_get : sound (@get Interpreter).
Proof. intros i H. split; [exact H | discriminate]. Qed.

Lemma sound_parameters name ps args env : sound (bind_parameters name ps args env).
Proof.
  intros i H.
  destruct (bind_parameters_answers name ps args env i) as [_ Hs].
  rewrite Hs. split; [exact H|].
  intros msg Hm.
  destruct (bind_parameters name ps args env i) as [r i'] eqn:E.
  cbn [fst] in Hm. subst r.
  exact (proj1 (bind_parameters_message _ _ _ _ _ _ _ E)).
Qed.

Section Sound.

Variable ev : Expression -> M Interpreter Value.
Variable ex : Statement -> M Interpreter Value.
Hypothesis Hev : forall e, expression_from_source e = true -> sound (ev e).
Hypothesis Hex : forall s, statement_from_source s = true -> sound (ex s).

Lemma sound_executeStatements body :
  forallb statement_from_source body = true ->
  sound (executeStatements ex body).
Proof.
  induction body as [|st body IH]; cbn [executeStatements forallb];
    [intros _; apply sound_ret|].
  intros H. apply andb_prop in H as [Hs Hb].
  apply sound_bind; [apply Hex, Hs | intros _; apply IH, Hb].
Qed.

Lemma sound_evaluateArguments args : forall acc,
  forallb expression_from_source args = true ->
  sound (evaluateArguments ev args acc).
Proof.
  induction args as [|a args IH]; intros acc; cbn [evaluateArguments forallb];
    [intros _; apply sound_ret|].
  intros H. apply andb_prop in H as [Ha Hr].
  apply sound_bind; [apply Hev, Ha | intros v; apply IH, Hr].
Qed.

Lemma sound_expression_step e :
  expression_from_source e = true ->
  sound
    match e with
    | Literal v t => evaluateLiteral v t
    | Identifier name => evaluateIdentifier name
    | BinaryExpression l op r => evaluateBinaryExpression ev l op r
    | UnaryExpression op e => evaluateUnaryExpression ev op e
    | FunctionCall name args => evaluateFunctionCall ev ex name args
    end.
Proof.
  destruct e as [v t|name|l op r|op e|name args]; cbn [expression_from_source].
  - destruct v as [|s|b]; try discriminate; destruct t; try discriminate;
      intros _; unfold evaluateLiteral.
    + destruct (fmt.Sscanf_f s); [apply sound_ret | sound_message].
    + apply sound_ret.
  - intros _ i Hi. unfold evaluateIdentifier.
    destruct (GetVariable (environment i) name); (split; [exact Hi|]);
      [discriminate | intros ? [= <-]; reflexivity].
  - intros H. apply andb_prop in H as [H Hr]. apply andb_prop in H as [Hop Hl].
    apply bool_decide_eq_true in Hop. unfold evaluateBinaryExpression.
    apply sound_bind; [apply Hev, Hl | intros lv].
    apply sound_bind; [apply Hev, Hr | intros rv].
    apply sound_operator, Hop.
  - intros H. apply andb_prop in H as [Hop He].
    apply bool_decide_eq_true in Hop. unfold evaluateUnaryExpression.
    apply sound_bind; [apply Hev, He | intros v].
    repeat (destruct (string_dec op _) as [->|?]);
      try (exfalso; revert Hop; unfold unary_operators;
           rewrite !elem_of_cons, elem_of_nil; intuition congruence);
      destruct v; try apply sound_ret; sound_message.
  - intros Ha i. unfold evaluateFunctionCall.
    apply sound_at_bind; [exact (sound_get i)|].
    intros i0 i' [= <- <-] Hi.
    destruct (GetFunction (environment i) name) as [f|] eqn:Ef;
      [|refine (sound_fail _ _ i); reflexivity].
    pose proof (from_source_GetFunction _ _ _ Hi Ef) as Hf.
    apply sound_at_bind; [exact (sound_evaluateArguments _ _ Ha i)|].
    intros vs i1 _ Hi1.
    destruct (negb _); [refine (sound_fail _ _ i1); reflexivity|].
    apply sound_at_bind; [exact (sound_get i1)|].
    intros i2 i3 [= <- <-] _.
    apply sound_at_bind; [exact (sound_parameters _ _ _ _ i1)|].
    intros env i4 Eb Hi4.
    destruct (sound_bind_parameters _ _ _ _ _ _ _
                (from_source_NewEnvironment _ Hi1) Eb) as [Henv ->].
    apply (sound_in_environment env _ Henv).
    apply sound_bind; [apply sound_executeStatements, Hf|].
    intros _. apply sound_ret.
Qed.

Lemma sound_setVariable name value : sound (setVariable name value).
Proof.
  intros i H. split; [|discriminate].
  exact (from_source_SetVariable _ name value H).
Qed.

Lemma sound_loop n var body : forall j to,
  forallb statement_from_source body = true ->
  sound (executeLoopStatement_loop ex n var body j to).
Proof.
  induction n as [|n IH]; intros j to Hb; cbn [executeLoopStatement_loop];
    destruct (float64.leb j to); try apply sound_ret; try apply sound_timeout.
  apply sound_bind; [apply sound_setVariable | intros _].
  apply sound_bind; [apply sound_executeStatements, Hb | intros _].
  apply IH, Hb.
Qed.

Lemma sound_statement_step st n :
  statement_from_source st = true ->
  sound
    match st with
    | VariableDeclaration t name v => executeVariableDeclaration ev t name v
    | Assignment name v => executeAssignment ev name v
    | IfStatement c t e => executeIfStatement ev ex c t e
    | LoopStatement v f t b => executeLoopStatement ev ex n v f t b
    | FunctionDeclaration n ps r b => executeFunctionDeclaration n ps r b
    | PrintStatement v => executePrintStatement ev v
    end.
Proof.
  destruct st as [t name v|name v|c t e|v f t b|fn ps r b|v];
    cbn [statement_from_source]; intros H.
  - apply andb_prop in H as [_ Hv]. unfold executeVariableDeclaration.
    apply sound_bind; [apply Hev, Hv | intros value].
    destruct (negb _); [sound_message|].
    apply sound_bind; [apply sound_setVariable | intros _; apply sound_ret].
  - unfold executeAssignment.
    apply sound_bind; [apply Hev, H | intros value].
    apply sound_bind; [apply sound_get | intros i0].
    destruct (GetVariable (environment i0) name); [|sound_message].
    apply sound_bind; [apply sound_setVariable | intros _; apply sound_ret].
  - apply andb_prop in H as [H He]. apply andb_prop in H as [Hc Ht].
    unfold executeIfStatement.
    apply sound_bind; [apply Hev, Hc | intros cv].
    destruct cv as [x|x|b|]; try sound_message.
    apply sound_bind; [|intros _; apply sound_ret].
    destruct b; apply sound_executeStatements; assumption.
  - apply andb_prop in H as [H Hb]. apply andb_prop in H as [Hf Ht].
    unfold executeLoopStatement.
    apply sound_bind; [apply Hev, Hf | intros fv].
    apply sound_bind; [apply Hev, Ht | intros tv].
    destruct fv; try sound_message. destruct tv; try sound_message.
    intros i. apply sound_at_bind; [exact (sound_get i)|].
    intros i0 i' [= <- <-] Hi.
    apply (sound_in_environment _ _ (from_source_NewEnvironment _ Hi)).
    apply sound_bind; [apply sound_loop, Hb | intros _; apply sound_ret].
  - apply andb_prop in H as [_ Hb]. unfold executeFunctionDeclaration.
    apply sound_bind; [|intros _; apply sound_ret].
    intros i Hi. split; [|discriminate].
    exact (from_source_SetFunction _ fn (mkFunction fn ps r b) Hb Hi).
  - unfold executePrintStatement.
    apply sound_bind; [apply Hev, H | intros value].
    apply sound_bind; [|intros _; apply sound_ret].
    intros i Hi. split; [exact Hi | discriminate].
Qed.

End Sound.

Lemma sound_evaluator fuel :
  (forall e, expression_from_source e = true ->
     sound (evaluateExpression fuel e))
  /\ (forall st, statement_from_source st = true ->
        sound (executeStatement fuel st)).
Proof.
  induction fuel as [|fuel [Hev Hex]].
  - split; intros; apply sound_timeout.
  - split; intros x Hx; cbn [evaluateExpression executeStatement].
    + apply (sound_expression_step _ _ Hev Hex x Hx).
    + apply (sound_statement_step _ _ Hev Hex x fuel Hx).
Qed.

(** X29 (diagnostics that no source text causes).  A program that comes
    from a source text never ends with "unknown binary operator", "unknown
    unary operator", "unknown literal type", "invalid number literal",
    "invalid text literal", "invalid boolean literal" or "cannot perform
    logical AND" or "OR": the scanner and the parser build no tree that leads
    the evaluator to them. *)
Theorem no_unreachable_message fuel source msg printed :
  main.pipeline fuel source = main.Executed (Err msg) printed ->
  unreachable_message msg = false.
Proof.
  unfold main.pipeline.
  destruct (Tokenize source) as [ts|e|e|] eqn:Et; try discriminate.
  destruct (Parse ts) as [program|e|e|] eqn:Ep; try discriminate.
  pose proof (Parse_from_source ts program (Tokenize_scanned source ts Et) Ep)
    as Hp.
  unfold run, Interpret.
  pose proof (sound_executeStatements _
                (proj2 (sound_evaluator fuel)) (Statements program) Hp
                NewInterpreter (conj (map_Forall_empty _) I)) as [_ Hs].
  destruct (executeStatements _ _ _) as [r i]. cbn [fst] in Hs.
  intros [= -> _]. apply Hs. reflexivity.
Qed.

Lemma no_unreachable_message_witness :
  main.pipeline 8 "boolean flag = true"
  = main.Executed (Err "undefined variable: true") []
  /\ unreachable_message "undefined variable: true" = false.
Proof.
  split; [vm_compute; reflexivity|].
  apply (no_unreachable_message 8 "boolean flag = true"
           "undefined variable: true" []).
  vm_compute. reflexivity.
Defined.

Import lexemes.

(** ** The lexemes and the source *)

Lemma append_nil_r s : s ++ EmptyString = s.
Proof.
  induction s as [|c s IH]; [reflexivity|].
  change (String c (s ++ EmptyString) = String c s). f_equal. exact IH.
Qed.

Lemma append_assoc' (a b c : string) : (a ++ b) ++ c = a ++ (b ++ c).
Proof.
  induction a as [|x a IH]; [reflexivity|].
  change (String x ((a ++ b) ++ c) = String x (a ++ (b ++ c))).
  f_equal. exact IH.
Qed.

Lemma lexemes_of_app ts us :
  lexemes_of (ts ++ us) = lexemes_of ts ++ lexemes_of us.
Proof.
  induction ts as [|t ts IH]; cbn [lexemes_of app]; [reflexivity|].
  rewrite IH, append_assoc'. reflexivity.
Qed.

Lemma substring_app s : forall a b,
  String.substring 0 a s ++ String.substring a b s
  = String.substring 0 (a + b) s.
Proof.
  induction s as [|c s IH]; intros [|a] b; try reflexivity.
  change (String c (String.substring 0 a s ++ String.substring a b s)
          = String c (String.substring 0 (a + b) s)).
  f_equal. apply IH.
Qed.

Lemma substring_all s : forall m,
  (String.length s <= m)%nat -> String.substring 0 m s = s.
Proof.
  induction s as [|c s IH]; intros [|m] H; cbn in *; try reflexivity; [lia|].
  rewrite IH by lia. reflexivity.
Qed.

Lemma char_is_eq c d : char_is c d = true -> c = d.
Proof. unfold char_is. apply Ascii.eqb_eq. Qed.

Lemma slice_one l :
  at_end l = false ->
  slice l (position l) (S (position l)) = String (currentChar l) EmptyString.
Proof.
  intros He. unfold slice.
  replace (S (position l) - position l)%nat with 1%nat by lia.
  rewrite (substring_cons _ _ _ _ (currentChar_get l He)), substring_nothing.
  reflexivity.
Qed.

Lemma slice_two l :
  at_end l = false -> at_end (lexer.advance l) = false ->
  slice l (position l) (S (S (position l)))
  = String (currentChar l)
      (String (currentChar (lexer.advance l)) EmptyString).
Proof.
  intros He He'. unfold slice.
  replace (S (S (position l)) - position l)%nat with 2%nat by lia.
  rewrite (substring_cons _ _ _ _ (currentChar_get l He)).
  rewrite (substring_cons _ _ _ _ (currentChar_get _ He')), substring_nothing.
  reflexivity.
Qed.

Lemma not_at_end_equal l :
  char_is (currentChar l) "="%char = true -> at_end l = false.
Proof.
  intros H. destruct (at_end l) eqn:E; [|reflexivity].
  rewrite (currentChar_at_end l E) in H. discriminate.
Qed.

(** The lexeme of a token is the piece of the input that the scanner has
    passed over while it read the token; a text token, whose lexeme leaves
    out the quotes, apart. *)
Lemma nextToken_lexeme l :
  at_end l = false ->
  lexer.Type_ (fst (nextToken l)) <> TokenError ->
  lexer.Type_ (fst (nextToken l)) <> TokenText ->
  lexer.Value (fst (nextToken l))
  = slice l (position l) (position (snd (nextToken l))).
Proof.
  intros He. unfold nextToken. cbv zeta.
  destruct (unicode.IsDigit (currentChar l)).
  { intros _ _. unfold readNumber. cbn [fst snd lexer.Value].
    apply slice_input. rewrite readNumber_loop_scan.
    apply (scan_while_reads_on _ _ counts_only_id). }
  destruct (char_is (currentChar l) quote).
  { unfold readText. destruct (at_end (readText_loop _ _));
      cbn [fst lexer.Type_]; intros H1 H2; exfalso; [apply H1 | apply H2];
      reflexivity. }
  destruct (unicode.IsLetter (currentChar l)).
  { intros _ _. rewrite readIdentifierOrKeyword_word.
    cbn [fst snd lexer.Value]. apply slice_input.
    apply (scan_while_reads_on _ _ counts_only_id). }
  rewrite ?single_token, ?with_equal_token.
  repeat match goal with
         | |- context [if char_is (currentChar l) ?c then _ else _] =>
             let E := fresh "E" in
             destruct (char_is (currentChar l) c) eqn:E;
             [apply char_is_eq in E|clear E]
         end;
    try (intros H; exfalso; apply H; reflexivity);
    try (destruct (char_is (currentChar (lexer.advance l)) "="%char) eqn:E2;
         [pose proof (not_at_end_equal _ E2); apply char_is_eq in E2|]);
    intros _ _; cbn [fst snd lexer.Value position lexer.advance];
    rewrite ?slice_two, ?slice_one by assumption;
    rewrite ?E2; congruence.
Qed.

Lemma Tokenize_loop_at_end fuel : forall l l',
  Tokenize_loop fuel l = Ok l' -> at_end l' = true.
Proof.
  induction fuel as [|fuel IH]; intros l l'; cbn [Tokenize_loop];
    destruct (at_end l) eqn:He; try (intros [= <-]; exact He);
    try discriminate.
  destruct (at_end (skipWhitespace l)) eqn:He'; [intros [= <-]; exact He'|].
  destruct (nextToken (skipWhitespace l)) as [t l1].
  destruct (bool_decide _); [discriminate | apply IH].
Qed.

Lemma skipWhitespace_solid l :
  all_chars solid (input l) = true -> skipWhitespace l = l.
Proof.
  intros Hs. unfold skipWhitespace.
  destruct (remaining l) as [|n]; [reflexivity|]. cbn [skipWhitespace_loop].
  destruct (at_end l) eqn:He; [reflexivity|]. cbn [negb andb].
  pose proof (all_chars_get _ _ _ _ Hs (currentChar_get l He)) as Hc.
  unfold solid in Hc. apply andb_prop in Hc as [Hc _].
  apply negb_true_iff in Hc. rewrite Hc. reflexivity.
Qed.

Lemma nextToken_solid l :
  all_chars solid (input l) = true -> at_end l = false ->
  lexer.Type_ (fst (nextToken l)) <> TokenText.
Proof.
  intros Hs He.
  pose proof (all_chars_get _ _ _ _ Hs (currentChar_get l He)) as Hc.
  unfold solid in Hc. apply andb_prop in Hc as [_ Hc].
  apply negb_true_iff in Hc.
  destruct (nextToken_cases l)
    as [[_ ->]|[[Hq _]|[[_ ->]|[(ty & v & l' & Hin & -> & _)| ->]]]];
    cbn [fst lexer.Type_]; try discriminate; try congruence.
  - rewrite readIdentifierOrKeyword_word. cbn [fst lexer.Type_].
    intros H. pose proof (getKeywordType_word
      (slice (scan_while in_word (fun l => l) (remaining l) l) (position l)
         (position (scan_while in_word (fun l => l) (remaining l) l)))) as Hw.
    rewrite H in Hw. revert Hw. compute_done.
  - intros ->. revert Hin. compute_done.
Qed.

(** X30 (the lexemes are the source).  When a source holds no whitespace
    and no double quote, the lexemes of the tokens of its scan, put one after
    the other, are the source: the scanner drops nothing and adds nothing. *)
Theorem lexemes_are_the_source source ts :
  all_chars solid source = true ->
  Tokenize source = Ok ts ->
  lexemes_of ts = source.
Proof.
  intros Hs. unfold Tokenize, Tokenize_from.
  destruct (Tokenize_loop _ _) as [l| | |] eqn:E; try discriminate.
  intros [= <-].
  pose (I := fun l : Lexer =>
    input l = source
    /\ lexemes_of (lexer.tokens l) = String.substring 0 (position l) source).
  assert (H : I l).
  { revert E. apply (Tokenize_loop_invariant I).
    - intros l0 [Hi Hl]. rewrite skipWhitespace_solid by (rewrite Hi; exact Hs).
      split; assumption.
    - intros l0 [Hi Hl] He Ht.
      pose proof (nextToken_reads_on l0) as (Ri & Rt & Rp & _).
      pose proof (nextToken_lexeme l0 He Ht
                    (nextToken_solid l0 ltac:(rewrite Hi; exact Hs) He)) as Hv.
      unfold I. cbn [push input lexer.tokens position].
      rewrite Ri, Rt, lexemes_of_app. cbn [lexemes_of].
      rewrite append_nil_r, Hl, Hv. unfold slice. rewrite Hi.
      rewrite substring_app. split; [reflexivity|]. f_equal. lia.
    - split; [reflexivity|]. cbn [NewLexer lexer.tokens position lexemes_of].
      symmetry. apply substring_nothing. }
  destruct H as [Hi Hl]. cbn [push lexer.tokens].
  rewrite lexemes_of_app, Hl. cbn. rewrite append_nil_r.
  apply substring_all.
  pose proof (Tokenize_loop_at_end _ _ _ E) as He.
  unfold at_end, len in He. apply Nat.leb_le in He. rewrite Hi in He. exact He.
Qed.

Lemma lexemes_are_the_source_witness :
  lexemes_of
    [mkToken TokenIdentifier "x" 1 1 (PString "x");
     mkToken TokenEqual "==" 1 2 PNil;
     mkToken TokenNumber "1.5" 1 4 (PString "1.5");
     mkToken TokenEOF EmptyString 1 7 PNil]
  = "x==1.5".
Proof.
  apply (lexemes_are_the_source "x==1.5"); vm_compute; reflexivity.
Defined.
